(** * Flatline: constant-time primitives, shallow embedding and proofs

    The C header [flatline.h] is embedded function by function.  Unsigned
    C integers are mathematical integers ([Z]) together with an explicit
    wrap-around at every point where C truncates: a cast [(uint8_t)e] is
    [u8 e], arithmetic carried out at type [uint32_t] is followed by
    [u32], and so on.  Operands narrower than [int] are promoted by C
    before arithmetic; the promoted value is the unbounded [Z] value and
    the truncation happens at the cast that follows, exactly as in the
    source.

    Data model: LP64 ([unsigned] and [int] have 32 bits, [size_t] has 64
    bits).  Buffers are lists of words; out-parameters become components
    of the returned tuple.  The lookups and the stores by sweep, whose
    result depends on the width of [size_t], are given a second time with
    that width as a parameter ([flat_lookup_W_on], [flat_store_at_W_on]). *)

From Stdlib Require Import ZArith Lia Bool List Btauto.
From stdpp Require Import base list list_numbers.
Import ListNotations.

Local Open Scope Z_scope.

(** ** Machine integers *)

Definition wrap (w x : Z) : Z := x mod 2 ^ w.

Definition u8 : Z -> Z := wrap 8.
Definition u16 : Z -> Z := wrap 16.
Definition u32 : Z -> Z := wrap 32.
Definition u64 : Z -> Z := wrap 64.

(** [sizeof(size_t) * 8] on the modelled target. *)
Definition SIZE_BITS : Z := 64.
Definition usz : Z -> Z := wrap SIZE_BITS.

(** Conversion to [unsigned]. *)
Definition uint : Z -> Z := wrap 32.

(** The values a [w]-bit unsigned object can hold. *)
Definition word (w x : Z) : Prop := 0 <= x < 2 ^ w.

(** The all-ones word of width [w]. *)
Definition ALL_ONES (w : Z) : Z := 2 ^ w - 1.

(** ** Masks and predicates *)

Definition flat_mask_from_bit_u8 (bit : Z) : Z := u8 (u8 0 - u8 (Z.land bit 1)).
Definition flat_mask_from_bit_u16 (bit : Z) : Z := u16 (u16 0 - u16 (Z.land bit 1)).
Definition flat_mask_from_bit_u32 (bit : Z) : Z := u32 (u32 0 - u32 (Z.land bit 1)).
Definition flat_mask_from_bit_u64 (bit : Z) : Z := u64 (u64 0 - u64 (Z.land bit 1)).
Definition flat_mask_from_bit_sz (bit : Z) : Z := usz (usz 0 - usz (Z.land bit 1)).

Definition flat_mask_is_zero_u8 (x : Z) : Z :=
  u8 (uint (Z.shiftr (u8 (Z.lor x (u8 (uint (0 - x))))) 7 - 1)).
Definition flat_mask_is_zero_u16 (x : Z) : Z :=
  u16 (uint (Z.shiftr (u16 (Z.lor x (u16 (uint (0 - x))))) 15 - 1)).
Definition flat_mask_is_zero_u32 (x : Z) : Z :=
  u32 (Z.shiftr (Z.lor x (u32 (0 - x))) 31 - 1).
Definition flat_mask_is_zero_u64 (x : Z) : Z :=
  u64 (Z.shiftr (Z.lor x (u64 (0 - x))) 63 - 1).
Definition flat_mask_is_zero_sz (x : Z) : Z :=
  usz (Z.shiftr (Z.lor x (usz (usz 0 - x))) (SIZE_BITS - 1) - 1).

Definition flat_mask_eq_u8 (a b : Z) : Z := flat_mask_is_zero_u8 (u8 (Z.lxor a b)).
Definition flat_mask_eq_u16 (a b : Z) : Z := flat_mask_is_zero_u16 (u16 (Z.lxor a b)).
Definition flat_mask_eq_u32 (a b : Z) : Z := flat_mask_is_zero_u32 (u32 (Z.lxor a b)).
Definition flat_mask_eq_u64 (a b : Z) : Z := flat_mask_is_zero_u64 (u64 (Z.lxor a b)).
Definition flat_mask_eq_sz (a b : Z) : Z := flat_mask_is_zero_sz (usz (Z.lxor a b)).

Definition flat_mask_lt_u8 (a b : Z) : Z :=
  let t := u8 (Z.shiftr (Z.lxor a (Z.lor (u8 (Z.lxor a b)) (u8 (Z.lxor (a - b) b)))) 7) in
  u8 (uint (0 - Z.land t 1)).
Definition flat_mask_lt_u16 (a b : Z) : Z :=
  let t := u16 (Z.shiftr (Z.lxor a (Z.lor (u16 (Z.lxor a b)) (u16 (Z.lxor (a - b) b)))) 15) in
  u16 (uint (0 - Z.land t 1)).
Definition flat_mask_lt_u32 (a b : Z) : Z :=
  let t := u32 (Z.shiftr (Z.lxor a (Z.lor (Z.lxor a b) (Z.lxor (u32 (a - b)) b))) 31) in
  u32 (uint (0 - Z.land t 1)).
Definition flat_mask_lt_u64 (a b : Z) : Z :=
  let t := u64 (Z.shiftr (Z.lxor a (Z.lor (Z.lxor a b) (Z.lxor (u64 (a - b)) b))) 63) in
  u64 (u64 (0 - Z.land t 1)).
Definition flat_mask_lt_sz (a b : Z) : Z :=
  let W := uint (SIZE_BITS - 1) in
  let t := usz (Z.shiftr (Z.lxor a (Z.lor (Z.lxor a b) (Z.lxor (usz (a - b)) b))) W) in
  usz (usz 0 - Z.land t (usz 1)).

Definition flat_mask_to_bit_u32 (m : Z) : Z := uint (Z.land m 1).

(** ** Selectors *)

Definition flat_select_u8_mask (yes no mask : Z) : Z :=
  u8 (Z.lor (Z.land yes mask) (Z.land no (u8 (Z.lnot mask)))).
Definition flat_select_u16_mask (yes no mask : Z) : Z :=
  u16 (Z.lor (Z.land yes mask) (Z.land no (u16 (Z.lnot mask)))).
Definition flat_select_u32_mask (yes no mask : Z) : Z :=
  Z.lor (Z.land yes mask) (Z.land no (u32 (Z.lnot mask))).
Definition flat_select_u64_mask (yes no mask : Z) : Z :=
  Z.lor (Z.land yes mask) (Z.land no (u64 (Z.lnot mask))).
Definition flat_select_sz_mask (yes no mask : Z) : Z :=
  Z.lor (Z.land yes mask) (Z.land no (usz (Z.lnot mask))).

Definition flat_select_u8 (cond yes no : Z) : Z :=
  flat_select_u8_mask yes no (flat_mask_from_bit_u8 cond).
Definition flat_select_u16 (cond yes no : Z) : Z :=
  flat_select_u16_mask yes no (flat_mask_from_bit_u16 cond).
Definition flat_select_u32 (cond yes no : Z) : Z :=
  flat_select_u32_mask yes no (flat_mask_from_bit_u32 cond).
Definition flat_select_u64 (cond yes no : Z) : Z :=
  flat_select_u64_mask yes no (flat_mask_from_bit_u64 cond).
Definition flat_select_sz (cond yes no : Z) : Z :=
  flat_select_sz_mask yes no (flat_mask_from_bit_sz cond).

(** Conversion of an unsigned value to [int] (two's complement). *)
Definition sint (x : Z) : Z :=
  let y := wrap 32 x in if y <? 2 ^ 31 then y else y - 2 ^ 32.

(** ** Loops and buffers *)

(** [for (i = 0; i < n; i++) s = body i s;] *)
Definition for_up {St : Type} (n : Z) (body : Z -> St -> St) (s : St) : St :=
  fold_left (fun s i => body i s) (seqZ 0 n) s.

(** [for (i = hi; i >= lo; i--) s = body i s;] *)
Definition for_down {St : Type} (hi lo : Z) (body : Z -> St -> St) (s : St) : St :=
  fold_left (fun s i => body i s) (reverse (seqZ lo (hi - lo + 1))) s.

(** [buf[i]].  A read outside the buffer is undefined in C; here it
    yields 0, and the theorems below state the buffer sizes under which
    every read is inside. *)
Definition ld (buf : list Z) (i : Z) : Z := default 0 (buf !! Z.to_nat i).

(** [buf[i] = v]. *)
Definition st (buf : list Z) (i v : Z) : list Z := <[Z.to_nat i := v]> buf.

(** All elements of a buffer are [w]-bit words. *)
Definition words (w : Z) (buf : list Z) : Prop := Forall (word w) buf.

(** ** Conditional copy *)

Definition flat_memcpy_when (cond : Z) (dst src : list Z) (len : Z) : list Z :=
  let m := flat_mask_from_bit_u8 cond in
  for_up len
    (fun i dst =>
       let v := u8 (Z.lor (Z.land (ld src i) m) (Z.land (ld dst i) (u8 (Z.lnot m)))) in
       st dst i v)
    dst.

(** ** Scans *)

Definition flat_mem_eq (a b : list Z) (len : Z) : Z :=
  let diff :=
    for_up len (fun i diff => Z.lor diff (u32 (Z.lxor (ld a i) (ld b i)))) 0 in
  sint (Z.land (flat_mask_is_zero_u32 diff) 1).

(** Loop state of [flat_mem_cmp]. *)
Record cmp_acc : Type := CmpAcc { cmp_seen : Z; cmp_lt : Z; cmp_gt : Z }.

Definition flat_mem_cmp_step (a b : list Z) (i : Z) (s : cmp_acc) : cmp_acc :=
  let ai := u32 (ld a i) in
  let bi := u32 (ld b i) in
  let m_lt := flat_mask_lt_u32 ai bi in
  let m_gt := flat_mask_lt_u32 bi ai in
  let m_ne := u32 (Z.lnot (flat_mask_eq_u32 ai bi)) in
  let take := u32 (Z.lnot (cmp_seen s)) in
  let lt := Z.lor (cmp_lt s) (Z.land take m_lt) in
  let gt := Z.lor (cmp_gt s) (Z.land take m_gt) in
  let seen := Z.lor (cmp_seen s) (Z.land take m_ne) in
  CmpAcc seen lt gt.

Definition flat_mem_cmp (a b : list Z) (len : Z) : Z :=
  let s := for_up len (flat_mem_cmp_step a b) (CmpAcc 0 0 0) in
  sint (flat_mask_to_bit_u32 (cmp_gt s)) - sint (flat_mask_to_bit_u32 (cmp_lt s)).

(** The sign of C's [memcmp] on two buffers of equal length: the order of
    the first pair of differing bytes, compared as unsigned. *)
Fixpoint memcmp_sign (a b : list Z) : Z :=
  match a, b with
  | x :: a', y :: b' =>
      if x <? y then -1 else if y <? x then 1 else memcmp_sign a' b'
  | _, _ => 0
  end.

(** ** Lookup

    With the 64-bit [size_t] of the data model; [flat_lookup_W_on] below
    has the width of [size_t] as a parameter. *)

Definition flat_lookup_u8 (arr : list Z) (len idx : Z) : Z :=
  for_up len
    (fun i out =>
       let m := u8 (flat_mask_eq_sz i idx) in
       u8 (Z.lor (Z.land (ld arr i) m) (Z.land out (u8 (Z.lnot m)))))
    (u8 0).

Definition flat_lookup_u16 (arr : list Z) (len idx : Z) : Z :=
  for_up len
    (fun i out =>
       let m := u16 (flat_mask_eq_sz i idx) in
       u16 (Z.lor (Z.land (ld arr i) m) (Z.land out (u16 (Z.lnot m)))))
    (u16 0).

Definition flat_lookup_u32 (arr : list Z) (len idx : Z) : Z :=
  for_up len
    (fun i out =>
       let m := u32 (flat_mask_eq_sz i idx) in
       Z.lor (Z.land (ld arr i) m) (Z.land out (u32 (Z.lnot m))))
    (u32 0).

Definition flat_lookup_u64 (arr : list Z) (len idx : Z) : Z :=
  for_up len
    (fun i out =>
       let m := u64 (flat_mask_eq_sz i idx) in
       Z.lor (Z.land (ld arr i) m) (Z.land out (u64 (Z.lnot m))))
    (u64 0).

(** ** Zero-padding scan *)

Definition flat_zeropad_data_len (buf : list Z) (len : Z) : Z :=
  fst (for_down len 1
         (fun i '(data_len, seen) =>
            let x := ld buf (i - 1) in
            let nz_mask := u8 (Z.lnot (flat_mask_is_zero_u8 x)) in
            let nz_bit := usz (Z.land nz_mask 1) in
            let trigger := Z.land nz_bit (usz (Z.lnot seen)) in
            (flat_select_sz (uint trigger) i data_len, Z.lor seen nz_bit))
         (0, 0)).

(** ** Min *)

Definition flat_min_sz (a b : Z) : Z :=
  let m := flat_mask_lt_sz a b in
  Z.lxor b (Z.land (Z.lxor a b) m).

(** ** Index clamp and masked load *)



(** ** Error accumulator and commit *)

Record flat_erracc_t : Type := ErrAcc { acc : Z }.

Definition flat_erracc_init (e : flat_erracc_t) : flat_erracc_t := ErrAcc (u32 0).

Definition flat_erracc_or (e : flat_erracc_t) (cond : Z) : flat_erracc_t :=
  ErrAcc (Z.lor (acc e) (Z.land cond 1)).

Definition flat_erracc_ok (e : flat_erracc_t) : Z :=
  uint (Z.land (flat_mask_is_zero_u32 (acc e)) 1).

Definition flat_commit_if_ok (ok : Z) (dst tmp : list Z) (n : Z) : list Z :=
  flat_memcpy_when ok dst tmp n.

(** ** PKCS#7 unpad: returns [(ok, *data_len_out)] *)

Definition flat_pkcs7_unpad_ct (buf : list Z) (len block : Z) : Z * Z :=
  if (len =? 0) || (block =? 0) then (0, 0)
  else
    let pad := ld buf (len - 1) in
    let ok1 :=
      Z.land (Z.land (Z.b2z (1 <=? pad)) (Z.b2z (pad <=? u8 block)))
        (Z.b2z (pad <=? u8 len)) in
    let maxchk := flat_min_sz len block in
    let diff :=
      for_up maxchk
        (fun i diff =>
           let in_window := u8 (Z.land (flat_mask_lt_sz i (usz pad)) 255) in
           let b := ld buf (len - 1 - i) in
           Z.lor diff (u32 (Z.land (Z.lxor b pad) in_window)))
        0 in
    let ok2 := uint (Z.land (flat_mask_is_zero_u32 diff) 1) in
    let ok := Z.land ok1 ok2 in
    let data_len := usz (len - usz pad) in
    (ok, flat_select_sz ok data_len (usz 0)).

(** ** Bit-serial division: returns [(ok, *q, *r)] *)

Definition flat_div_mod_ct_u64 (n d : Z) : Z * Z * Z :=
  let '(qv, rv) :=
    for_down 63 0
      (fun i '(qv, rv) =>
         let rv := Z.lor (u64 (Z.shiftl rv 1)) (Z.land (Z.shiftr n (uint i)) 1) in
         let ge := u64 (Z.lnot (flat_mask_lt_u64 rv d)) in
         let rv := u64 (rv - Z.land d ge) in
         let qv := Z.lor qv (Z.land (u64 (Z.shiftl 1 (uint i))) ge) in
         (qv, rv))
      (0, 0) in
  let ok := uint (Z.land (u64 (Z.lnot (flat_mask_is_zero_u64 d))) 1) in
  (ok, flat_select_u64 ok qv 0, flat_select_u64 ok rv 0).

Definition flat_div_mod_ct_u32 (n d : Z) : Z * Z * Z :=
  let '(qv, rv) :=
    for_down 31 0
      (fun i '(qv, rv) =>
         let rv := Z.lor (u32 (Z.shiftl rv 1)) (Z.land (Z.shiftr n (uint i)) 1) in
         let ge := u32 (Z.lnot (flat_mask_lt_u32 rv d)) in
         let rv := u32 (rv - Z.land d ge) in
         let qv := Z.lor qv (Z.land (u32 (Z.shiftl 1 (uint i))) ge) in
         (qv, rv))
      (0, 0) in
  let ok := uint (Z.land (u32 (Z.lnot (flat_mask_is_zero_u32 d))) 1) in
  (ok, flat_select_u32 ok qv 0, flat_select_u32 ok rv 0).

(** ** Dispatch over the supported widths

    The header repeats each primitive once per width.  [width] names the
    five instances so that a statement can range over all of them. *)

Inductive width : Type := W8 | W16 | W32 | W64 | WSZ.

Definition bits (W : width) : Z :=
  match W with
  | W8 => 8 | W16 => 16 | W32 => 32 | W64 => 64 | WSZ => SIZE_BITS
  end.

Definition flat_mask_lt_W (W : width) : Z -> Z -> Z :=
  match W with
  | W8 => flat_mask_lt_u8
  | W16 => flat_mask_lt_u16
  | W32 => flat_mask_lt_u32
  | W64 => flat_mask_lt_u64
  | WSZ => flat_mask_lt_sz
  end.

Definition flat_select_W (W : width) : Z -> Z -> Z -> Z :=
  match W with
  | W8 => flat_select_u8
  | W16 => flat_select_u16
  | W32 => flat_select_u32
  | W64 => flat_select_u64
  | WSZ => flat_select_sz
  end.

(** Element widths for which a lookup exists. *)
Inductive elem_width : Type := E8 | E16 | E32 | E64.

Definition elem_bits (E : elem_width) : Z :=
  match E with E8 => 8 | E16 => 16 | E32 => 32 | E64 => 64 end.

Definition flat_lookup_W (E : elem_width) : list Z -> Z -> Z -> Z :=
  match E with
  | E8 => flat_lookup_u8
  | E16 => flat_lookup_u16
  | E32 => flat_lookup_u32
  | E64 => flat_lookup_u64
  end.

(** The accumulator after [flat_erracc_init] followed by one
    [flat_erracc_or] per condition, in order. *)
Definition erracc_feed (e : flat_erracc_t) (conds : list Z) : flat_erracc_t :=
  fold_left flat_erracc_or conds (flat_erracc_init e).

(** One iteration of the lookup sweep at element width [w]: the body
    shared by the four [flat_lookup_*] loops, before the store to [out]. *)
Definition lookup_step (w : Z) (arr : list Z) (idx i out : Z) : Z :=
  let m := wrap w (flat_mask_eq_sz i idx) in
  Z.lor (Z.land (ld arr i) m) (Z.land out (wrap w (Z.lnot m))).

(** The three accumulators of [flat_mem_cmp] once the order of the
    prefixes read so far is [c]. *)
Definition cmp_acc_of_sign (c : Z) : cmp_acc :=
  if c =? 0 then CmpAcc 0 0 0
  else if c <? 0 then CmpAcc (ALL_ONES 32) (ALL_ONES 32) 0
       else CmpAcc (ALL_ONES 32) 0 (ALL_ONES 32).

(** One iteration of the long division at width [w], with [lt] the
    less-than mask of that width: the body shared by the two
    [flat_div_mod_ct_*] loops. *)
Definition div_step (w : Z) (lt : Z -> Z -> Z) (n d i : Z) (s : Z * Z) : Z * Z :=
  let '(qv, rv) := s in
  let rv := Z.lor (wrap w (Z.shiftl rv 1)) (Z.land (Z.shiftr n (uint i)) 1) in
  let ge := wrap w (Z.lnot (lt rv d)) in
  let rv := wrap w (rv - Z.land d ge) in
  let qv := Z.lor qv (Z.land (wrap w (Z.shiftl 1 (uint i))) ge) in
  (qv, rv).

(** The widths at which the division exists. *)
Inductive div_width : Type := D32 | D64.

Definition div_bits (D : div_width) : Z :=
  match D with D32 => 32 | D64 => 64 end.

Definition flat_div_mod_ct_W (D : div_width) : Z -> Z -> Z * Z * Z :=
  match D with
  | D32 => flat_div_mod_ct_u32
  | D64 => flat_div_mod_ct_u64
  end.

(** Loop invariant of the division: before bit [i] is processed, [rv]
    and [qv] (the state [s = (qv, rv)]) hold the remainder and the shifted
    quotient of the bits of [n] above [i]. *)
Definition div_inv (n d i : Z) (s : Z * Z) : Prop :=
  exists q, 0 <= q /\ 0 <= snd s < d
            /\ n / 2 ^ (i + 1) = q * d + snd s
            /\ fst s = q * 2 ^ (i + 1).

(** The buffer [buf] of [n] bytes ends with [k] copies of the byte [k],
    with [1 <= k <= block] and [k <= n]: valid PKCS#7 padding. *)
Definition pkcs7_padded (buf : list Z) (n block k : Z) : Prop :=
  1 <= k <= block /\ k <= n
  /\ forall j, 0 <= j < k -> ld buf (n - 1 - j) = k.

(** The scan of [flat_pkcs7_unpad_ct] over the last [maxchk] bytes. *)
Definition pkcs7_diff (buf : list Z) (len pad maxchk : Z) : Z :=
  for_up maxchk
    (fun i diff =>
       let in_window := u8 (Z.land (flat_mask_lt_sz i (usz pad)) 255) in
       let b := ld buf (len - 1 - i) in
       Z.lor diff (u32 (Z.land (Z.lxor b pad) in_window)))
    0.

(** ** Further primitives of the header *)

(** *** Dispatch of the remaining mask primitives *)

Definition flat_mask_from_bit_W (W : width) : Z -> Z :=
  match W with
  | W8 => flat_mask_from_bit_u8
  | W16 => flat_mask_from_bit_u16
  | W32 => flat_mask_from_bit_u32
  | W64 => flat_mask_from_bit_u64
  | WSZ => flat_mask_from_bit_sz
  end.

Definition flat_mask_is_zero_W (W : width) : Z -> Z :=
  match W with
  | W8 => flat_mask_is_zero_u8
  | W16 => flat_mask_is_zero_u16
  | W32 => flat_mask_is_zero_u32
  | W64 => flat_mask_is_zero_u64
  | WSZ => flat_mask_is_zero_sz
  end.

Definition flat_mask_eq_W (W : width) : Z -> Z -> Z :=
  match W with
  | W8 => flat_mask_eq_u8
  | W16 => flat_mask_eq_u16
  | W32 => flat_mask_eq_u32
  | W64 => flat_mask_eq_u64
  | WSZ => flat_mask_eq_sz
  end.

(** *** Masked arithmetic; carry and borrow come back as the second
    component *)

Definition flat_add_when_u32 (cond x y : Z) : Z :=
  let m := flat_mask_from_bit_u32 cond in
  u32 (x + Z.land y m).

Definition flat_add_when_u64 (cond x y : Z) : Z :=
  let m := flat_mask_from_bit_u64 cond in
  u64 (x + Z.land y m).

Definition flat_adc_u32 (x y cin : Z) : Z * Z :=
  let s1 := u32 (x + y) in
  let c1 := u32 (flat_mask_to_bit_u32 (flat_mask_lt_u32 s1 x)) in
  let s2 := u32 (s1 + Z.land cin 1) in
  let c2 := u32 (flat_mask_to_bit_u32 (flat_mask_lt_u32 s2 s1)) in
  (s2, uint (Z.lor c1 c2)).

Definition flat_adc_u64 (x y cin : Z) : Z * Z :=
  let s1 := u64 (x + y) in
  let c1 := uint (flat_mask_to_bit_u32 (u32 (flat_mask_lt_u64 s1 x))) in
  let s2 := u64 (s1 + u64 (Z.land cin 1)) in
  let c2 := uint (flat_mask_to_bit_u32 (u32 (flat_mask_lt_u64 s2 s1))) in
  (s2, uint (Z.lor c1 c2)).

Definition flat_sbc_u32 (x y bin : Z) : Z * Z :=
  let t := u32 (x - y) in
  let b1 := uint (flat_mask_to_bit_u32 (flat_mask_lt_u32 x y)) in
  let r := u32 (t - Z.land bin 1) in
  let b2 := uint (flat_mask_to_bit_u32 (flat_mask_lt_u32 t (Z.land bin 1))) in
  (r, uint (Z.lor b1 b2)).

Definition flat_sbc_u64 (x y bin : Z) : Z * Z :=
  let t := u64 (x - y) in
  let b1 := uint (flat_mask_to_bit_u32 (u32 (flat_mask_lt_u64 x y))) in
  let r := u64 (t - u64 (Z.land bin 1)) in
  let b2 :=
    uint (flat_mask_to_bit_u32 (u32 (flat_mask_lt_u64 t (u64 (Z.land bin 1))))) in
  (r, uint (Z.lor b1 b2)).

Definition flat_add_carry_u32 (a b cin : Z) : Z * Z := flat_adc_u32 a b cin.
Definition flat_add_carry_u64 (a b cin : Z) : Z * Z := flat_adc_u64 a b cin.
Definition flat_sub_borrow_u32 (a b bin : Z) : Z * Z := flat_sbc_u32 a b bin.
Definition flat_sub_borrow_u64 (a b bin : Z) : Z * Z := flat_sbc_u64 a b bin.

Definition flat_adc_when_u32 (cond x y cin : Z) : Z * Z :=
  let m := flat_mask_from_bit_u32 cond in
  let ym := Z.land y m in
  let cim := Z.land cin (uint (Z.land m 1)) in
  flat_adc_u32 x ym cim.

Definition flat_adc_when_u64 (cond x y cin : Z) : Z * Z :=
  let m := flat_mask_from_bit_u64 cond in
  let ym := Z.land y m in
  let cim := Z.land cin (uint (Z.land m 1)) in
  flat_adc_u64 x ym cim.

Definition flat_sbc_when_u32 (cond x y bin : Z) : Z * Z :=
  let m := flat_mask_from_bit_u32 cond in
  let ym := Z.land y m in
  let binm := Z.land bin (uint (Z.land m 1)) in
  flat_sbc_u32 x ym binm.

Definition flat_sbc_when_u64 (cond x y bin : Z) : Z * Z :=
  let m := flat_mask_from_bit_u64 cond in
  let ym := Z.land y m in
  let binm := Z.land bin (uint (Z.land m 1)) in
  flat_sbc_u64 x ym binm.

Definition flat_adc_W (D : div_width) : Z -> Z -> Z -> Z * Z :=
  match D with D32 => flat_adc_u32 | D64 => flat_adc_u64 end.

Definition flat_sbc_W (D : div_width) : Z -> Z -> Z -> Z * Z :=
  match D with D32 => flat_sbc_u32 | D64 => flat_sbc_u64 end.

Definition flat_add_when_W (D : div_width) : Z -> Z -> Z -> Z :=
  match D with D32 => flat_add_when_u32 | D64 => flat_add_when_u64 end.

Definition flat_adc_when_W (D : div_width) : Z -> Z -> Z -> Z -> Z * Z :=
  match D with D32 => flat_adc_when_u32 | D64 => flat_adc_when_u64 end.

Definition flat_sbc_when_W (D : div_width) : Z -> Z -> Z -> Z -> Z * Z :=
  match D with D32 => flat_sbc_when_u32 | D64 => flat_sbc_when_u64 end.

(** *** Min, max, clamp *)

Definition flat_min_u32 (a b : Z) : Z :=
  let m := flat_mask_lt_u32 a b in
  Z.lxor b (Z.land (Z.lxor a b) m).

Definition flat_max_u32 (a b : Z) : Z :=
  let m := flat_mask_lt_u32 a b in
  Z.lxor a (Z.land (Z.lxor a b) m).

Definition flat_min_u64 (a b : Z) : Z :=
  let m := flat_mask_lt_u64 a b in
  Z.lxor b (Z.land (Z.lxor a b) m).

Definition flat_max_u64 (a b : Z) : Z :=
  let m := flat_mask_lt_u64 a b in
  Z.lxor a (Z.land (Z.lxor a b) m).

Definition flat_max_sz (a b : Z) : Z :=
  let m := flat_mask_lt_sz a b in
  Z.lxor a (Z.land (Z.lxor a b) m).

Definition flat_clamp_u32 (x lo hi : Z) : Z := flat_min_u32 (flat_max_u32 x lo) hi.
Definition flat_clamp_u64 (x lo hi : Z) : Z := flat_min_u64 (flat_max_u64 x lo) hi.
Definition flat_clamp_sz (x lo hi : Z) : Z := flat_min_sz (flat_max_sz x lo) hi.

(** The widths at which min, max and clamp exist. *)
Inductive ord_width : Type := O32 | O64 | OSZ.

Definition ord_bits (O : ord_width) : Z :=
  match O with O32 => 32 | O64 => 64 | OSZ => SIZE_BITS end.

Definition flat_min_W (O : ord_width) : Z -> Z -> Z :=
  match O with O32 => flat_min_u32 | O64 => flat_min_u64 | OSZ => flat_min_sz end.

Definition flat_max_W (O : ord_width) : Z -> Z -> Z :=
  match O with O32 => flat_max_u32 | O64 => flat_max_u64 | OSZ => flat_max_sz end.

Definition flat_clamp_W (O : ord_width) : Z -> Z -> Z -> Z :=
  match O with
  | O32 => flat_clamp_u32 | O64 => flat_clamp_u64 | OSZ => flat_clamp_sz
  end.

(** *** Conditional swap, zero and move of words; the updated objects are
    returned *)

Definition flat_cswap32 (cond a b : Z) : Z * Z :=
  let m := flat_mask_from_bit_u32 cond in
  let t := Z.land (Z.lxor a b) m in
  (Z.lxor a t, Z.lxor b t).

Definition flat_cswap64 (cond a b : Z) : Z * Z :=
  let m := flat_mask_from_bit_u64 cond in
  let t := Z.land (Z.lxor a b) m in
  (Z.lxor a t, Z.lxor b t).

Definition flat_zero_when_u32 (cond x : Z) : Z :=
  let m := flat_mask_from_bit_u32 cond in
  Z.land x (u32 (Z.lnot m)).

Definition flat_zero_when_u64 (cond x : Z) : Z :=
  let m := flat_mask_from_bit_u64 cond in
  Z.land x (u64 (Z.lnot m)).

Definition flat_zero_when_sz (cond x : Z) : Z :=
  let m := flat_mask_from_bit_sz cond in
  Z.land x (usz (Z.lnot m)).

Definition flat_mov_when_u32 (cond dst src : Z) : Z :=
  let m := flat_mask_from_bit_u32 cond in
  Z.lor (Z.land dst (u32 (Z.lnot m))) (Z.land src m).

Definition flat_mov_when_u64 (cond dst src : Z) : Z :=
  let m := flat_mask_from_bit_u64 cond in
  Z.lor (Z.land dst (u64 (Z.lnot m))) (Z.land src m).

Definition flat_mov_when_sz (cond dst src : Z) : Z :=
  let m := flat_mask_from_bit_sz cond in
  Z.lor (Z.land dst (usz (Z.lnot m))) (Z.land src m).

Definition flat_cswap_W (D : div_width) : Z -> Z -> Z -> Z * Z :=
  match D with D32 => flat_cswap32 | D64 => flat_cswap64 end.

Definition flat_zero_when_W (O : ord_width) : Z -> Z -> Z :=
  match O with
  | O32 => flat_zero_when_u32 | O64 => flat_zero_when_u64
  | OSZ => flat_zero_when_sz
  end.

Definition flat_mov_when_W (O : ord_width) : Z -> Z -> Z -> Z :=
  match O with
  | O32 => flat_mov_when_u32 | O64 => flat_mov_when_u64
  | OSZ => flat_mov_when_sz
  end.

(** *** Sorting network on [uint32_t] *)

Definition flat_sort2_u32 (a b : Z) : Z * Z :=
  let m := flat_mask_lt_u32 b a in
  let t := Z.land (Z.lxor a b) m in
  (Z.lxor a t, Z.lxor b t).

(** [flat_sort2_u32(&v[i], &v[j])] on the array [v]. *)
Definition sort2_at (v : list Z) (i j : Z) : list Z :=
  let '(x, y) := flat_sort2_u32 (ld v i) (ld v j) in
  st (st v i x) j y.

Definition flat_sort4_u32 (v : list Z) : list Z :=
  let v := sort2_at v 0 1 in
  let v := sort2_at v 2 3 in
  let v := sort2_at v 0 2 in
  let v := sort2_at v 1 3 in
  sort2_at v 1 2.

(** *** Bulk XOR, conditional XOR, copy and swap.  The updated buffers are
    returned; [restrict] makes source and destination distinct objects. *)

Definition flat_memxor (dst src : list Z) (len : Z) : list Z :=
  for_up len (fun i dst => st dst i (u8 (Z.lxor (ld dst i) (ld src i)))) dst.

Definition flat_memxor_u16 (dst src : list Z) (n : Z) : list Z :=
  for_up n (fun i dst => st dst i (u16 (Z.lxor (ld dst i) (ld src i)))) dst.

Definition flat_memxor_u32 (dst src : list Z) (n : Z) : list Z :=
  for_up n (fun i dst => st dst i (Z.lxor (ld dst i) (ld src i))) dst.

Definition flat_memxor_u64 (dst src : list Z) (n : Z) : list Z :=
  for_up n (fun i dst => st dst i (Z.lxor (ld dst i) (ld src i))) dst.

Definition flat_memxor_when (cond : Z) (dst src : list Z) (len : Z) : list Z :=
  let m := flat_mask_from_bit_u8 cond in
  for_up len
    (fun i dst => st dst i (u8 (Z.lxor (ld dst i) (u8 (Z.land (ld src i) m)))))
    dst.

Definition flat_memxor_when_u16 (cond : Z) (dst src : list Z) (n : Z) : list Z :=
  let m := flat_mask_from_bit_u16 cond in
  for_up n
    (fun i dst => st dst i (u16 (Z.lxor (ld dst i) (u16 (Z.land (ld src i) m)))))
    dst.

Definition flat_memxor_when_u32 (cond : Z) (dst src : list Z) (n : Z) : list Z :=
  let m := flat_mask_from_bit_u32 cond in
  for_up n (fun i dst => st dst i (Z.lxor (ld dst i) (Z.land (ld src i) m))) dst.

Definition flat_memxor_when_u64 (cond : Z) (dst src : list Z) (n : Z) : list Z :=
  let m := flat_mask_from_bit_u64 cond in
  for_up n (fun i dst => st dst i (Z.lxor (ld dst i) (Z.land (ld src i) m))) dst.

Definition flat_memcpy_when_u16 (cond : Z) (dst src : list Z) (n : Z) : list Z :=
  let m := flat_mask_from_bit_u16 cond in
  for_up n
    (fun i dst =>
       let v := u16 (Z.lor (Z.land (ld src i) m) (Z.land (ld dst i) (u16 (Z.lnot m)))) in
       st dst i v)
    dst.

Definition flat_memcpy_when_u32 (cond : Z) (dst src : list Z) (n : Z) : list Z :=
  let m := flat_mask_from_bit_u32 cond in
  for_up n
    (fun i dst =>
       let v := Z.lor (Z.land (ld src i) m) (Z.land (ld dst i) (u32 (Z.lnot m))) in
       st dst i v)
    dst.

Definition flat_memcpy_when_u64 (cond : Z) (dst src : list Z) (n : Z) : list Z :=
  let m := flat_mask_from_bit_u64 cond in
  for_up n
    (fun i dst =>
       let v := Z.lor (Z.land (ld src i) m) (Z.land (ld dst i) (u64 (Z.lnot m))) in
       st dst i v)
    dst.

Definition flat_memswap_when (cond : Z) (a b : list Z) (len : Z) : list Z * list Z :=
  let m := flat_mask_from_bit_u8 cond in
  for_up len
    (fun i '(a, b) =>
       let t := u8 (Z.land (Z.lxor (ld a i) (ld b i)) m) in
       let a := st a i (u8 (Z.lxor (ld a i) t)) in
       let b := st b i (u8 (Z.lxor (ld b i) t)) in
       (a, b))
    (a, b).

Definition flat_memswap_when_u16 (cond : Z) (a b : list Z) (n : Z) : list Z * list Z :=
  let m := flat_mask_from_bit_u16 cond in
  for_up n
    (fun i '(a, b) =>
       let t := u16 (Z.land (Z.lxor (ld a i) (ld b i)) m) in
       let a := st a i (u16 (Z.lxor (ld a i) t)) in
       let b := st b i (u16 (Z.lxor (ld b i) t)) in
       (a, b))
    (a, b).

Definition flat_memswap_when_u32 (cond : Z) (a b : list Z) (n : Z) : list Z * list Z :=
  let m := flat_mask_from_bit_u32 cond in
  for_up n
    (fun i '(a, b) =>
       let t := Z.land (Z.lxor (ld a i) (ld b i)) m in
       let a := st a i (Z.lxor (ld a i) t) in
       let b := st b i (Z.lxor (ld b i) t) in
       (a, b))
    (a, b).

Definition flat_memswap_when_u64 (cond : Z) (a b : list Z) (n : Z) : list Z * list Z :=
  let m := flat_mask_from_bit_u64 cond in
  for_up n
    (fun i '(a, b) =>
       let t := Z.land (Z.lxor (ld a i) (ld b i)) m in
       let a := st a i (Z.lxor (ld a i) t) in
       let b := st b i (Z.lxor (ld b i) t) in
       (a, b))
    (a, b).

Definition flat_memxor_W (E : elem_width) : list Z -> list Z -> Z -> list Z :=
  match E with
  | E8 => flat_memxor | E16 => flat_memxor_u16
  | E32 => flat_memxor_u32 | E64 => flat_memxor_u64
  end.

Definition flat_memxor_when_W (E : elem_width) : Z -> list Z -> list Z -> Z -> list Z :=
  match E with
  | E8 => flat_memxor_when | E16 => flat_memxor_when_u16
  | E32 => flat_memxor_when_u32 | E64 => flat_memxor_when_u64
  end.

Definition flat_memcpy_when_W (E : elem_width) : Z -> list Z -> list Z -> Z -> list Z :=
  match E with
  | E8 => flat_memcpy_when | E16 => flat_memcpy_when_u16
  | E32 => flat_memcpy_when_u32 | E64 => flat_memcpy_when_u64
  end.

Definition flat_memswap_when_W (E : elem_width)
  : Z -> list Z -> list Z -> Z -> list Z * list Z :=
  match E with
  | E8 => flat_memswap_when | E16 => flat_memswap_when_u16
  | E32 => flat_memswap_when_u32 | E64 => flat_memswap_when_u64
  end.

(** *** Store at an index by a full sweep

    With the 64-bit [size_t] of the data model; [flat_store_at_W_on] below
    has the width of [size_t] as a parameter. *)

Definition flat_store_at_u8 (arr : list Z) (len idx value : Z) : list Z :=
  for_up len
    (fun i arr =>
       let m := u8 (flat_mask_eq_sz i idx) in
       st arr i (u8 (Z.lor (Z.land value m) (Z.land (ld arr i) (u8 (Z.lnot m))))))
    arr.

Definition flat_store_at_u16 (arr : list Z) (len idx value : Z) : list Z :=
  for_up len
    (fun i arr =>
       let m := u16 (flat_mask_eq_sz i idx) in
       st arr i (u16 (Z.lor (Z.land value m) (Z.land (ld arr i) (u16 (Z.lnot m))))))
    arr.

Definition flat_store_at_u32 (arr : list Z) (len idx value : Z) : list Z :=
  for_up len
    (fun i arr =>
       let m := u32 (flat_mask_eq_sz i idx) in
       st arr i (Z.lor (Z.land value m) (Z.land (ld arr i) (u32 (Z.lnot m)))))
    arr.

Definition flat_store_at_u64 (arr : list Z) (len idx value : Z) : list Z :=
  for_up len
    (fun i arr =>
       let m := u64 (flat_mask_eq_sz i idx) in
       st arr i (Z.lor (Z.land value m) (Z.land (ld arr i) (u64 (Z.lnot m)))))
    arr.

Definition flat_store_at_W (E : elem_width) : list Z -> Z -> Z -> Z -> list Z :=
  match E with
  | E8 => flat_store_at_u8 | E16 => flat_store_at_u16
  | E32 => flat_store_at_u32 | E64 => flat_store_at_u64
  end.

(** *** Table application and block selection *)

Definition flat_table_apply_u8 (out inp : list Z) (n : Z) (table : list Z)
    (table_len : Z) : list Z :=
  for_up n
    (fun i out =>
       let idx := usz (ld inp i) in
       st out i (flat_lookup_u8 table table_len idx))
    out.

Definition flat_select_block (out blocks : list Z) (count stride secret_idx : Z)
  : list Z :=
  let o := for_up stride (fun k o => st o k (u8 0)) out in
  for_up count
    (fun i o =>
       let msz := flat_mask_eq_sz i secret_idx in
       let b := usz (i * stride) in
       for_up stride
         (fun k o =>
            let m := u8 msz in
            st o k (u8 (Z.lor (Z.land (ld blocks (b + k)) m)
                              (Z.land (ld o k) (u8 (Z.lnot m))))))
         o)
    o.

(** *** Reductions *)

Definition flat_reduce_or_u8 (buf : list Z) (len : Z) : Z :=
  let acc := for_up len (fun i acc => Z.lor acc (u32 (ld buf i))) (u32 0) in
  u8 acc.

Definition flat_reduce_and_u8 (buf : list Z) (len : Z) : Z :=
  let acc := for_up len (fun i acc => Z.land acc (u32 (ld buf i))) (u32 255) in
  u8 acc.

Definition flat_any_nonzero_u8 (buf : list Z) (len : Z) : Z :=
  let acc := for_up len (fun i acc => Z.lor acc (u32 (ld buf i))) (u32 0) in
  uint (Z.land (u32 (Z.lnot (flat_mask_is_zero_u32 acc))) 1).

Definition flat_all_zero_u8 (buf : list Z) (len : Z) : Z :=
  let acc := for_up len (fun i acc => Z.lor acc (u32 (ld buf i))) (u32 0) in
  uint (Z.land (flat_mask_is_zero_u32 acc) 1).

Definition flat_reduce_or_u32w (buf : list Z) (n : Z) : Z :=
  for_up n (fun i acc => Z.lor acc (ld buf i)) (u32 0).

Definition flat_reduce_and_u32w (buf : list Z) (n : Z) : Z :=
  for_up n (fun i acc => Z.land acc (ld buf i)) (u32 (Z.lnot 0)).

Definition flat_any_nonzero_u32w (buf : list Z) (n : Z) : Z :=
  let acc := for_up n (fun i acc => Z.lor acc (ld buf i)) (u32 0) in
  uint (Z.land (u32 (Z.lnot (flat_mask_is_zero_u32 acc))) 1).

Definition flat_all_zero_u32w (buf : list Z) (n : Z) : Z :=
  let acc := for_up n (fun i acc => Z.lor acc (ld buf i)) (u32 0) in
  uint (Z.land (flat_mask_is_zero_u32 acc) 1).

Definition flat_reduce_or_u64w (buf : list Z) (n : Z) : Z :=
  for_up n (fun i acc => Z.lor acc (ld buf i)) (u64 0).

Definition flat_reduce_and_u64w (buf : list Z) (n : Z) : Z :=
  for_up n (fun i acc => Z.land acc (ld buf i)) (u64 (Z.lnot 0)).

Definition flat_any_nonzero_u64w (buf : list Z) (n : Z) : Z :=
  let acc := for_up n (fun i acc => Z.lor acc (ld buf i)) (u64 0) in
  let comb := Z.lor (u32 (Z.shiftr acc 32)) (u32 acc) in
  uint (Z.land (u32 (Z.lnot (flat_mask_is_zero_u32 comb))) 1).

Definition flat_all_zero_u64w (buf : list Z) (n : Z) : Z :=
  let acc := for_up n (fun i acc => Z.lor acc (ld buf i)) (u64 0) in
  let comb := Z.lor (u32 (Z.shiftr acc 32)) (u32 acc) in
  uint (Z.land (flat_mask_is_zero_u32 comb) 1).

(** The element widths of the reductions. *)
Inductive red_width : Type := R8 | R32 | R64.

Definition red_bits (R : red_width) : Z :=
  match R with R8 => 8 | R32 => 32 | R64 => 64 end.

Definition flat_reduce_or_W (R : red_width) : list Z -> Z -> Z :=
  match R with
  | R8 => flat_reduce_or_u8 | R32 => flat_reduce_or_u32w
  | R64 => flat_reduce_or_u64w
  end.

Definition flat_reduce_and_W (R : red_width) : list Z -> Z -> Z :=
  match R with
  | R8 => flat_reduce_and_u8 | R32 => flat_reduce_and_u32w
  | R64 => flat_reduce_and_u64w
  end.

Definition flat_any_nonzero_W (R : red_width) : list Z -> Z -> Z :=
  match R with
  | R8 => flat_any_nonzero_u8 | R32 => flat_any_nonzero_u32w
  | R64 => flat_any_nonzero_u64w
  end.

Definition flat_all_zero_W (R : red_width) : list Z -> Z -> Z :=
  match R with
  | R8 => flat_all_zero_u8 | R32 => flat_all_zero_u32w
  | R64 => flat_all_zero_u64w
  end.

(** *** Mask-returning equality, wipes *)

Definition flat_memeq_mask (a b : list Z) (n : Z) : Z :=
  let diff :=
    for_up n (fun i diff => Z.lor diff (u32 (Z.lxor (ld a i) (ld b i)))) (u32 0) in
  flat_mask_is_zero_u32 diff.

(** The portable branch: a loop of volatile byte stores. *)
Definition flat_explicit_bzero (p : list Z) (n : Z) : list Z :=
  for_up n (fun i vp => st vp i (u8 0)) p.

Definition flat_memwipe_when (cond : Z) (p : list Z) (n : Z) : list Z :=
  let m := flat_mask_from_bit_u8 cond in
  for_up n (fun i b => st b i (u8 (Z.land (ld b i) (u8 (Z.lnot m))))) p.

(** *** Endianness helpers; a store returns the updated bytes *)

Definition flat_load_be16 (p : list Z) : Z :=
  u16 (Z.lor (Z.shiftl (u16 (ld p 0)) 8) (u16 (ld p 1))).

Definition flat_load_le16 (p : list Z) : Z :=
  u16 (Z.lor (Z.shiftl (u16 (ld p 1)) 8) (u16 (ld p 0))).

Definition flat_store_be16 (p : list Z) (v : Z) : list Z :=
  let p := st p 0 (u8 (Z.shiftr v 8)) in
  st p 1 (u8 v).

Definition flat_store_le16 (p : list Z) (v : Z) : list Z :=
  let p := st p 0 (u8 v) in
  st p 1 (u8 (Z.shiftr v 8)).

Definition flat_load_be32 (p : list Z) : Z :=
  Z.lor (Z.lor (Z.lor (u32 (Z.shiftl (u32 (ld p 0)) 24))
                      (u32 (Z.shiftl (u32 (ld p 1)) 16)))
               (u32 (Z.shiftl (u32 (ld p 2)) 8)))
        (u32 (ld p 3)).

Definition flat_load_le32 (p : list Z) : Z :=
  Z.lor (Z.lor (Z.lor (u32 (Z.shiftl (u32 (ld p 3)) 24))
                      (u32 (Z.shiftl (u32 (ld p 2)) 16)))
               (u32 (Z.shiftl (u32 (ld p 1)) 8)))
        (u32 (ld p 0)).

Definition flat_store_be32 (p : list Z) (v : Z) : list Z :=
  let p := st p 0 (u8 (Z.shiftr v 24)) in
  let p := st p 1 (u8 (Z.shiftr v 16)) in
  let p := st p 2 (u8 (Z.shiftr v 8)) in
  st p 3 (u8 v).

Definition flat_store_le32 (p : list Z) (v : Z) : list Z :=
  let p := st p 0 (u8 v) in
  let p := st p 1 (u8 (Z.shiftr v 8)) in
  let p := st p 2 (u8 (Z.shiftr v 16)) in
  st p 3 (u8 (Z.shiftr v 24)).

Definition flat_load_be64 (p : list Z) : Z :=
  Z.lor (Z.lor (Z.lor (Z.lor (Z.lor (Z.lor (Z.lor
    (u64 (Z.shiftl (u64 (ld p 0)) 56))
    (u64 (Z.shiftl (u64 (ld p 1)) 48)))
    (u64 (Z.shiftl (u64 (ld p 2)) 40)))
    (u64 (Z.shiftl (u64 (ld p 3)) 32)))
    (u64 (Z.shiftl (u64 (ld p 4)) 24)))
    (u64 (Z.shiftl (u64 (ld p 5)) 16)))
    (u64 (Z.shiftl (u64 (ld p 6)) 8)))
    (u64 (ld p 7)).

Definition flat_load_le64 (p : list Z) : Z :=
  Z.lor (Z.lor (Z.lor (Z.lor (Z.lor (Z.lor (Z.lor
    (u64 (Z.shiftl (u64 (ld p 7)) 56))
    (u64 (Z.shiftl (u64 (ld p 6)) 48)))
    (u64 (Z.shiftl (u64 (ld p 5)) 40)))
    (u64 (Z.shiftl (u64 (ld p 4)) 32)))
    (u64 (Z.shiftl (u64 (ld p 3)) 24)))
    (u64 (Z.shiftl (u64 (ld p 2)) 16)))
    (u64 (Z.shiftl (u64 (ld p 1)) 8)))
    (u64 (ld p 0)).

Definition flat_store_be64 (p : list Z) (v : Z) : list Z :=
  let p := st p 0 (u8 (Z.shiftr v 56)) in
  let p := st p 1 (u8 (Z.shiftr v 48)) in
  let p := st p 2 (u8 (Z.shiftr v 40)) in
  let p := st p 3 (u8 (Z.shiftr v 32)) in
  let p := st p 4 (u8 (Z.shiftr v 24)) in
  let p := st p 5 (u8 (Z.shiftr v 16)) in
  let p := st p 6 (u8 (Z.shiftr v 8)) in
  st p 7 (u8 v).

Definition flat_store_le64 (p : list Z) (v : Z) : list Z :=
  let p := st p 0 (u8 v) in
  let p := st p 1 (u8 (Z.shiftr v 8)) in
  let p := st p 2 (u8 (Z.shiftr v 16)) in
  let p := st p 3 (u8 (Z.shiftr v 24)) in
  let p := st p 4 (u8 (Z.shiftr v 32)) in
  let p := st p 5 (u8 (Z.shiftr v 40)) in
  let p := st p 6 (u8 (Z.shiftr v 48)) in
  st p 7 (u8 (Z.shiftr v 56)).

(** The unsigned value of a byte string, most significant byte first. *)
Definition be_value (bytes : list Z) : Z :=
  fold_left (fun acc b => acc * 256 + b) bytes 0.

(** *** Rotations *)

Definition flat_rol32 (x c : Z) : Z :=
  let n := Z.land c 31 in
  Z.lor (u32 (Z.shiftl x n)) (Z.shiftr x (Z.land (uint (32 - n)) 31)).

Definition flat_ror32 (x c : Z) : Z :=
  let n := Z.land c 31 in
  Z.lor (Z.shiftr x n) (u32 (Z.shiftl x (Z.land (uint (32 - n)) 31))).

Definition flat_rol64 (x c : Z) : Z :=
  let n := Z.land c 63 in
  Z.lor (u64 (Z.shiftl x n)) (Z.shiftr x (Z.land (uint (64 - n)) 63)).

Definition flat_ror64 (x c : Z) : Z :=
  let n := Z.land c 63 in
  Z.lor (Z.shiftr x n) (u64 (Z.shiftl x (Z.land (uint (64 - n)) 63))).

Definition flat_rol_W (D : div_width) : Z -> Z -> Z :=
  match D with D32 => flat_rol32 | D64 => flat_rol64 end.

Definition flat_ror_W (D : div_width) : Z -> Z -> Z :=
  match D with D32 => flat_ror32 | D64 => flat_ror64 end.

(** *** Pointer select, on the integer values of the pointers *)

Definition flat_ptr_select (cond yes no : Z) : Z :=
  let ym := u64 yes in
  let nm := u64 no in
  let m := u64 (flat_mask_from_bit_sz cond) in
  Z.lor (Z.land ym m) (Z.land nm (u64 (Z.lnot m))).

(** The widths of the endianness helpers. *)
Inductive end_width : Type := B16 | B32 | B64.

Definition end_bits (B : end_width) : Z :=
  match B with B16 => 16 | B32 => 32 | B64 => 64 end.

Definition end_bytes (B : end_width) : nat :=
  match B with B16 => 2%nat | B32 => 4%nat | B64 => 8%nat end.

Definition flat_load_be_W (B : end_width) : list Z -> Z :=
  match B with
  | B16 => flat_load_be16 | B32 => flat_load_be32 | B64 => flat_load_be64
  end.

Definition flat_load_le_W (B : end_width) : list Z -> Z :=
  match B with
  | B16 => flat_load_le16 | B32 => flat_load_le32 | B64 => flat_load_le64
  end.

Definition flat_store_be_W (B : end_width) : list Z -> Z -> list Z :=
  match B with
  | B16 => flat_store_be16 | B32 => flat_store_be32 | B64 => flat_store_be64
  end.

Definition flat_store_le_W (B : end_width) : list Z -> Z -> list Z :=
  match B with
  | B16 => flat_store_le16 | B32 => flat_store_le32 | B64 => flat_store_le64
  end.

(** *** Byte swap.  Where the compiler has [__builtin_bswap32] or
    [__builtin_bswap64] the header returns it; the portable expression
    below is what the function returns otherwise. *)

Definition flat_bswap32 (x : Z) : Z :=
  Z.lor (Z.lor (Z.lor (u32 (Z.shiftl (Z.land x 0xFF) 24))
                      (u32 (Z.shiftl (Z.land x 0xFF00) 8)))
               (Z.shiftr (Z.land x 0xFF0000) 8))
        (Z.shiftr (Z.land x 0xFF000000) 24).

Definition flat_bswap64 (x : Z) : Z :=
  Z.lor (Z.lor (Z.lor (Z.lor (Z.lor (Z.lor (Z.lor
    (u64 (Z.shiftl (Z.land x 0xFF) 56))
    (u64 (Z.shiftl (Z.land x 0xFF00) 40)))
    (u64 (Z.shiftl (Z.land x 0xFF0000) 24)))
    (u64 (Z.shiftl (Z.land x 0xFF000000) 8)))
    (Z.shiftr (Z.land x 0xFF00000000) 8))
    (Z.shiftr (Z.land x 0xFF0000000000) 24))
    (Z.shiftr (Z.land x 0xFF000000000000) 40))
    (Z.shiftr (Z.land x 0xFF00000000000000) 56).

Definition flat_bswap_W (D : div_width) : Z -> Z :=
  match D with D32 => flat_bswap32 | D64 => flat_bswap64 end.

(** Number of bytes of a word of the width [D]. *)
Definition div_bytes (D : div_width) : nat :=
  match D with D32 => 4%nat | D64 => 8%nat end.

(** *** The conventional names of [flat_adc] and [flat_sbc] *)

Definition flat_add_carry_W (D : div_width) : Z -> Z -> Z -> Z * Z :=
  match D with D32 => flat_add_carry_u32 | D64 => flat_add_carry_u64 end.

Definition flat_sub_borrow_W (D : div_width) : Z -> Z -> Z -> Z * Z :=
  match D with D32 => flat_sub_borrow_u32 | D64 => flat_sub_borrow_u64 end.

(** ** Lookup and store with the width of [size_t] as a parameter

    [flat_mask_is_zero_sz] shifts by [sizeof(size_t) * 8 - 1], and the
    lookups and the stores convert the [size_t] mask of
    [flat_mask_eq_sz] to the element type.  What they compute therefore
    depends on the width of [size_t], which the target fixes and the header
    does not.  The definitions below are the functions of the header with
    that width, [sb], as a parameter ([size_t] arithmetic wraps at [sb]
    bits); at [sb = SIZE_BITS] they are the definitions given above. *)

Definition flat_mask_is_zero_sz_on (sb x : Z) : Z :=
  wrap sb (Z.shiftr (Z.lor x (wrap sb (wrap sb 0 - x))) (sb - 1) - 1).

Definition flat_mask_eq_sz_on (sb a b : Z) : Z :=
  flat_mask_is_zero_sz_on sb (wrap sb (Z.lxor a b)).

Definition flat_lookup_u8_on (sb : Z) (arr : list Z) (len idx : Z) : Z :=
  for_up len
    (fun i out =>
       let m := u8 (flat_mask_eq_sz_on sb i idx) in
       u8 (Z.lor (Z.land (ld arr i) m) (Z.land out (u8 (Z.lnot m)))))
    (u8 0).

Definition flat_lookup_u16_on (sb : Z) (arr : list Z) (len idx : Z) : Z :=
  for_up len
    (fun i out =>
       let m := u16 (flat_mask_eq_sz_on sb i idx) in
       u16 (Z.lor (Z.land (ld arr i) m) (Z.land out (u16 (Z.lnot m)))))
    (u16 0).

Definition flat_lookup_u32_on (sb : Z) (arr : list Z) (len idx : Z) : Z :=
  for_up len
    (fun i out =>
       let m := u32 (flat_mask_eq_sz_on sb i idx) in
       Z.lor (Z.land (ld arr i) m) (Z.land out (u32 (Z.lnot m))))
    (u32 0).

Definition flat_lookup_u64_on (sb : Z) (arr : list Z) (len idx : Z) : Z :=
  for_up len
    (fun i out =>
       let m := u64 (flat_mask_eq_sz_on sb i idx) in
       Z.lor (Z.land (ld arr i) m) (Z.land out (u64 (Z.lnot m))))
    (u64 0).

Definition flat_lookup_W_on (sb : Z) (E : elem_width)
  : list Z -> Z -> Z -> Z :=
  match E with
  | E8 => flat_lookup_u8_on sb
  | E16 => flat_lookup_u16_on sb
  | E32 => flat_lookup_u32_on sb
  | E64 => flat_lookup_u64_on sb
  end.

Definition flat_store_at_u8_on (sb : Z) (arr : list Z) (len idx value : Z)
  : list Z :=
  for_up len
    (fun i arr =>
       let m := u8 (flat_mask_eq_sz_on sb i idx) in
       st arr i (u8 (Z.lor (Z.land value m) (Z.land (ld arr i) (u8 (Z.lnot m))))))
    arr.

Definition flat_store_at_u16_on (sb : Z) (arr : list Z) (len idx value : Z)
  : list Z :=
  for_up len
    (fun i arr =>
       let m := u16 (flat_mask_eq_sz_on sb i idx) in
       st arr i (u16 (Z.lor (Z.land value m) (Z.land (ld arr i) (u16 (Z.lnot m))))))
    arr.

Definition flat_store_at_u32_on (sb : Z) (arr : list Z) (len idx value : Z)
  : list Z :=
  for_up len
    (fun i arr =>
       let m := u32 (flat_mask_eq_sz_on sb i idx) in
       st arr i (Z.lor (Z.land value m) (Z.land (ld arr i) (u32 (Z.lnot m)))))
    arr.

Definition flat_store_at_u64_on (sb : Z) (arr : list Z) (len idx value : Z)
  : list Z :=
  for_up len
    (fun i arr =>
       let m := u64 (flat_mask_eq_sz_on sb i idx) in
       st arr i (Z.lor (Z.land value m) (Z.land (ld arr i) (u64 (Z.lnot m)))))
    arr.

Definition flat_store_at_W_on (sb : Z) (E : elem_width)
  : list Z -> Z -> Z -> Z -> list Z :=
  match E with
  | E8 => flat_store_at_u8_on sb | E16 => flat_store_at_u16_on sb
  | E32 => flat_store_at_u32_on sb | E64 => flat_store_at_u64_on sb
  end.

(** * Proofs *)

(** ** Facts about wrap-around and bitwise operations *)

Section WordFacts.
Variable w : Z.
Hypothesis w_pos : 0 < w.

Lemma pow2_pos : 0 < 2 ^ w.
Proof. apply Z.pow_pos_nonneg; lia. Qed.

Lemma pow2_half : 2 ^ w = 2 * 2 ^ (w - 1).
Proof. rewrite <- Z.pow_succ_r by lia. f_equal. lia. Qed.

Lemma wrap_word x : word w (wrap w x).
Proof. unfold word, wrap. apply Z.mod_pos_bound, pow2_pos. Qed.

Lemma wrap_small x : word w x -> wrap w x = x.
Proof. unfold word, wrap. intros. apply Z.mod_small; lia. Qed.

Lemma wrap_as_land x : wrap w x = Z.land x (Z.ones w).
Proof. unfold wrap. rewrite Z.land_ones by lia. reflexivity. Qed.

Lemma wrap_lor x y : wrap w (Z.lor x y) = Z.lor (wrap w x) (wrap w y).
Proof. rewrite !wrap_as_land. apply Z.land_lor_distr_l. Qed.

Lemma wrap_lxor x y : wrap w (Z.lxor x y) = Z.lxor (wrap w x) (wrap w y).
Proof.
  rewrite !wrap_as_land. apply Z.bits_inj'. intros n Hn.
  rewrite !Z.land_spec, !Z.lxor_spec, !Z.land_spec. btauto.
Qed.

Lemma wrap_land x y : wrap w (Z.land x y) = Z.land (wrap w x) (wrap w y).
Proof.
  rewrite !wrap_as_land. apply Z.bits_inj'. intros n Hn.
  rewrite !Z.land_spec. btauto.
Qed.

Lemma word_lor x y : word w x -> word w y -> word w (Z.lor x y).
Proof.
  intros Hx Hy. pose proof (wrap_word (Z.lor x y)) as H.
  rewrite wrap_lor, !wrap_small in H by assumption. exact H.
Qed.
End WordFacts.

Section SignBit.
Variable w : Z.
Hypothesis w_pos : 0 < w.

Lemma word_lxor x y : word w x -> word w y -> word w (Z.lxor x y).
Proof.
  intros Hx Hy. pose proof (wrap_word w w_pos (Z.lxor x y)) as H.
  rewrite wrap_lxor, !wrap_small in H by assumption. exact H.
Qed.

Lemma word_land x y : word w x -> word w y -> word w (Z.land x y).
Proof.
  intros Hx Hy. pose proof (wrap_word w w_pos (Z.land x y)) as H.
  rewrite wrap_land, !wrap_small in H by assumption. exact H.
Qed.

Lemma wrap_zero : wrap w 0 = 0.
Proof. unfold wrap. apply Z.mod_0_l. pose proof (pow2_pos w w_pos). lia. Qed.

Lemma wrap_one : wrap w 1 = 1.
Proof.
  apply wrap_small; trivial. unfold word.
  pose proof (pow2_half w w_pos). pose proof (pow2_pos w w_pos).
  assert (0 < 2 ^ (w - 1)) by (apply Z.pow_pos_nonneg; lia). lia.
Qed.

Lemma wrap_minus_one : wrap w (-1) = ALL_ONES w.
Proof.
  unfold wrap, ALL_ONES. pose proof (pow2_pos w w_pos).
  symmetry. apply Z.mod_unique with (q := -1); lia.
Qed.

Lemma wrap_neg x : word w x -> x <> 0 -> wrap w (0 - x) = 2 ^ w - x.
Proof.
  unfold wrap, word. intros Hx Hnz.
  symmetry. apply Z.mod_unique with (q := -1); lia.
Qed.

Lemma wrap_sub_ge a b : word w a -> word w b -> b <= a -> wrap w (a - b) = a - b.
Proof. unfold word. intros. apply wrap_small; trivial. unfold word. lia. Qed.

Lemma wrap_sub_lt a b :
  word w a -> word w b -> a < b -> wrap w (a - b) = 2 ^ w + a - b.
Proof.
  unfold wrap, word. intros. symmetry. apply Z.mod_unique with (q := -1); lia.
Qed.

Lemma wrap_lnot m : word w m -> wrap w (Z.lnot m) = ALL_ONES w - m.
Proof.
  unfold wrap, word, ALL_ONES, Z.lnot. intros.
  symmetry. apply Z.mod_unique with (q := -1); lia.
Qed.

Lemma land_all_ones x : word w x -> Z.land x (ALL_ONES w) = x.
Proof.
  intros Hx. unfold ALL_ONES.
  replace (2 ^ w - 1) with (Z.ones w) by (rewrite Z.ones_equiv; lia).
  rewrite Z.land_ones by lia. apply (wrap_small w x Hx).
Qed.

Lemma all_ones_word : word w (ALL_ONES w).
Proof. unfold word, ALL_ONES. pose proof (pow2_pos w w_pos). lia. Qed.

(** The shift by [w - 1] isolates the sign bit. *)
Lemma top_bit x :
  word w x -> Z.shiftr x (w - 1) = if 2 ^ (w - 1) <=? x then 1 else 0.
Proof.
  unfold word. intros Hx. rewrite Z.shiftr_div_pow2 by lia.
  pose proof (pow2_half w w_pos) as Hh.
  assert (0 < 2 ^ (w - 1)) by (apply Z.pow_pos_nonneg; lia).
  destruct (Z.leb_spec (2 ^ (w - 1)) x).
  - symmetry. apply Z.div_unique with (r := x - 2 ^ (w - 1)); lia.
  - apply Z.div_small; lia.
Qed.

Lemma testbit_top x :
  word w x -> Z.testbit x (w - 1) = (2 ^ (w - 1) <=? x).
Proof.
  intros Hx. rewrite Z.testbit_odd, (top_bit x Hx).
  destruct (2 ^ (w - 1) <=? x); reflexivity.
Qed.

Lemma top_bit_testbit x :
  word w x -> Z.shiftr x (w - 1) = Z.b2z (Z.testbit x (w - 1)).
Proof.
  intros Hx. rewrite (testbit_top x Hx), (top_bit x Hx).
  destruct (2 ^ (w - 1) <=? x); reflexivity.
Qed.

(** Sign bit of [x | -x]: set exactly when [x] is non-zero. *)
Lemma sign_of_nonzero x :
  word w x ->
  Z.shiftr (Z.lor x (wrap w (0 - x))) (w - 1) = if x =? 0 then 0 else 1.
Proof.
  intros Hx. pose proof (pow2_half w w_pos) as Hh.
  pose proof (wrap_word w w_pos (0 - x)) as Hn.
  rewrite top_bit_testbit by (apply word_lor; assumption).
  rewrite Z.lor_spec, !testbit_top by assumption.
  destruct (Z.eqb_spec x 0) as [-> | Hnz].
  - rewrite Z.sub_0_r, wrap_zero.
    assert (0 < 2 ^ (w - 1)) by (apply Z.pow_pos_nonneg; lia).
    destruct (Z.leb_spec (2 ^ (w - 1)) 0); [lia | reflexivity].
  - rewrite (wrap_neg x Hx Hnz). unfold word in Hx.
    destruct (Z.leb_spec (2 ^ (w - 1)) x); simpl; trivial.
    destruct (Z.leb_spec (2 ^ (w - 1)) (2 ^ w - x)); simpl; trivial. lia.
Qed.

(** Sign bit of [a ^ ((a ^ b) | ((a - b) ^ b))]: set exactly when
    [a < b] as unsigned words. *)
Lemma sign_of_lt a b :
  word w a -> word w b ->
  Z.shiftr (Z.lxor a (Z.lor (Z.lxor a b) (Z.lxor (wrap w (a - b)) b))) (w - 1)
  = if a <? b then 1 else 0.
Proof.
  intros Ha Hb. pose proof (pow2_half w w_pos) as Hh.
  pose proof (wrap_word w w_pos (a - b)) as Hd.
  rewrite top_bit_testbit
    by (repeat first [apply word_lxor | apply word_lor]; assumption).
  rewrite Z.lxor_spec, Z.lor_spec, !Z.lxor_spec, !testbit_top by assumption.
  destruct (Z.ltb_spec a b) as [Hlt | Hge].
  - rewrite (wrap_sub_lt a b Ha Hb Hlt). unfold word in Ha, Hb.
    destruct (Z.leb_spec (2 ^ (w - 1)) a), (Z.leb_spec (2 ^ (w - 1)) b),
      (Z.leb_spec (2 ^ (w - 1)) (2 ^ w + a - b)); simpl; trivial; lia.
  - rewrite (wrap_sub_ge a b Ha Hb Hge). unfold word in Ha, Hb.
    destruct (Z.leb_spec (2 ^ (w - 1)) a), (Z.leb_spec (2 ^ (w - 1)) b),
      (Z.leb_spec (2 ^ (w - 1)) (a - b)); simpl; trivial; lia.
Qed.
End SignBit.

Lemma wrap_wrap_le w w' x : 0 <= w <= w' -> wrap w (wrap w' x) = wrap w x.
Proof.
  intros H. unfold wrap. apply Z.mod_mod_divide.
  exists (2 ^ (w' - w)). rewrite <- Z.pow_add_r by lia. f_equal. lia.
Qed.

Lemma land_1_odd x : Z.land x 1 = Z.b2z (Z.odd x).
Proof.
  change 1 with (Z.ones 1). rewrite Z.land_ones by lia.
  rewrite <- Z.bit0_odd. symmetry. apply Z.bit0_mod.
Qed.

Ltac unfold_casts :=
  unfold u8, u16, u32, u64, usz, uint, SIZE_BITS in *.

Ltac word_tac :=
  repeat first
    [ assumption
    | apply wrap_word
    | apply word_lor
    | apply word_lxor
    | apply word_land
    | apply all_ones_word
    | lia ].

(** ** What the mask primitives compute *)

Section MaskShapes.
Variable w : Z.
Hypothesis w_pos : 0 < w.

Lemma mask_of_bool (b : bool) :
  wrap w (0 - Z.b2z b) = if b then ALL_ONES w else 0.
Proof.
  destruct b; simpl.
  - apply (wrap_minus_one w w_pos).
  - apply (wrap_zero w w_pos).
Qed.

Lemma from_bit_shape bit :
  wrap w (wrap w 0 - wrap w (Z.land bit 1))
  = if Z.odd bit then ALL_ONES w else 0.
Proof.
  rewrite land_1_odd, (wrap_zero w w_pos).
  rewrite <- mask_of_bool. f_equal. f_equal.
  destruct (Z.odd bit); simpl; [apply wrap_one | apply wrap_zero]; assumption.
Qed.

Lemma is_zero_shape x :
  word w x ->
  wrap w (Z.shiftr (Z.lor x (wrap w (0 - x))) (w - 1) - 1)
  = if x =? 0 then ALL_ONES w else 0.
Proof.
  intros Hx. rewrite (sign_of_nonzero w w_pos x Hx).
  destruct (x =? 0); simpl.
  - apply (wrap_minus_one w w_pos).
  - apply (wrap_zero w w_pos).
Qed.

Lemma lt_shape a b :
  word w a -> word w b ->
  wrap w (0 - Z.land (wrap w
    (Z.shiftr (Z.lxor a (Z.lor (Z.lxor a b) (Z.lxor (wrap w (a - b)) b)))
       (w - 1))) 1)
  = if a <? b then ALL_ONES w else 0.
Proof.
  intros Ha Hb. rewrite (sign_of_lt w w_pos a b Ha Hb).
  destruct (a <? b).
  - rewrite (wrap_one w w_pos). apply (wrap_minus_one w w_pos).
  - rewrite (wrap_zero w w_pos). apply (wrap_zero w w_pos).
Qed.

Lemma select_shape_ones yes no :
  word w yes -> word w no ->
  Z.lor (Z.land yes (ALL_ONES w)) (Z.land no (wrap w (Z.lnot (ALL_ONES w))))
  = yes.
Proof.
  intros Hy Hn. rewrite (wrap_lnot w) by (apply all_ones_word; assumption).
  rewrite Z.sub_diag, Z.land_0_r, Z.lor_0_r. apply land_all_ones; assumption.
Qed.

Lemma select_shape_zero yes no :
  word w yes -> word w no ->
  Z.lor (Z.land yes 0) (Z.land no (wrap w (Z.lnot 0))) = no.
Proof.
  intros Hy Hn. change (Z.lnot 0) with (-1).
  rewrite (wrap_minus_one w w_pos).
  rewrite Z.land_0_r, Z.lor_0_l. apply land_all_ones; assumption.
Qed.

Lemma select_shape (c : bool) yes no :
  word w yes -> word w no ->
  let m := if c then ALL_ONES w else 0 in
  Z.lor (Z.land yes m) (Z.land no (wrap w (Z.lnot m)))
  = if c then yes else no.
Proof.
  intros Hy Hn. destruct c; simpl.
  - apply select_shape_ones; assumption.
  - apply select_shape_zero; assumption.
Qed.
End MaskShapes.

(** *** [flat_mask_from_bit_W] *)

Lemma flat_mask_from_bit_u8_spec bit :
  flat_mask_from_bit_u8 bit = if Z.odd bit then ALL_ONES 8 else 0.
Proof. apply from_bit_shape. lia. Qed.

Lemma flat_mask_from_bit_u16_spec bit :
  flat_mask_from_bit_u16 bit = if Z.odd bit then ALL_ONES 16 else 0.
Proof. apply from_bit_shape. lia. Qed.

Lemma flat_mask_from_bit_u32_spec bit :
  flat_mask_from_bit_u32 bit = if Z.odd bit then ALL_ONES 32 else 0.
Proof. apply from_bit_shape. lia. Qed.

Lemma flat_mask_from_bit_u64_spec bit :
  flat_mask_from_bit_u64 bit = if Z.odd bit then ALL_ONES 64 else 0.
Proof. apply from_bit_shape. lia. Qed.

Lemma flat_mask_from_bit_sz_spec bit :
  flat_mask_from_bit_sz bit = if Z.odd bit then ALL_ONES SIZE_BITS else 0.
Proof. apply from_bit_shape. unfold SIZE_BITS. lia. Qed.

(** *** [flat_mask_is_zero_W] *)

Lemma flat_mask_is_zero_u8_spec x :
  word 8 x -> flat_mask_is_zero_u8 x = if x =? 0 then ALL_ONES 8 else 0.
Proof.
  intros Hx. unfold flat_mask_is_zero_u8. unfold_casts.
  rewrite !(wrap_wrap_le 8 32) by lia.
  rewrite (wrap_small 8 (Z.lor _ _)) by word_tac.
  apply (is_zero_shape 8); [lia | assumption].
Qed.

Lemma flat_mask_is_zero_u16_spec x :
  word 16 x -> flat_mask_is_zero_u16 x = if x =? 0 then ALL_ONES 16 else 0.
Proof.
  intros Hx. unfold flat_mask_is_zero_u16. unfold_casts.
  rewrite !(wrap_wrap_le 16 32) by lia.
  rewrite (wrap_small 16 (Z.lor _ _)) by word_tac.
  apply (is_zero_shape 16); [lia | assumption].
Qed.

Lemma flat_mask_is_zero_u32_spec x :
  word 32 x -> flat_mask_is_zero_u32 x = if x =? 0 then ALL_ONES 32 else 0.
Proof. intros Hx. apply (is_zero_shape 32); [lia | assumption]. Qed.

Lemma flat_mask_is_zero_u64_spec x :
  word 64 x -> flat_mask_is_zero_u64 x = if x =? 0 then ALL_ONES 64 else 0.
Proof. intros Hx. apply (is_zero_shape 64); [lia | assumption]. Qed.

Lemma flat_mask_is_zero_sz_spec x :
  word SIZE_BITS x ->
  flat_mask_is_zero_sz x = if x =? 0 then ALL_ONES SIZE_BITS else 0.
Proof.
  intros Hx. unfold flat_mask_is_zero_sz. unfold_casts.
  rewrite (wrap_zero 64) by lia. apply (is_zero_shape 64); [lia | assumption].
Qed.

(** *** [flat_mask_eq_W] *)

Lemma lxor_eqb a b : (Z.lxor a b =? 0) = (a =? b).
Proof.
  destruct (Z.eqb_spec a b) as [-> | Hne].
  - rewrite Z.lxor_nilpotent. reflexivity.
  - apply Z.eqb_neq. rewrite Z.lxor_eq_0_iff. exact Hne.
Qed.

Lemma flat_mask_eq_u8_spec a b :
  word 8 a -> word 8 b ->
  flat_mask_eq_u8 a b = if a =? b then ALL_ONES 8 else 0.
Proof.
  intros Ha Hb. unfold flat_mask_eq_u8, u8.
  rewrite (wrap_small 8 (Z.lxor a b)) by word_tac.
  rewrite flat_mask_is_zero_u8_spec by word_tac. now rewrite lxor_eqb.
Qed.

Lemma flat_mask_eq_u16_spec a b :
  word 16 a -> word 16 b ->
  flat_mask_eq_u16 a b = if a =? b then ALL_ONES 16 else 0.
Proof.
  intros Ha Hb. unfold flat_mask_eq_u16, u16.
  rewrite (wrap_small 16 (Z.lxor a b)) by word_tac.
  rewrite flat_mask_is_zero_u16_spec by word_tac. now rewrite lxor_eqb.
Qed.

Lemma flat_mask_eq_u32_spec a b :
  word 32 a -> word 32 b ->
  flat_mask_eq_u32 a b = if a =? b then ALL_ONES 32 else 0.
Proof.
  intros Ha Hb. unfold flat_mask_eq_u32, u32.
  rewrite (wrap_small 32 (Z.lxor a b)) by word_tac.
  rewrite flat_mask_is_zero_u32_spec by word_tac. now rewrite lxor_eqb.
Qed.

Lemma flat_mask_eq_u64_spec a b :
  word 64 a -> word 64 b ->
  flat_mask_eq_u64 a b = if a =? b then ALL_ONES 64 else 0.
Proof.
  intros Ha Hb. unfold flat_mask_eq_u64, u64.
  rewrite (wrap_small 64 (Z.lxor a b)) by word_tac.
  rewrite flat_mask_is_zero_u64_spec by word_tac. now rewrite lxor_eqb.
Qed.

Lemma flat_mask_eq_sz_spec a b :
  word SIZE_BITS a -> word SIZE_BITS b ->
  flat_mask_eq_sz a b = if a =? b then ALL_ONES SIZE_BITS else 0.
Proof.
  intros Ha Hb. unfold flat_mask_eq_sz, usz.
  rewrite (wrap_small SIZE_BITS (Z.lxor a b)) by (unfold SIZE_BITS in *; word_tac).
  rewrite flat_mask_is_zero_sz_spec by (unfold SIZE_BITS in *; word_tac).
  now rewrite lxor_eqb.
Qed.

(** *** [flat_mask_lt_W] *)

Lemma flat_mask_lt_u8_spec a b :
  word 8 a -> word 8 b ->
  flat_mask_lt_u8 a b = if a <? b then ALL_ONES 8 else 0.
Proof.
  intros Ha Hb. unfold flat_mask_lt_u8. unfold_casts.
  rewrite (wrap_small 8 (Z.lxor a b)) by word_tac.
  rewrite (wrap_lxor 8 ltac:(lia) (a - b) b), (wrap_small 8 b Hb).
  rewrite (wrap_wrap_le 8 32) by lia.
  apply (lt_shape 8); [lia | assumption | assumption].
Qed.

Lemma flat_mask_lt_u16_spec a b :
  word 16 a -> word 16 b ->
  flat_mask_lt_u16 a b = if a <? b then ALL_ONES 16 else 0.
Proof.
  intros Ha Hb. unfold flat_mask_lt_u16. unfold_casts.
  rewrite (wrap_small 16 (Z.lxor a b)) by word_tac.
  rewrite (wrap_lxor 16 ltac:(lia) (a - b) b), (wrap_small 16 b Hb).
  rewrite (wrap_wrap_le 16 32) by lia.
  apply (lt_shape 16); [lia | assumption | assumption].
Qed.

Lemma flat_mask_lt_u32_spec a b :
  word 32 a -> word 32 b ->
  flat_mask_lt_u32 a b = if a <? b then ALL_ONES 32 else 0.
Proof.
  intros Ha Hb. unfold flat_mask_lt_u32. unfold_casts.
  rewrite (wrap_wrap_le 32 32) by lia.
  apply (lt_shape 32); [lia | assumption | assumption].
Qed.

Lemma flat_mask_lt_u64_spec a b :
  word 64 a -> word 64 b ->
  flat_mask_lt_u64 a b = if a <? b then ALL_ONES 64 else 0.
Proof.
  intros Ha Hb. unfold flat_mask_lt_u64. unfold_casts.
  rewrite (wrap_wrap_le 64 64) by lia.
  apply (lt_shape 64); [lia | assumption | assumption].
Qed.

Lemma flat_mask_lt_sz_spec a b :
  word SIZE_BITS a -> word SIZE_BITS b ->
  flat_mask_lt_sz a b = if a <? b then ALL_ONES SIZE_BITS else 0.
Proof.
  intros Ha Hb. unfold flat_mask_lt_sz. unfold_casts.
  change (wrap 32 (64 - 1)) with (64 - 1).
  change (wrap 64 0) with 0. change (wrap 64 1) with 1.
  apply (lt_shape 64); [lia | assumption | assumption].
Qed.

(** *** [flat_select_W] *)

Lemma flat_select_u8_spec cond yes no :
  word 8 yes -> word 8 no ->
  flat_select_u8 cond yes no = if Z.odd cond then yes else no.
Proof.
  intros Hy Hn. unfold flat_select_u8, flat_select_u8_mask.
  rewrite flat_mask_from_bit_u8_spec. unfold u8.
  rewrite (select_shape 8 ltac:(lia) (Z.odd cond) yes no Hy Hn).
  apply wrap_small. destruct (Z.odd cond); assumption.
Qed.

Lemma flat_select_u16_spec cond yes no :
  word 16 yes -> word 16 no ->
  flat_select_u16 cond yes no = if Z.odd cond then yes else no.
Proof.
  intros Hy Hn. unfold flat_select_u16, flat_select_u16_mask.
  rewrite flat_mask_from_bit_u16_spec. unfold u16.
  rewrite (select_shape 16 ltac:(lia) (Z.odd cond) yes no Hy Hn).
  apply wrap_small. destruct (Z.odd cond); assumption.
Qed.

Lemma flat_select_u32_spec cond yes no :
  word 32 yes -> word 32 no ->
  flat_select_u32 cond yes no = if Z.odd cond then yes else no.
Proof.
  intros Hy Hn. unfold flat_select_u32, flat_select_u32_mask.
  rewrite flat_mask_from_bit_u32_spec.
  apply (select_shape 32 ltac:(lia) (Z.odd cond) yes no Hy Hn).
Qed.

Lemma flat_select_u64_spec cond yes no :
  word 64 yes -> word 64 no ->
  flat_select_u64 cond yes no = if Z.odd cond then yes else no.
Proof.
  intros Hy Hn. unfold flat_select_u64, flat_select_u64_mask.
  rewrite flat_mask_from_bit_u64_spec.
  apply (select_shape 64 ltac:(lia) (Z.odd cond) yes no Hy Hn).
Qed.

Lemma flat_select_sz_spec cond yes no :
  word SIZE_BITS yes -> word SIZE_BITS no ->
  flat_select_sz cond yes no = if Z.odd cond then yes else no.
Proof.
  intros Hy Hn. unfold flat_select_sz, flat_select_sz_mask.
  rewrite flat_mask_from_bit_sz_spec.
  apply (select_shape SIZE_BITS ltac:(unfold SIZE_BITS; lia) (Z.odd cond) yes no Hy Hn).
Qed.

(** ** Loop invariants *)

Lemma for_up_nil {St : Type} n (body : Z -> St -> St) s :
  n <= 0 -> for_up n body s = s.
Proof. intros Hn. unfold for_up. rewrite seqZ_nil by lia. reflexivity. Qed.

Lemma for_up_succ {St : Type} n (body : Z -> St -> St) s :
  0 <= n -> for_up (n + 1) body s = body n (for_up n body s).
Proof.
  intros Hn. unfold for_up. rewrite seqZ_app by lia.
  rewrite fold_left_app.
  rewrite (seqZ_cons _ 1), (seqZ_nil _ (Z.pred 1)) by lia. reflexivity.
Qed.

Lemma for_up_ind {St : Type} (Inv : Z -> St -> Prop) n (body : Z -> St -> St) s0 :
  0 <= n ->
  Inv 0 s0 ->
  (forall i s, 0 <= i < n -> Inv i s -> Inv (i + 1) (body i s)) ->
  Inv n (for_up n body s0).
Proof.
  intros Hn H0 Hstep.
  assert (forall k : nat, Z.of_nat k <= n ->
            Inv (Z.of_nat k) (for_up (Z.of_nat k) body s0)) as Hk.
  { induction k as [| k IH]; intros Hle.
    - rewrite for_up_nil by reflexivity. exact H0.
    - rewrite Nat2Z.inj_succ, <- Z.add_1_r in *.
      rewrite for_up_succ by lia. apply Hstep; [lia | apply IH; lia]. }
  specialize (Hk (Z.to_nat n)). rewrite Z2Nat.id in Hk by lia. apply Hk. lia.
Qed.

Lemma for_down_nil {St : Type} hi lo (body : Z -> St -> St) s :
  hi < lo -> for_down hi lo body s = s.
Proof. intros H. unfold for_down. rewrite seqZ_nil by lia. reflexivity. Qed.

Lemma for_down_first {St : Type} hi lo (body : Z -> St -> St) s :
  lo <= hi -> for_down hi lo body s = for_down (hi - 1) lo body (body hi s).
Proof.
  intros H. unfold for_down.
  replace (hi - lo + 1) with ((hi - 1 - lo + 1) + 1) by lia.
  rewrite seqZ_app by lia.
  rewrite (seqZ_cons _ 1), (seqZ_nil _ (Z.pred 1)) by lia.
  rewrite reverse_app. simpl. f_equal. f_equal. lia.
Qed.

Lemma for_down_ind {St : Type} (Inv : Z -> St -> Prop) hi lo
    (body : Z -> St -> St) s0 :
  lo - 1 <= hi ->
  Inv hi s0 ->
  (forall i s, lo <= i <= hi -> Inv i s -> Inv (i - 1) (body i s)) ->
  Inv (lo - 1) (for_down hi lo body s0).
Proof.
  intros Hle H0 Hstep.
  assert (forall (k : nat) s, lo - 1 + Z.of_nat k <= hi ->
            Inv (lo - 1 + Z.of_nat k) s ->
            Inv (lo - 1) (for_down (lo - 1 + Z.of_nat k) lo body s)) as Hk.
  { induction k as [| k IH]; intros s Hb Hs.
    - rewrite for_down_nil by lia. now rewrite Z.add_0_r in Hs.
    - rewrite for_down_first by lia.
      replace (lo - 1 + Z.of_nat (S k) - 1) with (lo - 1 + Z.of_nat k) by lia.
      apply IH; [lia |].
      replace (lo - 1 + Z.of_nat k) with (lo - 1 + Z.of_nat (S k) - 1) by lia.
      apply Hstep; [lia | exact Hs]. }
  specialize (Hk (Z.to_nat (hi - (lo - 1))) s0).
  replace (lo - 1 + Z.of_nat (Z.to_nat (hi - (lo - 1)))) with hi in Hk by lia.
  apply Hk; [lia | exact H0].
Qed.

(** ** Select (C5) and unsigned less-than (C6) *)

Lemma flat_select_W_spec W cond x y :
  word (bits W) x -> word (bits W) y ->
  flat_select_W W cond x y = if Z.odd cond then x else y.
Proof.
  destruct W; simpl.
  - apply flat_select_u8_spec.
  - apply flat_select_u16_spec.
  - apply flat_select_u32_spec.
  - apply flat_select_u64_spec.
  - apply flat_select_sz_spec.
Qed.

Lemma flat_mask_lt_W_spec W a b :
  word (bits W) a -> word (bits W) b ->
  flat_mask_lt_W W a b = if a <? b then ALL_ONES (bits W) else 0.
Proof.
  destruct W; simpl.
  - apply flat_mask_lt_u8_spec.
  - apply flat_mask_lt_u16_spec.
  - apply flat_mask_lt_u32_spec.
  - apply flat_mask_lt_u64_spec.
  - apply flat_mask_lt_sz_spec.
Qed.

Lemma land_1_cases x : Z.land x 1 = 0 \/ Z.land x 1 = 1.
Proof. rewrite land_1_odd. destruct (Z.odd x); auto. Qed.

(** C5.  For every integer [cond] and all words [x], [y] of a supported
    width, [flat_select_W(cond, x, y)] is [x] when [cond & 1] is 1 and [y]
    when [cond & 1] is 0; two conditions with the same low bit give the
    same result. *)
Theorem flat_select_low_bit (W : width) (cond x y : Z) :
  word (bits W) x -> word (bits W) y ->
  flat_select_W W cond x y = (if Z.land cond 1 =? 1 then x else y)
  /\ (forall cond', Z.land cond' 1 = Z.land cond 1 ->
        flat_select_W W cond' x y = flat_select_W W cond x y).
Proof.
  intros Hx Hy. split.
  - rewrite flat_select_W_spec by assumption.
    rewrite land_1_odd. destruct (Z.odd cond); reflexivity.
  - intros cond' Hlow. rewrite !flat_select_W_spec by assumption.
    rewrite !land_1_odd in Hlow.
    destruct (Z.odd cond'), (Z.odd cond); simpl in Hlow; congruence.
Qed.

Lemma flat_select_low_bit_witness :
  flat_select_W W32 4294967294 7 9 = 9.
Proof.
  refine (proj1 (flat_select_low_bit W32 4294967294 7 9 _ _));
    unfold word, bits; lia.
Defined.

(** C6.  For all unsigned words [a], [b] of a supported width,
    [flat_mask_lt_W(a, b)] is 0 or the all-ones word of that width, and
    its low bit, also as extracted by [flat_mask_to_bit_u32], is 1 exactly
    when [a < b] and 0 otherwise. *)
Theorem flat_mask_lt_full_mask (W : width) (a b : Z) :
  word (bits W) a -> word (bits W) b ->
  (flat_mask_lt_W W a b = 0 \/ flat_mask_lt_W W a b = ALL_ONES (bits W))
  /\ Z.land (flat_mask_lt_W W a b) 1 = (if a <? b then 1 else 0)
  /\ flat_mask_to_bit_u32 (u32 (flat_mask_lt_W W a b)) = (if a <? b then 1 else 0).
Proof.
  intros Ha Hb. rewrite flat_mask_lt_W_spec by assumption.
  destruct (a <? b).
  - split; [right; reflexivity |]. destruct W; vm_compute; auto.
  - split; [left; reflexivity |]. vm_compute; auto.
Qed.

Lemma flat_mask_lt_full_mask_witness :
  Z.land (flat_mask_lt_W W64 5 18446744073709551615) 1 = 1.
Proof.
  refine (proj1 (proj2
            (flat_mask_lt_full_mask W64 5 18446744073709551615 _ _)));
    unfold word, bits; lia.
Defined.

(** ** Error accumulator (C4) *)

Lemma flat_erracc_or_acc e c :
  acc e = 0 \/ acc e = 1 ->
  acc (flat_erracc_or e c)
  = if (acc e =? 0) && (Z.land c 1 =? 0) then 0 else 1.
Proof.
  intros He. unfold flat_erracc_or. simpl.
  destruct He as [-> | ->], (land_1_cases c) as [-> | ->]; reflexivity.
Qed.

Lemma erracc_fold_acc conds : forall e,
  acc e = 0 \/ acc e = 1 ->
  acc (fold_left flat_erracc_or conds e)
  = if (acc e =? 0) && forallb (fun c => Z.land c 1 =? 0) conds then 0 else 1.
Proof.
  induction conds as [| c conds IH]; intros e He; simpl.
  - destruct He as [-> | ->]; reflexivity.
  - rewrite IH, flat_erracc_or_acc by
      (try rewrite flat_erracc_or_acc by assumption;
       try destruct (_ && _); auto).
    destruct (acc e =? 0), (Z.land c 1 =? 0); reflexivity.
Qed.

Lemma flat_erracc_ok_cases e :
  acc e = 0 \/ acc e = 1 ->
  flat_erracc_ok e = if acc e =? 0 then 1 else 0.
Proof. unfold flat_erracc_ok. intros [-> | ->]; reflexivity. Qed.

Lemma erracc_feed_ok e conds :
  flat_erracc_ok (erracc_feed e conds)
  = if forallb (fun c => Z.land c 1 =? 0) conds then 1 else 0.
Proof.
  unfold erracc_feed.
  rewrite flat_erracc_ok_cases, erracc_fold_acc
    by (try rewrite erracc_fold_acc by (left; reflexivity);
        try destruct (_ && _); auto).
  change (acc (flat_erracc_init e) =? 0) with true. simpl.
  destruct (forallb _ conds); reflexivity.
Qed.

(** C4, as amended.  After [flat_erracc_init] and one [flat_erracc_or] per
    condition, [flat_erracc_ok] returns 1 if and only if every condition
    had its low bit clear; it returns 0 otherwise.  Only the low bit of a
    condition is accumulated. *)
Theorem flat_erracc_ok_iff_low_bits_clear (e : flat_erracc_t) (conds : list Z) :
  (flat_erracc_ok (erracc_feed e conds) = 1
   <-> Forall (fun c => Z.land c 1 = 0) conds)
  /\ (flat_erracc_ok (erracc_feed e conds) = 0
      \/ flat_erracc_ok (erracc_feed e conds) = 1).
Proof.
  rewrite erracc_feed_ok.
  destruct (forallb (fun c => Z.land c 1 =? 0) conds) eqn:Hall.
  - split; [| right; reflexivity]. split; [intros _ | reflexivity].
    rewrite forallb_forall in Hall. apply List.Forall_forall.
    intros c Hc. apply Z.eqb_eq, Hall, Hc.
  - split; [| left; reflexivity]. split; [discriminate |].
    intros HF. exfalso.
    assert (forallb (fun c => Z.land c 1 =? 0) conds = true) as Ht.
    { apply forallb_forall. intros c Hc. apply Z.eqb_eq.
      rewrite List.Forall_forall in HF. apply HF, Hc. }
    congruence.
Qed.

(** C4 as stated fails: the non-zero condition 2 is not accumulated, so
    the accumulator still reports success. *)
Lemma flat_erracc_ignores_high_bits :
  ~ (flat_erracc_ok (erracc_feed (ErrAcc 0) [2]) = 1
     <-> Forall (fun c => c = 0) [2]).
Proof.
  intros [H _]. specialize (H eq_refl). inversion H; subst. discriminate.
Qed.

(** ** Index clamp and masked load (C10) *)




(** ** Buffers *)

Lemma ld_lookup buf i x :
  0 <= i -> buf !! Z.to_nat i = Some x -> ld buf i = x.
Proof. intros _ H. unfold ld. rewrite H. reflexivity. Qed.

Lemma ld_word w buf i : 0 <= w -> words w buf -> word w (ld buf i).
Proof.
  intros Hw Hb. unfold ld.
  destruct (buf !! Z.to_nat i) as [x |] eqn:Hx; simpl.
  - unfold words in Hb. rewrite Forall_lookup in Hb. exact (Hb _ _ Hx).
  - unfold word. assert (0 < 2 ^ w) by (apply Z.pow_pos_nonneg; lia). lia.
Qed.

Lemma ld_cons x buf i : 0 < i -> ld (x :: buf) i = ld buf (i - 1).
Proof.
  intros Hi. unfold ld.
  replace (Z.to_nat i) with (Datatypes.S (Z.to_nat (i - 1))) by lia. reflexivity.
Qed.

(** ** Conditional copy (C7) *)

Lemma memcpy_byte_select cond s d :
  word 8 s -> word 8 d ->
  let m := flat_mask_from_bit_u8 cond in
  u8 (Z.lor (Z.land s m) (Z.land d (u8 (Z.lnot m))))
  = if Z.odd cond then s else d.
Proof.
  intros Hs Hd. exact (flat_select_u8_spec cond s d Hs Hd).
Qed.

Lemma flat_memcpy_when_spec cond dst src len :
  words 8 dst -> words 8 src ->
  0 <= len <= Z.of_nat (length dst) -> len <= Z.of_nat (length src) ->
  flat_memcpy_when cond dst src len
  = if Z.odd cond
    then take (Z.to_nat len) src ++ drop (Z.to_nat len) dst
    else dst.
Proof.
  intros Hd Hs Hld Hls. unfold flat_memcpy_when.
  apply (for_up_ind
           (fun i d => d = if Z.odd cond
                           then take (Z.to_nat i) src ++ drop (Z.to_nat i) dst
                           else dst)); [lia | |].
  - simpl. destruct (Z.odd cond); reflexivity.
  - intros i d Hi ->.
    destruct (lookup_lt_is_Some_2 src (Z.to_nat i)) as [x Hx]; [lia |].
    destruct (lookup_lt_is_Some_2 dst (Z.to_nat i)) as [y Hy]; [lia |].
    assert (word 8 x) as Hwx
      by (unfold words in Hs; rewrite Forall_lookup in Hs; exact (Hs _ _ Hx)).
    assert (word 8 y) as Hwy
      by (unfold words in Hd; rewrite Forall_lookup in Hd; exact (Hd _ _ Hy)).
    rewrite (ld_lookup src i x) by (lia || assumption).
    replace (Z.to_nat (i + 1)) with (Datatypes.S (Z.to_nat i)) by lia.
    destruct (Z.odd cond) eqn:Hodd.
    + assert (length (take (Z.to_nat i) src) = Z.to_nat i) as Hlt
        by (rewrite length_take; lia).
      assert ((take (Z.to_nat i) src ++ drop (Z.to_nat i) dst) !! Z.to_nat i
              = Some y) as Hcur.
      { rewrite lookup_app_r by lia. rewrite Hlt, Nat.sub_diag.
        rewrite lookup_drop, Nat.add_0_r. exact Hy. }
      rewrite (ld_lookup _ i y) by (lia || assumption).
      rewrite memcpy_byte_select, Hodd by assumption.
      unfold st. rewrite insert_app_r_alt by lia.
      rewrite Hlt, Nat.sub_diag.
      rewrite (drop_S dst y (Z.to_nat i) Hy). simpl.
      rewrite (take_S_r src (Z.to_nat i) x Hx), <- app_assoc. reflexivity.
    + rewrite (ld_lookup dst i y) by (lia || assumption).
      rewrite memcpy_byte_select, Hodd by assumption.
      unfold st. apply list_insert_id. exact Hy.
Qed.

(** C7.  For buffers [dst] and [src] of [n] bytes,
    [flat_memcpy_when(1, dst, src, n)] leaves [dst] equal to [src] and
    [flat_memcpy_when(0, dst, src, n)] leaves [dst] as it was; so
    [flat_commit_if_ok(ok, dst, tmp, n)] copies [tmp] into [dst] for
    [ok = 1] and leaves [dst] unchanged for [ok = 0]. *)
Theorem flat_memcpy_when_copies_or_keeps (dst src : list Z) (n : Z) :
  words 8 dst -> words 8 src ->
  Z.of_nat (length dst) = n -> Z.of_nat (length src) = n ->
  flat_memcpy_when 1 dst src n = src
  /\ flat_memcpy_when 0 dst src n = dst
  /\ flat_commit_if_ok 1 dst src n = src
  /\ flat_commit_if_ok 0 dst src n = dst.
Proof.
  intros Hd Hs Hld Hls. unfold flat_commit_if_ok.
  rewrite !flat_memcpy_when_spec by (assumption || lia). simpl.
  assert (take (Z.to_nat n) src ++ drop (Z.to_nat n) dst = src) as ->.
  { rewrite take_ge, drop_ge by lia. apply app_nil_r. }
  auto.
Qed.

Lemma flat_memcpy_when_copies_or_keeps_witness :
  flat_memcpy_when 1 [1; 1; 1] [9; 8; 255] 3 = [9; 8; 255]
  /\ flat_memcpy_when 0 [1; 1; 1] [9; 8; 255] 3 = [1; 1; 1].
Proof.
  assert (words 8 [1; 1; 1]) as Hd
    by (repeat constructor; unfold word; lia).
  assert (words 8 [9; 8; 255]) as Hs
    by (repeat constructor; unfold word; lia).
  pose proof (flat_memcpy_when_copies_or_keeps [1; 1; 1] [9; 8; 255] 3
                Hd Hs eq_refl eq_refl) as (H1 & H0 & _).
  exact (conj H1 H0).
Defined.

(** ** Lookup *)

Section LookupShape.
Variable w : Z.
Hypothesis w_range : 0 < w <= SIZE_BITS.

Lemma wrap_all_ones_sz : wrap w (ALL_ONES SIZE_BITS) = ALL_ONES w.
Proof.
  rewrite <- (wrap_minus_one w) by lia.
  rewrite <- (wrap_minus_one SIZE_BITS) by (unfold SIZE_BITS; lia).
  apply wrap_wrap_le. lia.
Qed.

Lemma lookup_step_spec arr idx i out :
  words w arr -> word w out -> word SIZE_BITS i -> word SIZE_BITS idx ->
  lookup_step w arr idx i out = if i =? idx then ld arr i else out.
Proof.
  intros Ha Ho Hi Hidx. unfold lookup_step.
  rewrite flat_mask_eq_sz_spec by assumption.
  assert (wrap w (if i =? idx then ALL_ONES SIZE_BITS else 0)
          = if i =? idx then ALL_ONES w else 0) as ->.
  { destruct (i =? idx); [apply wrap_all_ones_sz | apply wrap_zero; lia]. }
  apply (select_shape w ltac:(lia) (i =? idx)); [| assumption].
  apply ld_word; [lia | assumption].
Qed.

Lemma lookup_sweep_spec (outer : Z -> Z) arr len idx :
  (forall x, word w x -> outer x = x) ->
  words w arr -> word SIZE_BITS len -> word SIZE_BITS idx ->
  for_up len (fun i out => outer (lookup_step w arr idx i out)) (wrap w 0)
  = if idx <? len then ld arr idx else 0.
Proof.
  intros Houter Ha Hl Hidx. unfold word in Hl, Hidx.
  apply (for_up_ind (fun i out => out = if idx <? i then ld arr idx else 0));
    [lia | |].
  - rewrite wrap_zero by lia. destruct (Z.ltb_spec idx 0); [lia | reflexivity].
  - intros i out Hi ->.
    assert (word w (if idx <? i then ld arr idx else 0)) as Hout.
    { destruct (idx <? i); [apply ld_word; [lia | assumption] |].
      unfold word. pose proof (pow2_pos w ltac:(lia)). lia. }
    rewrite lookup_step_spec by (try assumption; unfold word; lia).
    destruct (Z.eqb_spec i idx) as [-> | Hne].
    + destruct (Z.ltb_spec idx (idx + 1)); [| lia].
      apply Houter, ld_word; [lia | assumption].
    + rewrite (Houter _ Hout).
      destruct (Z.ltb_spec idx i), (Z.ltb_spec idx (i + 1)); trivial; lia.
Qed.
End LookupShape.

Lemma flat_lookup_W_spec E arr len idx :
  words (elem_bits E) arr -> word SIZE_BITS len -> word SIZE_BITS idx ->
  flat_lookup_W E arr len idx = if idx <? len then ld arr idx else 0.
Proof.
  intros Ha Hl Hi. destruct E; simpl in *.
  - apply (lookup_sweep_spec 8 ltac:(unfold SIZE_BITS; lia) (wrap 8));
      try assumption. intros x Hx. apply wrap_small; assumption.
  - apply (lookup_sweep_spec 16 ltac:(unfold SIZE_BITS; lia) (wrap 16));
      try assumption. intros x Hx. apply wrap_small; assumption.
  - apply (lookup_sweep_spec 32 ltac:(unfold SIZE_BITS; lia) (fun x => x));
      try assumption. reflexivity.
  - apply (lookup_sweep_spec 64 ltac:(unfold SIZE_BITS; lia) (fun x => x));
      try assumption. reflexivity.
Qed.

(** Where [size_t] has 64 bits: for an array [arr] of [len] elements of
    width 8, 16, 32 or 64 and every index [idx],
    [flat_lookup_W(arr, len, idx)] is [arr[idx]] when [idx < len] and 0
    when [idx >= len]. *)
Lemma flat_lookup_in_range_or_zero (E : elem_width) (arr : list Z) (len idx : Z) :
  words (elem_bits E) arr ->
  Z.of_nat (length arr) = len ->
  word SIZE_BITS len -> word SIZE_BITS idx ->
  (idx < len -> arr !! Z.to_nat idx = Some (flat_lookup_W E arr len idx))
  /\ (len <= idx -> flat_lookup_W E arr len idx = 0).
Proof.
  intros Ha Hlen Hl Hi. rewrite flat_lookup_W_spec by assumption.
  unfold word in Hi. split; intros Hcmp.
  - destruct (Z.ltb_spec idx len); [| lia].
    destruct (lookup_lt_is_Some_2 arr (Z.to_nat idx)) as [x Hx]; [lia |].
    unfold ld. rewrite Hx. reflexivity.
  - destruct (Z.ltb_spec idx len); [lia | reflexivity].
Qed.

Lemma flat_lookup_in_range_or_zero_witness :
  [5; 18446744073709551615; 7] !! 1%nat
  = Some (flat_lookup_W E64 [5; 18446744073709551615; 7] 3 1)
  /\ flat_lookup_W E8 [5; 6; 7] 3 3 = 0.
Proof.
  assert (words (elem_bits E64) [5; 18446744073709551615; 7]) as H64
    by (repeat constructor; unfold word; simpl; lia).
  assert (words (elem_bits E8) [5; 6; 7]) as H8
    by (repeat constructor; unfold word; simpl; lia).
  assert (word SIZE_BITS 3 /\ word SIZE_BITS 1) as [W3 W1]
    by (unfold word, SIZE_BITS; lia).
  split.
  - exact (proj1 (flat_lookup_in_range_or_zero E64 _ 3 1 H64 eq_refl W3 W1)
             eq_refl).
  - refine (proj2 (flat_lookup_in_range_or_zero E8 _ 3 3 H8 eq_refl W3 W3) _).
    lia.
Defined.

(** *** The 64-bit lookup where [size_t] has 32 bits *)

Lemma flat_lookup_W_on_size64 E arr len idx :
  flat_lookup_W_on SIZE_BITS E arr len idx = flat_lookup_W E arr len idx.
Proof. destruct E; reflexivity. Qed.

(** C8.  Where [size_t] has 32 bits, [flat_lookup_u64] does not return
    [arr[idx]] for an index in range: the mask of [flat_mask_eq_sz] is 32
    bits wide, so only the low half of the element is selected.  On the
    one-element array [0xFFFFFFFF00000000] with [len = 1] and [idx = 0] it
    returns 0. *)
Theorem flat_lookup_u64_size32_loses_high_half :
  let arr := [0xFFFFFFFF00000000] in
  words 64 arr
  /\ Z.of_nat (length arr) = 1
  /\ word 32 1 /\ word 32 0
  /\ arr !! 0%nat = Some 0xFFFFFFFF00000000
  /\ flat_lookup_W_on 32 E64 arr 1 0 = 0.
Proof.
  cbv zeta. split; [| split; [| split; [| split; [| split]]]].
  - repeat constructor; unfold word; lia.
  - reflexivity.
  - unfold word. lia.
  - unfold word. lia.
  - reflexivity.
  - reflexivity.
Qed.

(** ** Zero-padding scan (C9) *)

(** One iteration of the scan in [flat_zeropad_data_len]. *)
Lemma zeropad_step_spec x i data_len seen :
  word 8 x -> word SIZE_BITS i -> word SIZE_BITS data_len ->
  seen = 0 \/ seen = 1 ->
  let nz_mask := u8 (Z.lnot (flat_mask_is_zero_u8 x)) in
  let nz_bit := usz (Z.land nz_mask 1) in
  let trigger := Z.land nz_bit (usz (Z.lnot seen)) in
  (flat_select_sz (uint trigger) i data_len, Z.lor seen nz_bit)
  = if x =? 0 then (data_len, seen)
    else (if seen =? 0 then i else data_len, 1).
Proof.
  intros Hx Hi Hd Hs. cbv zeta.
  rewrite flat_mask_is_zero_u8_spec, flat_select_sz_spec by assumption.
  destruct (x =? 0), Hs as [-> | ->]; reflexivity.
Qed.

Lemma flat_zeropad_data_len_inv buf len :
  words 8 buf -> word SIZE_BITS len ->
  let r := for_down len 1
             (fun i '(data_len, seen) =>
                let x := ld buf (i - 1) in
                let nz_mask := u8 (Z.lnot (flat_mask_is_zero_u8 x)) in
                let nz_bit := usz (Z.land nz_mask 1) in
                let trigger := Z.land nz_bit (usz (Z.lnot seen)) in
                (flat_select_sz (uint trigger) i data_len, Z.lor seen nz_bit))
             (0, 0) in
  (snd r = 0 /\ fst r = 0 /\ forall j, 0 <= j < len -> ld buf j = 0)
  \/ (snd r = 1 /\ exists p, 0 <= p < len /\ ld buf p <> 0
        /\ (forall j, p < j < len -> ld buf j = 0) /\ fst r = p + 1).
Proof.
  intros Hb Hl. unfold word in Hl.
  apply (for_down_ind
           (fun i (s : Z * Z) =>
              (snd s = 0 /\ fst s = 0 /\ forall j, i <= j < len -> ld buf j = 0)
              \/ (snd s = 1 /\ exists p, i <= p < len /\ ld buf p <> 0
                    /\ (forall j, p < j < len -> ld buf j = 0)
                    /\ fst s = p + 1))
           len 1); [lia | |].
  - left. simpl. repeat split; trivial. intros j Hj. lia.
  - intros i [data_len seen] Hi Hinv. simpl in Hinv.
    assert (word SIZE_BITS data_len /\ (seen = 0 \/ seen = 1)) as [Hd Hs].
    { unfold word. destruct Hinv as [(-> & -> & _) | (-> & p & Hp & _ & _ & ->)];
        unfold SIZE_BITS in *; split; auto; lia. }
    rewrite zeropad_step_spec;
      [| apply ld_word; [lia | assumption] | unfold word; lia | assumption
       | assumption].
    destruct (Z.eqb_spec (ld buf (i - 1)) 0) as [Hz | Hnz]; simpl.
    + destruct Hinv as [(-> & -> & Hall) | (-> & p & Hp & Hpnz & Hafter & ->)].
      * left. repeat split; trivial. intros j Hj.
        destruct (Z.eq_dec j (i - 1)) as [-> | Hne]; [exact Hz | apply Hall; lia].
      * right. split; trivial. exists p. repeat split; trivial; lia.
    + destruct Hinv as [(-> & -> & Hall) | (-> & p & Hp & Hpnz & Hafter & ->)];
        simpl.
      * right. split; trivial. exists (i - 1).
        repeat split; trivial; try lia. intros j Hj. apply Hall. lia.
      * right. split; trivial. exists p. repeat split; trivial; lia.
Qed.

(** C9.  For every byte buffer [buf] of length [n],
    [flat_zeropad_data_len(buf, n)] is 1 plus the largest index holding a
    non-zero byte, and 0 when every byte is zero (in particular when
    [n = 0]). *)
Theorem flat_zeropad_data_len_last_nonzero (buf : list Z) (n : Z) :
  words 8 buf -> Z.of_nat (length buf) = n -> word SIZE_BITS n ->
  (forall i, 0 <= i < n -> ld buf i <> 0 ->
             (forall j, i < j < n -> ld buf j = 0) ->
             flat_zeropad_data_len buf n = i + 1)
  /\ ((forall j, 0 <= j < n -> ld buf j = 0) -> flat_zeropad_data_len buf n = 0)
  /\ (n = 0 -> flat_zeropad_data_len buf n = 0).
Proof.
  intros Hb Hlen Hn. unfold flat_zeropad_data_len.
  pose proof (flat_zeropad_data_len_inv buf n Hb Hn) as Hinv.
  cbv zeta in Hinv.
  destruct Hinv as [(_ & Hr & Hall) | (_ & p & Hp & Hpnz & Hafter & Hr)];
    rewrite Hr; clear Hr.
  - split; [| auto]. intros i Hi Hnz _. elim Hnz. apply Hall, Hi.
  - split; [| split].
    + intros i Hi Hnz Hzeros.
      destruct (Z.lt_trichotomy i p) as [Hlt | [-> | Hgt]]; trivial.
      * elim Hpnz. apply Hzeros. lia.
      * elim Hnz. apply Hafter. lia.
    + intros Hall. elim Hpnz. apply Hall. lia.
    + intros ->. lia.
Qed.

Lemma flat_zeropad_data_len_last_nonzero_witness :
  flat_zeropad_data_len [1; 2; 3; 0; 0; 0; 0; 0] 8 = 2 + 1.
Proof.
  assert (words 8 [1; 2; 3; 0; 0; 0; 0; 0]) as Hb
    by (repeat constructor; unfold word; lia).
  assert (word SIZE_BITS 8) as Hn by (unfold word, SIZE_BITS; lia).
  refine (proj1 (flat_zeropad_data_len_last_nonzero _ 8 Hb eq_refl Hn) 2 _ _ _).
  - lia.
  - discriminate.
  - intros j Hj.
    assert (j = 3 \/ j = 4 \/ j = 5 \/ j = 6 \/ j = 7) as Hc by lia.
    destruct Hc as [-> | [-> | [-> | [-> | ->]]]]; reflexivity.
Defined.

(** ** Equality and ordering scans (C3) *)

Lemma sint_bit b : sint (Z.b2z b) = Z.b2z b.
Proof. destruct b; reflexivity. Qed.

Lemma buffers_eq_pointwise (a b : list Z) n :
  Z.of_nat (length a) = n -> Z.of_nat (length b) = n ->
  (forall j, 0 <= j < n -> ld a j = ld b j) -> a = b.
Proof.
  intros Ha Hb Hall. apply list_eq_same_length with (Z.to_nat n); try lia.
  intros i x y Hi Hx Hy.
  specialize (Hall (Z.of_nat i) ltac:(lia)). unfold ld in Hall.
  rewrite Nat2Z.id, Hx, Hy in Hall. exact Hall.
Qed.

Lemma flat_mem_eq_diff a b len :
  words 8 a -> words 8 b -> 0 <= len ->
  let diff :=
    for_up len (fun i diff => Z.lor diff (u32 (Z.lxor (ld a i) (ld b i)))) 0 in
  word 32 diff /\ (diff = 0 <-> forall j, 0 <= j < len -> ld a j = ld b j).
Proof.
  intros Ha Hb Hl.
  apply (for_up_ind
           (fun i diff =>
              word 32 diff
              /\ (diff = 0 <-> forall j, 0 <= j < i -> ld a j = ld b j)));
    [lia | |].
  - split; [unfold word; lia |]. split; trivial. intros _ j Hj. lia.
  - intros i diff Hi [Hw Hiff]. split.
    + apply word_lor; [lia | assumption | apply wrap_word; lia].
    + assert (word 32 (Z.lxor (ld a i) (ld b i))) as Hx.
      { pose proof (ld_word 8 a i ltac:(lia) Ha) as H1.
        pose proof (ld_word 8 b i ltac:(lia) Hb) as H2.
        pose proof (word_lxor 8 ltac:(lia) _ _ H1 H2) as H3.
        unfold word in *. lia. }
      unfold u32. rewrite (wrap_small 32 _ Hx).
      rewrite Z.lor_eq_0_iff, Z.lxor_eq_0_iff, Hiff. split.
      * intros [Hprev Hcur] j Hj.
        destruct (Z.eq_dec j i) as [-> | Hne]; [exact Hcur | apply Hprev; lia].
      * intros Hall. split; [intros j Hj |]; apply Hall; lia.
Qed.

Lemma flat_mem_eq_spec a b n :
  words 8 a -> words 8 b ->
  Z.of_nat (length a) = n -> Z.of_nat (length b) = n ->
  flat_mem_eq a b n = if decide (a = b) then 1 else 0.
Proof.
  intros Ha Hb Hla Hlb. unfold flat_mem_eq.
  destruct (flat_mem_eq_diff a b n Ha Hb ltac:(lia)) as [Hw Hiff].
  cbv zeta in Hw, Hiff. rewrite flat_mask_is_zero_u32_spec by assumption.
  destruct (Z.eqb_spec
              (for_up n (fun i diff => Z.lor diff (u32 (Z.lxor (ld a i) (ld b i)))) 0)
              0) as [Hz | Hnz].
  - rewrite decide_True; [reflexivity |].
    apply (buffers_eq_pointwise a b n Hla Hlb). apply Hiff, Hz.
  - rewrite decide_False; [reflexivity |].
    intros ->. apply Hnz, Hiff. reflexivity.
Qed.

Lemma memcmp_sign_range a : forall b,
  memcmp_sign a b = -1 \/ memcmp_sign a b = 0 \/ memcmp_sign a b = 1.
Proof.
  induction a as [| x a IH]; intros [| y b]; simpl; auto.
  destruct (x <? y); auto. destruct (y <? x); auto.
Qed.

Lemma memcmp_sign_snoc a : forall b x y,
  length a = length b ->
  memcmp_sign (a ++ [x]) (b ++ [y])
  = if memcmp_sign a b =? 0
    then (if x <? y then -1 else if y <? x then 1 else 0)
    else memcmp_sign a b.
Proof.
  induction a as [| u a IH]; intros [| v b] x y Hlen; simpl in *;
    try discriminate.
  - reflexivity.
  - destruct (u <? v); trivial. destruct (v <? u); trivial.
    apply IH. congruence.
Qed.

Lemma flat_mem_cmp_step_spec a b i c :
  words 8 a -> words 8 b ->
  c = -1 \/ c = 0 \/ c = 1 ->
  flat_mem_cmp_step a b i (cmp_acc_of_sign c)
  = cmp_acc_of_sign
      (if c =? 0
       then (if ld a i <? ld b i then -1 else if ld b i <? ld a i then 1 else 0)
       else c).
Proof.
  intros Ha Hb Hc. unfold flat_mem_cmp_step.
  assert (word 32 (ld a i) /\ word 32 (ld b i)) as [Hx Hy].
  { pose proof (ld_word 8 a i ltac:(lia) Ha).
    pose proof (ld_word 8 b i ltac:(lia) Hb). unfold word in *. lia. }
  cbv zeta.
  replace (u32 (ld a i)) with (ld a i)
    by (symmetry; apply wrap_small; assumption).
  replace (u32 (ld b i)) with (ld b i)
    by (symmetry; apply wrap_small; assumption).
  rewrite !flat_mask_lt_u32_spec, flat_mask_eq_u32_spec by assumption.
  destruct (Z.ltb_spec (ld a i) (ld b i)), (Z.ltb_spec (ld b i) (ld a i)),
    (Z.eqb_spec (ld a i) (ld b i)); try lia;
    destruct Hc as [-> | [-> | ->]]; reflexivity.
Qed.

Lemma flat_mem_cmp_acc a b n :
  words 8 a -> words 8 b ->
  Z.of_nat (length a) = n -> Z.of_nat (length b) = n ->
  for_up n (flat_mem_cmp_step a b) (CmpAcc 0 0 0)
  = cmp_acc_of_sign (memcmp_sign a b).
Proof.
  intros Ha Hb Hla Hlb.
  rewrite <- (take_ge a (Z.to_nat n)), <- (take_ge b (Z.to_nat n)) at 2 by lia.
  apply (for_up_ind
           (fun i s => s = cmp_acc_of_sign
                             (memcmp_sign (take (Z.to_nat i) a)
                                          (take (Z.to_nat i) b))));
    [lia | reflexivity |].
  intros i s Hi ->.
  destruct (lookup_lt_is_Some_2 a (Z.to_nat i)) as [x Hx]; [lia |].
  destruct (lookup_lt_is_Some_2 b (Z.to_nat i)) as [y Hy]; [lia |].
  replace (Z.to_nat (i + 1)) with (Datatypes.S (Z.to_nat i)) by lia.
  rewrite (take_S_r a _ x Hx), (take_S_r b _ y Hy).
  rewrite memcmp_sign_snoc by (rewrite !length_take; lia).
  rewrite flat_mem_cmp_step_spec by (try assumption; apply memcmp_sign_range).
  rewrite (ld_lookup a i x), (ld_lookup b i y) by (lia || assumption).
  reflexivity.
Qed.

Lemma flat_mem_cmp_spec a b n :
  words 8 a -> words 8 b ->
  Z.of_nat (length a) = n -> Z.of_nat (length b) = n ->
  flat_mem_cmp a b n = memcmp_sign a b.
Proof.
  intros Ha Hb Hla Hlb. unfold flat_mem_cmp.
  rewrite flat_mem_cmp_acc by assumption.
  destruct (memcmp_sign_range a b) as [-> | [-> | ->]]; reflexivity.
Qed.

(** [memcmp_sign] is decided by the first position at which the buffers
    differ. *)
Lemma memcmp_sign_first_diff a : forall b i,
  length a = length b ->
  0 <= i < Z.of_nat (length a) ->
  (forall j, 0 <= j < i -> ld a j = ld b j) ->
  ld a i <> ld b i ->
  memcmp_sign a b = if ld a i <? ld b i then -1 else 1.
Proof.
  induction a as [| x a IH]; intros [| y b] i Hlen Hi Hpre Hne;
    simpl in *; try discriminate; try lia.
  destruct (Z.eq_dec i 0) as [-> | Hnz].
  - unfold ld in *. simpl in *.
    destruct (Z.ltb_spec x y), (Z.ltb_spec y x); trivial; lia.
  - assert (x = y) as -> by (apply (Hpre 0); lia).
    rewrite Z.ltb_irrefl. rewrite !ld_cons in * by lia.
    apply IH; [congruence | lia | | assumption].
    intros j Hj. specialize (Hpre (j + 1) ltac:(lia)).
    rewrite !ld_cons in Hpre by lia.
    replace (j + 1 - 1) with j in Hpre by lia. exact Hpre.
Qed.

Lemma memcmp_sign_refl a : memcmp_sign a a = 0.
Proof. induction a as [| x a IH]; simpl; [| rewrite Z.ltb_irrefl]; trivial. Qed.

(** C3.  For byte buffers [a], [b] of equal length [n], [flat_mem_cmp]
    returns -1, 0 or +1, the sign of [memcmp]: the order of the bytes at
    the first position where the buffers differ, and 0 when they are
    equal.  [flat_mem_eq] returns 1 exactly when the buffers are equal
    and 0 otherwise.  For [n = 0] they return 0 and 1. *)
Theorem flat_mem_cmp_eq_match_memcmp (a b : list Z) (n : Z) :
  words 8 a -> words 8 b ->
  Z.of_nat (length a) = n -> Z.of_nat (length b) = n ->
  flat_mem_cmp a b n = memcmp_sign a b
  /\ (flat_mem_cmp a b n = -1 \/ flat_mem_cmp a b n = 0 \/ flat_mem_cmp a b n = 1)
  /\ (forall i, 0 <= i < n ->
        (forall j, 0 <= j < i -> ld a j = ld b j) ->
        ld a i <> ld b i ->
        flat_mem_cmp a b n = if ld a i <? ld b i then -1 else 1)
  /\ (a = b -> flat_mem_cmp a b n = 0)
  /\ (flat_mem_eq a b n = 1 <-> a = b)
  /\ (flat_mem_eq a b n = 0 <-> a <> b)
  /\ (n = 0 -> flat_mem_cmp a b n = 0 /\ flat_mem_eq a b n = 1).
Proof.
  intros Ha Hb Hla Hlb.
  rewrite flat_mem_cmp_spec, flat_mem_eq_spec by assumption.
  split; [reflexivity |]. split; [apply memcmp_sign_range |].
  split; [| split; [| split; [| split]]].
  - intros i Hi Hpre Hne. apply memcmp_sign_first_diff; trivial; lia.
  - intros ->. apply memcmp_sign_refl.
  - destruct (decide (a = b)); split; intros; congruence.
  - destruct (decide (a = b)); split; intros; congruence.
  - intros ->. destruct a, b; try discriminate.
    rewrite decide_True by reflexivity. auto.
Qed.

Lemma flat_mem_cmp_eq_match_memcmp_witness :
  flat_mem_cmp [1; 2; 3] [1; 2; 4] 3 = -1
  /\ (flat_mem_eq [1; 2; 3] [1; 2; 4] 3 = 0 <-> [1; 2; 3] <> [1; 2; 4]).
Proof.
  assert (words 8 [1; 2; 3]) as Ha by (repeat constructor; unfold word; lia).
  assert (words 8 [1; 2; 4]) as Hb by (repeat constructor; unfold word; lia).
  pose proof (flat_mem_cmp_eq_match_memcmp [1; 2; 3] [1; 2; 4] 3
                Ha Hb eq_refl eq_refl) as (Hc & _ & _ & _ & _ & He & _).
  exact (conj Hc He).
Defined.

(** ** Bit-serial division (C2) *)

Lemma lor_low_bit a b : b = 0 \/ b = 1 -> Z.lor (2 * a) b = 2 * a + b.
Proof.
  intros Hb. pose proof (Z.add_lor_land (2 * a) b) as H.
  assert (Z.land (2 * a) b = 0) as H0.
  { destruct Hb as [-> | ->]; [apply Z.land_0_r |].
    change 1 with (Z.ones 1). rewrite Z.land_ones by lia.
    change (2 ^ 1) with 2. rewrite Z.mul_comm. apply Z.mod_mul. lia. }
  lia.
Qed.

Lemma lor_set_bit q i :
  0 <= i -> Z.lor (q * 2 ^ (i + 1)) (2 ^ i) = q * 2 ^ (i + 1) + 2 ^ i.
Proof.
  intros Hi. pose proof (Z.add_lor_land (q * 2 ^ (i + 1)) (2 ^ i)) as H.
  assert (Z.land (q * 2 ^ (i + 1)) (2 ^ i) = 0) as H0.
  { apply Z.bits_inj'. intros m Hm.
    rewrite Z.land_spec, Z.bits_0.
    destruct (Z.eq_dec m i) as [-> | Hne].
    - rewrite Z.mul_pow2_bits_low by lia. reflexivity.
    - rewrite (Z.pow2_bits_false i m) by lia. apply andb_false_r. }
  lia.
Qed.

Lemma div_pow2_step n i :
  0 <= i -> n / 2 ^ i = 2 * (n / 2 ^ (i + 1)) + (n / 2 ^ i) mod 2.
Proof.
  intros Hi. rewrite Z.pow_add_r by lia. change (2 ^ 1) with 2.
  assert (0 < 2 ^ i) by (apply Z.pow_pos_nonneg; lia).
  rewrite <- Z.div_div by lia. apply Z.div_mod. lia.
Qed.

Section DivMod.
Variable w : Z.
Hypothesis w_range : 0 < w <= 64.
Variable lt : Z -> Z -> Z.
Hypothesis lt_spec :
  forall a b, word w a -> word w b ->
              lt a b = if a <? b then ALL_ONES w else 0.
Variables n d : Z.
Hypothesis n_word : word w n.
Hypothesis d_word : word w d.
Hypothesis d_nonzero : d <> 0.

Lemma div_step_inv i s :
  0 <= i <= w - 1 -> div_inv n d i s -> div_inv n d (i - 1) (div_step w lt n d i s).
Proof.
  intros Hi (q & Hq & Hr & Hhi & Hqv). destruct s as [qv rv]. simpl in *.
  subst qv. unfold word in n_word, d_word.
  assert (0 < 2 ^ i) as Hpi by (apply Z.pow_pos_nonneg; lia).
  assert (0 < 2 ^ (i + 1)) as Hpi1 by (apply Z.pow_pos_nonneg; lia).
  assert (2 ^ w = 2 ^ (i + 1) * 2 ^ (w - (i + 1))) as Hsplit
    by (rewrite <- Z.pow_add_r by lia; f_equal; lia).
  assert (2 ^ (i + 1) = 2 * 2 ^ i) as Hdbl
    by (rewrite Z.pow_add_r by lia; change (2 ^ 1) with 2; lia).
  assert (0 < 2 ^ (w - (i + 1))) as Hprest by (apply Z.pow_pos_nonneg; lia).
  assert (n / 2 ^ (i + 1) < 2 ^ (w - (i + 1))) as Hhib
    by (apply Z.div_lt_upper_bound; lia).
  assert (0 <= n / 2 ^ i) as Hhi'0 by (apply Z.div_pos; lia).
  pose proof (div_pow2_step n i ltac:(lia)) as Hnext.
  pose proof (Z.mod_pos_bound (n / 2 ^ i) 2 ltac:(lia)) as Hbit.
  set (bit := (n / 2 ^ i) mod 2) in *.
  assert (rv <= n / 2 ^ (i + 1)) as Hrvle by nia.
  assert (2 ^ i < 2 ^ w) as Hiw by (apply Z.pow_lt_mono_r; lia).
  unfold div_step, uint. rewrite (wrap_small 32 i) by (unfold word; lia).
  assert (Z.land (Z.shiftr n i) 1 = bit) as ->.
  { change 1 with (Z.ones 1). rewrite Z.land_ones by lia.
    rewrite Z.shiftr_div_pow2 by lia. reflexivity. }
  rewrite !Z.shiftl_mul_pow2, Z.mul_1_l by lia. change (2 ^ 1) with 2.
  rewrite (wrap_small w (rv * 2)) by (unfold word; nia).
  rewrite (Z.mul_comm rv 2), lor_low_bit by lia.
  assert (word w (2 * rv + bit)) as Hrv1 by (unfold word; nia).
  rewrite (lt_spec _ _ Hrv1 d_word).
  rewrite (wrap_small w (2 ^ i)) by (unfold word; lia).
  unfold div_inv. simpl. replace (i - 1 + 1) with i by lia.
  destruct (Z.ltb_spec (2 * rv + bit) d) as [Hlt | Hge].
  - rewrite wrap_lnot by (apply all_ones_word; lia).
    rewrite Z.sub_diag, !Z.land_0_r, Z.sub_0_r, Z.lor_0_r.
    rewrite (wrap_small w _ Hrv1).
    exists (2 * q). repeat split; nia.
  - rewrite wrap_lnot by (unfold word; lia).
    rewrite Z.sub_0_r.
    rewrite !land_all_ones by (unfold word; lia).
    rewrite (wrap_small w (2 * rv + bit - d)) by (unfold word; lia).
    rewrite lor_set_bit by lia.
    exists (2 * q + 1). repeat split; nia.
Qed.

Lemma div_loop_inv :
  div_inv n d (-1) (for_down (w - 1) 0 (div_step w lt n d) (0, 0)).
Proof.
  apply (for_down_ind (div_inv n d) (w - 1) 0); [lia | |].
  - exists 0. simpl. replace (w - 1 + 1) with w by lia.
    unfold word in n_word, d_word. rewrite Z.div_small by lia. lia.
  - intros i s Hi. apply div_step_inv. lia.
Qed.

Lemma div_loop_result :
  exists q r,
    for_down (w - 1) 0 (div_step w lt n d) (0, 0) = (q, r)
    /\ n = q * d + r /\ 0 <= r < d /\ word w q /\ word w r.
Proof.
  destruct div_loop_inv as (q & Hq & Hr & Hn & Hqv).
  destruct (for_down (w - 1) 0 (div_step w lt n d) (0, 0)) as [qv rv].
  simpl in *. change (2 ^ (-1 + 1)) with 1 in *.
  rewrite Z.div_1_r in Hn. rewrite Z.mul_1_r in Hqv. subst qv.
  exists q, rv. unfold word in *. repeat split; trivial; try lia; nia.
Qed.
End DivMod.

Lemma flat_select_u64_zero_cond x : flat_select_u64 0 x 0 = 0.
Proof.
  unfold flat_select_u64, flat_select_u64_mask.
  change (flat_mask_from_bit_u64 0) with 0.
  rewrite Z.land_0_r, Z.land_0_l. reflexivity.
Qed.

Lemma flat_select_u32_zero_cond x : flat_select_u32 0 x 0 = 0.
Proof.
  unfold flat_select_u32, flat_select_u32_mask.
  change (flat_mask_from_bit_u32 0) with 0.
  rewrite Z.land_0_r, Z.land_0_l. reflexivity.
Qed.

Lemma flat_div_mod_ct_u64_nonzero n d :
  word 64 n -> word 64 d -> d <> 0 ->
  exists q r, flat_div_mod_ct_u64 n d = (1, q, r)
              /\ n = q * d + r /\ 0 <= r < d.
Proof.
  intros Hn Hd Hnz.
  destruct (div_loop_result 64 ltac:(lia) flat_mask_lt_u64
              flat_mask_lt_u64_spec n d Hn Hd Hnz)
    as (q & r & Hloop & Heq & Hr & Hwq & Hwr).
  exists q, r. split; [| split; assumption].
  unfold flat_div_mod_ct_u64.
  change (for_down 63 0 _ (0, 0))
    with (for_down (64 - 1) 0 (div_step 64 flat_mask_lt_u64 n d) (0, 0)).
  rewrite Hloop, flat_mask_is_zero_u64_spec by assumption.
  destruct (Z.eqb_spec d 0); [contradiction |].
  change (uint (Z.land (u64 (Z.lnot 0)) 1)) with 1.
  rewrite !flat_select_u64_spec by (assumption || (unfold word; lia)).
  reflexivity.
Qed.

Lemma flat_div_mod_ct_u64_zero n : flat_div_mod_ct_u64 n 0 = (0, 0, 0).
Proof.
  unfold flat_div_mod_ct_u64.
  destruct (for_down 63 0 _ (0, 0)) as [qv rv].
  change (uint (Z.land (u64 (Z.lnot (flat_mask_is_zero_u64 0))) 1)) with 0.
  rewrite !flat_select_u64_zero_cond. reflexivity.
Qed.

Lemma flat_div_mod_ct_u32_nonzero n d :
  word 32 n -> word 32 d -> d <> 0 ->
  exists q r, flat_div_mod_ct_u32 n d = (1, q, r)
              /\ n = q * d + r /\ 0 <= r < d.
Proof.
  intros Hn Hd Hnz.
  destruct (div_loop_result 32 ltac:(lia) flat_mask_lt_u32
              flat_mask_lt_u32_spec n d Hn Hd Hnz)
    as (q & r & Hloop & Heq & Hr & Hwq & Hwr).
  exists q, r. split; [| split; assumption].
  unfold flat_div_mod_ct_u32.
  change (for_down 31 0 _ (0, 0))
    with (for_down (32 - 1) 0 (div_step 32 flat_mask_lt_u32 n d) (0, 0)).
  rewrite Hloop, flat_mask_is_zero_u32_spec by assumption.
  destruct (Z.eqb_spec d 0); [contradiction |].
  change (uint (Z.land (u32 (Z.lnot 0)) 1)) with 1.
  rewrite !flat_select_u32_spec by (assumption || (unfold word; lia)).
  reflexivity.
Qed.

Lemma flat_div_mod_ct_u32_zero n : flat_div_mod_ct_u32 n 0 = (0, 0, 0).
Proof.
  unfold flat_div_mod_ct_u32.
  destruct (for_down 31 0 _ (0, 0)) as [qv rv].
  change (uint (Z.land (u32 (Z.lnot (flat_mask_is_zero_u32 0))) 1)) with 0.
  rewrite !flat_select_u32_zero_cond. reflexivity.
Qed.

(** C2.  For [n] and [d] of width 32 or 64,
    [flat_div_mod_ct_u32/u64(n, d, &q, &r)]: if [d] is non-zero the
    outputs satisfy [n = q*d + r] with [r < d] and the return value is 1;
    if [d = 0] then [q = 0], [r = 0] and the return value is 0. *)
Theorem flat_div_mod_ct_correct (D : div_width) (n d : Z) :
  word (div_bits D) n -> word (div_bits D) d ->
  exists ok q r,
    flat_div_mod_ct_W D n d = (ok, q, r)
    /\ (d <> 0 -> n = q * d + r /\ 0 <= r < d /\ ok = 1)
    /\ (d = 0 -> q = 0 /\ r = 0 /\ ok = 0).
Proof.
  intros Hn Hd. destruct (Z.eq_dec d 0) as [-> | Hnz].
  - exists 0, 0, 0. split; [| split; [congruence | auto]].
    destruct D; [apply flat_div_mod_ct_u32_zero | apply flat_div_mod_ct_u64_zero].
  - assert (exists q r, flat_div_mod_ct_W D n d = (1, q, r)
                        /\ n = q * d + r /\ 0 <= r < d)
      as (q & r & Hres & Heq & Hr).
    { destruct D; simpl in *.
      - apply flat_div_mod_ct_u32_nonzero; assumption.
      - apply flat_div_mod_ct_u64_nonzero; assumption. }
    exists 1, q, r. split; [exact Hres |]. split; [auto | contradiction].
Qed.

Lemma flat_div_mod_ct_correct_witness :
  exists ok q r,
    flat_div_mod_ct_W D64 1000003 7 = (ok, q, r)
    /\ (7 <> 0 -> 1000003 = q * 7 + r /\ 0 <= r < 7 /\ ok = 1)
    /\ (7 = 0 -> q = 0 /\ r = 0 /\ ok = 0).
Proof.
  apply (flat_div_mod_ct_correct D64 1000003 7); unfold word, div_bits; lia.
Defined.

(** ** PKCS#7 unpad (C1) *)

Lemma flat_min_sz_spec a b :
  word SIZE_BITS a -> word SIZE_BITS b -> flat_min_sz a b = Z.min a b.
Proof.
  intros Ha Hb. unfold flat_min_sz.
  rewrite flat_mask_lt_sz_spec by assumption.
  destruct (Z.ltb_spec a b).
  - rewrite land_all_ones
      by (try apply word_lxor; try assumption; unfold SIZE_BITS; lia).
    rewrite Z.lxor_comm, Z.lxor_assoc, Z.lxor_nilpotent, Z.lxor_0_r. lia.
  - rewrite Z.land_0_r, Z.lxor_0_r. lia.
Qed.

Lemma pkcs7_diff_spec buf len pad maxchk :
  words 8 buf -> word 8 pad -> word SIZE_BITS maxchk ->
  word 32 (pkcs7_diff buf len pad maxchk)
  /\ (pkcs7_diff buf len pad maxchk = 0
      <-> forall j, 0 <= j < maxchk -> j < pad -> ld buf (len - 1 - j) = pad).
Proof.
  intros Hb Hp Hm. unfold pkcs7_diff. unfold word in Hm.
  apply (for_up_ind
           (fun i diff =>
              word 32 diff
              /\ (diff = 0
                  <-> forall j, 0 <= j < i -> j < pad ->
                                ld buf (len - 1 - j) = pad)));
    [lia | |].
  - split; [unfold word; lia |]. split; trivial. intros _ j Hj. lia.
  - intros i diff Hi [Hw Hiff].
    assert (word 8 (Z.lxor (ld buf (len - 1 - i)) pad)) as Hx
      by (apply word_lxor; [lia | apply ld_word; [lia | exact Hb] | exact Hp]).
    assert (u8 (Z.land (flat_mask_lt_sz i (usz pad)) 255)
            = if i <? pad then ALL_ONES 8 else 0) as ->.
    { unfold usz. rewrite (wrap_small SIZE_BITS pad)
        by (unfold word, SIZE_BITS in *; lia).
      rewrite flat_mask_lt_sz_spec by (unfold word, SIZE_BITS in *; lia).
      destruct (i <? pad); reflexivity. }
    assert (u32 (Z.land (Z.lxor (ld buf (len - 1 - i)) pad)
                   (if i <? pad then ALL_ONES 8 else 0))
            = if i <? pad then Z.lxor (ld buf (len - 1 - i)) pad else 0) as ->.
    { destruct (i <? pad).
      - rewrite land_all_ones by (lia || assumption).
        apply wrap_small. unfold word in *. lia.
      - rewrite Z.land_0_r. reflexivity. }
    split.
    + apply word_lor; [lia | assumption |].
      destruct (i <? pad); unfold word in *; lia.
    + rewrite Z.lor_eq_0_iff, Hiff. split.
      * intros [Hprev Hcur] j Hj Hjp.
        destruct (Z.eq_dec j i) as [-> | Hne]; [| apply Hprev; lia].
        destruct (Z.ltb_spec i pad); [| lia].
        apply Z.lxor_eq_0_iff. exact Hcur.
      * intros Hall. split; [intros j Hj Hjp; apply Hall; lia |].
        destruct (Z.ltb_spec i pad); [| reflexivity].
        apply Z.lxor_eq_0_iff, Hall; lia.
Qed.

(** What [flat_pkcs7_unpad_ct] computes, with the two truncated bounds
    [(uint8_t)block] and [(uint8_t)len] left as the source has them. *)
Lemma flat_pkcs7_unpad_ct_spec buf len block :
  words 8 buf -> word SIZE_BITS len -> word SIZE_BITS block ->
  len <> 0 -> block <> 0 ->
  let pad := ld buf (len - 1) in
  flat_pkcs7_unpad_ct buf len block
  = if (1 <=? pad) && (pad <=? u8 block) && (pad <=? u8 len)
       && (pkcs7_diff buf len pad (Z.min len block) =? 0)
    then (1, len - pad) else (0, 0).
Proof.
  intros Hb Hl Hk Hl0 Hk0 pad. unfold flat_pkcs7_unpad_ct.
  destruct (Z.eqb_spec len 0); [contradiction |].
  destruct (Z.eqb_spec block 0); [contradiction |]. simpl orb. cbv iota.
  fold pad. rewrite flat_min_sz_spec by assumption.
  fold (pkcs7_diff buf len pad (Z.min len block)).
  assert (word 8 pad) as Hp by (apply ld_word; [lia | assumption]).
  assert (word SIZE_BITS (Z.min len block)) as Hm
    by (unfold word in *; lia).
  destruct (pkcs7_diff_spec buf len pad (Z.min len block) Hb Hp Hm) as [Hw _].
  rewrite flat_mask_is_zero_u32_spec by assumption.
  assert (word SIZE_BITS (usz (len - usz pad))) as Hdl
    by (apply wrap_word; unfold SIZE_BITS; lia).
  change (usz 0) with 0.
  rewrite flat_select_sz_spec by (assumption || (unfold word, SIZE_BITS; lia)).
  pose proof (wrap_word 8 ltac:(lia) len) as Hul.
  assert (u8 len <= len) as Hule.
  { unfold u8, wrap, word in *. apply Z.mod_le; lia. }
  destruct (Z.leb_spec 1 pad), (Z.leb_spec pad (u8 block)),
    (Z.leb_spec pad (u8 len)),
    (Z.eqb_spec (pkcs7_diff buf len pad (Z.min len block)) 0);
    simpl; try reflexivity.
  f_equal. unfold usz. unfold word, SIZE_BITS in *.
  rewrite (wrap_small 64 pad) by (unfold word; lia).
  apply wrap_small. unfold word. lia.
Qed.

Lemma u8_le x : 0 <= x -> u8 x <= x.
Proof. intros Hx. unfold u8, wrap. apply Z.mod_le; lia. Qed.

Lemma pkcs7_padded_last buf n block k :
  pkcs7_padded buf n block k -> ld buf (n - 1) = k.
Proof.
  intros (Hk & _ & Hall). specialize (Hall 0 ltac:(lia)).
  now rewrite Z.sub_0_r in Hall.
Qed.

(** The padding that the code accepts: valid padding whose length also
    fits under the truncated bounds. *)
Lemma flat_pkcs7_unpad_ct_cases buf len block :
  words 8 buf -> word SIZE_BITS len -> word SIZE_BITS block ->
  (exists k, pkcs7_padded buf len block k /\ k <= u8 block /\ k <= u8 len
             /\ flat_pkcs7_unpad_ct buf len block = (1, len - k))
  \/ ((forall k, pkcs7_padded buf len block k -> k <= u8 block -> k <= u8 len
                 -> False)
      /\ flat_pkcs7_unpad_ct buf len block = (0, 0)).
Proof.
  intros Hb Hl Hk.
  destruct (Z.eq_dec len 0) as [-> | Hl0].
  { right. split; [| reflexivity]. intros k (H1 & H2 & _). lia. }
  destruct (Z.eq_dec block 0) as [-> | Hk0].
  { right. split; [intros k (H1 & H2 & _); lia |].
    unfold flat_pkcs7_unpad_ct. rewrite orb_true_r. reflexivity. }
  rewrite flat_pkcs7_unpad_ct_spec by assumption. cbv zeta.
  set (pad := ld buf (len - 1)).
  assert (word 8 pad) as Hp by (apply ld_word; [lia | assumption]).
  assert (word SIZE_BITS (Z.min len block)) as Hm by (unfold word in *; lia).
  destruct (pkcs7_diff_spec buf len pad (Z.min len block) Hb Hp Hm) as [_ Hdiff].
  pose proof (u8_le len ltac:(unfold word in *; lia)) as Hule.
  pose proof (u8_le block ltac:(unfold word in *; lia)) as Hukb.
  destruct (Z.leb_spec 1 pad) as [H1 | H1]; simpl.
  2:{ right. split; [| reflexivity]. intros k Hpad _ _.
      pose proof (pkcs7_padded_last _ _ _ _ Hpad) as Hlast. fold pad in Hlast.
      destruct Hpad as (? & _). lia. }
  destruct (Z.leb_spec pad (u8 block)) as [H2 | H2]; simpl.
  2:{ right. split; [| reflexivity]. intros k Hpad Hkb _.
      pose proof (pkcs7_padded_last _ _ _ _ Hpad) as Hlast. fold pad in Hlast.
      lia. }
  destruct (Z.leb_spec pad (u8 len)) as [H3 | H3]; simpl.
  2:{ right. split; [| reflexivity]. intros k Hpad _ Hkl.
      pose proof (pkcs7_padded_last _ _ _ _ Hpad) as Hlast. fold pad in Hlast.
      lia. }
  destruct (Z.eqb_spec (pkcs7_diff buf len pad (Z.min len block)) 0)
    as [Hz | Hnz].
  - left. exists pad. repeat split; trivial; try lia.
    intros j Hj. apply Hdiff; trivial; lia.
  - right. split; [| reflexivity]. intros k Hpad _ _.
    pose proof (pkcs7_padded_last _ _ _ _ Hpad) as Hlast. fold pad in Hlast.
    subst k. apply Hnz, Hdiff. intros j Hj Hjp.
    destruct Hpad as (_ & _ & Hall). apply Hall. lia.
Qed.

(** Acceptance is sound for all sizes: [ok = 1] only on valid padding,
    and then [out_len = n - k]; the result is [(0, 0)] otherwise. *)
Lemma flat_pkcs7_unpad_ct_sound buf n block :
  words 8 buf -> word SIZE_BITS n -> word SIZE_BITS block ->
  (exists k, pkcs7_padded buf n block k
             /\ flat_pkcs7_unpad_ct buf n block = (1, n - k))
  \/ flat_pkcs7_unpad_ct buf n block = (0, 0).
Proof.
  intros Hb Hn Hk.
  destruct (flat_pkcs7_unpad_ct_cases buf n block Hb Hn Hk)
    as [(k & Hpad & _ & _ & Hres) | [_ Hres]]; [left | right; exact Hres].
  exists k. split; assumption.
Qed.

(** When neither bound is truncated ([n] and [block] below 256) the code
    accepts exactly the valid paddings. *)
Lemma flat_pkcs7_unpad_ct_small_sizes buf n block :
  words 8 buf -> 0 <= n < 256 -> 0 <= block < 256 ->
  (fst (flat_pkcs7_unpad_ct buf n block) = 1
   <-> exists k, pkcs7_padded buf n block k)
  /\ (forall k, pkcs7_padded buf n block k ->
                flat_pkcs7_unpad_ct buf n block = (1, n - k))
  /\ ((forall k, ~ pkcs7_padded buf n block k) ->
      flat_pkcs7_unpad_ct buf n block = (0, 0)).
Proof.
  intros Hb Hn Hk.
  assert (u8 n = n /\ u8 block = block) as [Hun Hub]
    by (split; apply wrap_small; unfold word; lia).
  destruct (flat_pkcs7_unpad_ct_cases buf n block Hb)
    as [(k & Hpad & _ & _ & Hres) | [Hno Hres]];
    try (unfold word, SIZE_BITS; lia); rewrite Hres; simpl.
  - split; [split; eauto |]. split.
    + intros k' Hpad'.
      pose proof (pkcs7_padded_last _ _ _ _ Hpad) as E1.
      pose proof (pkcs7_padded_last _ _ _ _ Hpad') as E2. congruence.
    + intros Hnone. elim (Hnone k Hpad).
  - assert (forall k, ~ pkcs7_padded buf n block k) as Hnone.
    { intros k Hpad. apply (Hno k Hpad); destruct Hpad as (? & ? & _); lia. }
    split; [split; [discriminate | intros [k Hpad]; elim (Hnone k Hpad)] |].
    split; [intros k Hpad; elim (Hnone k Hpad) | reflexivity].
Qed.

(** C1 fails on the code.  A 256-byte buffer whose last byte is 1 ends
    with one copy of the byte 1, which is valid padding for block size
    16, yet the code returns [ok = 0] and [out_len = 0]: the bound
    [pad <= (uint8_t)len] compares against [256 mod 256 = 0]. *)
Theorem flat_pkcs7_unpad_ct_rejects_len_256 :
  let buf := replicate 255 65 ++ [1] in
  words 8 buf
  /\ Z.of_nat (length buf) = 256
  /\ pkcs7_padded buf 256 16 1
  /\ flat_pkcs7_unpad_ct buf 256 16 = (0, 0).
Proof.
  cbv zeta. split; [| split; [reflexivity | split]].
  - apply Forall_app. split.
    + apply Forall_replicate. unfold word. lia.
    + repeat constructor; unfold word; lia.
  - unfold pkcs7_padded. repeat split; try lia.
    intros j Hj. assert (j = 0) as -> by lia. reflexivity.
  - vm_compute. reflexivity.
Qed.

(** ** The literal scenarios of the test suite *)

Example scenario_mem_cmp :
  flat_mem_cmp [1; 2; 3] [1; 2; 4] 3 = -1
  /\ flat_mem_cmp [1; 2; 5] [1; 2; 4] 3 = 1
  /\ flat_mem_cmp [1; 2; 4] [1; 2; 4] 3 = 0.
Proof. repeat split; vm_compute; reflexivity. Qed.

Example scenario_zeropad :
  flat_zeropad_data_len (1 :: 2 :: 3 :: replicate 13 0) 16 = 3
  /\ flat_zeropad_data_len (replicate 16 0) 16 = 0.
Proof. split; vm_compute; reflexivity. Qed.

Example scenario_pkcs7 :
  flat_pkcs7_unpad_ct (replicate 13 65 ++ [3; 3; 3]) 16 16 = (1, 13)
  /\ flat_pkcs7_unpad_ct (replicate 13 65 ++ [3; 3; 4]) 16 16 = (0, 0).
Proof. split; vm_compute; reflexivity. Qed.

Example scenario_div_mod :
  flat_div_mod_ct_u64 1000003 0 = (0, 0, 0)
  /\ flat_div_mod_ct_u64 1000003 7 = (1, 142857, 4).
Proof. split; vm_compute; reflexivity. Qed.

Example scenario_erracc_commit :
  flat_commit_if_ok (flat_erracc_ok (erracc_feed (ErrAcc 0) [0]))
    (replicate 8 1) (replicate 8 9) 8 = replicate 8 9
  /\ flat_commit_if_ok (flat_erracc_ok (erracc_feed (ErrAcc 0) [1]))
       (replicate 8 1) (replicate 8 9) 8 = replicate 8 1.
Proof. split; vm_compute; reflexivity. Qed.

(** * Further properties of the header *)

(** ** Mask discipline *)

(** X1.  At every width, [flat_mask_from_bit_W], [flat_mask_is_zero_W] and
    [flat_mask_eq_W] return the all-ones word when their predicate holds
    (low bit set, operand zero, operands equal) and 0 otherwise. *)
Theorem flat_masks_all_or_nothing (W : width) (bit a b : Z) :
  word (bits W) a -> word (bits W) b ->
  flat_mask_from_bit_W W bit = (if Z.odd bit then ALL_ONES (bits W) else 0)
  /\ flat_mask_is_zero_W W a = (if a =? 0 then ALL_ONES (bits W) else 0)
  /\ flat_mask_eq_W W a b = (if a =? b then ALL_ONES (bits W) else 0).
Proof.
  intros Ha Hb. destruct W; simpl in *.
  - rewrite flat_mask_from_bit_u8_spec, flat_mask_is_zero_u8_spec,
      flat_mask_eq_u8_spec by assumption. auto.
  - rewrite flat_mask_from_bit_u16_spec, flat_mask_is_zero_u16_spec,
      flat_mask_eq_u16_spec by assumption. auto.
  - rewrite flat_mask_from_bit_u32_spec, flat_mask_is_zero_u32_spec,
      flat_mask_eq_u32_spec by assumption. auto.
  - rewrite flat_mask_from_bit_u64_spec, flat_mask_is_zero_u64_spec,
      flat_mask_eq_u64_spec by assumption. auto.
  - rewrite flat_mask_from_bit_sz_spec, flat_mask_is_zero_sz_spec,
      flat_mask_eq_sz_spec by assumption. auto.
Qed.

Lemma flat_masks_all_or_nothing_witness :
  flat_mask_eq_W W16 513 513 = ALL_ONES 16
  /\ flat_mask_is_zero_W W16 513 = 0.
Proof.
  assert (word (bits W16) 513) as H by (unfold word, bits; lia).
  pose proof (flat_masks_all_or_nothing W16 7 513 513 H H) as (_ & Hz & He).
  exact (conj He Hz).
Defined.

(** ** Add with carry, subtract with borrow *)

Lemma wrap_cases w z :
  0 < w -> 0 <= z < 2 * 2 ^ w ->
  (z < 2 ^ w /\ wrap w z = z) \/ (2 ^ w <= z /\ wrap w z = z - 2 ^ w).
Proof.
  intros Hw Hz. destruct (Z_lt_le_dec z (2 ^ w)).
  - left. split; trivial. apply wrap_small. unfold word. lia.
  - right. split; trivial. unfold wrap. symmetry.
    apply Z.mod_unique with (q := 1); lia.
Qed.

Lemma wrap_cases_neg w z :
  0 < w -> - 2 ^ w <= z < 2 ^ w ->
  (0 <= z /\ wrap w z = z) \/ (z < 0 /\ wrap w z = z + 2 ^ w).
Proof.
  intros Hw Hz. destruct (Z_lt_le_dec z 0).
  - right. split; trivial. unfold wrap. symmetry.
    apply Z.mod_unique with (q := -1); lia.
  - left. split; trivial. apply wrap_small. unfold word. lia.
Qed.

Lemma to_bit_of_mask32 (c : bool) :
  flat_mask_to_bit_u32 (if c then ALL_ONES 32 else 0) = Z.b2z c.
Proof. destruct c; reflexivity. Qed.

Lemma to_bit_of_mask64 (c : bool) :
  flat_mask_to_bit_u32 (u32 (if c then ALL_ONES 64 else 0)) = Z.b2z c.
Proof. destruct c; reflexivity. Qed.

Lemma carry_bits_or (c1 c2 : bool) :
  uint (Z.lor (uint (Z.b2z c1)) (uint (Z.b2z c2))) = Z.b2z (c1 || c2).
Proof. destruct c1, c2; reflexivity. Qed.

Section CarrySection.
Variable w : Z.
Hypothesis w_pos : 0 < w.
Variables x y c : Z.
Hypothesis x_word : word w x.
Hypothesis y_word : word w y.
Hypothesis c_bit : c = 0 \/ c = 1.

Lemma adc_arith :
  let s1 := wrap w (x + y) in
  let s2 := wrap w (s1 + c) in
  x + y + c = s2 + Z.b2z ((s1 <? x) || (s2 <? s1)) * 2 ^ w.
Proof.
  intros s1 s2. pose proof (pow2_pos w w_pos).
  pose proof (pow2_half w w_pos) as Hh.
  assert (0 < 2 ^ (w - 1)) as Hq by (apply Z.pow_pos_nonneg; lia).
  pose proof x_word as Hx. pose proof y_word as Hy. unfold word in Hx, Hy.
  pose proof (wrap_word w w_pos (x + y)) as Hs1. fold s1 in Hs1.
  unfold word in Hs1.
  assert (0 <= x + y < 2 * 2 ^ w) as B1 by lia.
  destruct (wrap_cases w (x + y) w_pos B1) as [[H1 E1] | [H1 E1]];
    fold s1 in E1;
    (assert (0 <= s1 + c < 2 * 2 ^ w) as B2 by lia);
    (destruct (wrap_cases w (s1 + c) w_pos B2) as [[H2 E2] | [H2 E2]]);
    fold s2 in E2;
    destruct (Z.ltb_spec s1 x), (Z.ltb_spec s2 s1); simpl; lia.
Qed.

Lemma sbc_arith :
  let t := wrap w (x - y) in
  let r := wrap w (t - c) in
  x - y - c = r - Z.b2z ((x <? y) || (t <? c)) * 2 ^ w.
Proof.
  intros t r. pose proof (pow2_pos w w_pos).
  pose proof (pow2_half w w_pos) as Hh.
  assert (0 < 2 ^ (w - 1)) as Hq by (apply Z.pow_pos_nonneg; lia).
  pose proof x_word as Hx. pose proof y_word as Hy. unfold word in Hx, Hy.
  pose proof (wrap_word w w_pos (x - y)) as Ht. fold t in Ht. unfold word in Ht.
  assert (- 2 ^ w <= x - y < 2 ^ w) as B1 by lia.
  destruct (wrap_cases_neg w (x - y) w_pos B1) as [[H1 E1] | [H1 E1]];
    fold t in E1;
    (assert (- 2 ^ w <= t - c < 2 ^ w) as B2 by lia);
    (destruct (wrap_cases_neg w (t - c) w_pos B2) as [[H2 E2] | [H2 E2]]);
    fold r in E2;
    destruct (Z.ltb_spec x y), (Z.ltb_spec t c); simpl; lia.
Qed.
End CarrySection.

Lemma flat_adc_u32_spec x y cin :
  word 32 x -> word 32 y ->
  let s1 := u32 (x + y) in
  let s2 := u32 (s1 + Z.land cin 1) in
  flat_adc_u32 x y cin = (s2, Z.b2z ((s1 <? x) || (s2 <? s1))).
Proof.
  intros Hx Hy s1 s2. unfold flat_adc_u32. fold s1. fold s2.
  rewrite !flat_mask_lt_u32_spec by (try assumption; apply wrap_word; lia).
  rewrite !to_bit_of_mask32. f_equal. apply carry_bits_or.
Qed.

Lemma flat_adc_u64_spec x y cin :
  word 64 x -> word 64 y ->
  let s1 := u64 (x + y) in
  let s2 := u64 (s1 + Z.land cin 1) in
  flat_adc_u64 x y cin = (s2, Z.b2z ((s1 <? x) || (s2 <? s1))).
Proof.
  intros Hx Hy s1 s2. unfold flat_adc_u64. fold s1.
  assert (u64 (Z.land cin 1) = Z.land cin 1) as ->
    by (destruct (land_1_cases cin) as [-> | ->]; reflexivity).
  fold s2.
  rewrite !flat_mask_lt_u64_spec by (try assumption; apply wrap_word; lia).
  rewrite !to_bit_of_mask64. f_equal. apply carry_bits_or.
Qed.

Lemma flat_sbc_u32_spec x y bin :
  word 32 x -> word 32 y ->
  let t := u32 (x - y) in
  let r := u32 (t - Z.land bin 1) in
  flat_sbc_u32 x y bin = (r, Z.b2z ((x <? y) || (t <? Z.land bin 1))).
Proof.
  intros Hx Hy t r. unfold flat_sbc_u32. fold t. fold r.
  rewrite !flat_mask_lt_u32_spec
    by (try assumption; try (apply wrap_word; lia);
        destruct (land_1_cases bin) as [-> | ->]; unfold word; lia).
  rewrite !to_bit_of_mask32. f_equal. apply carry_bits_or.
Qed.

Lemma flat_sbc_u64_spec x y bin :
  word 64 x -> word 64 y ->
  let t := u64 (x - y) in
  let r := u64 (t - Z.land bin 1) in
  flat_sbc_u64 x y bin = (r, Z.b2z ((x <? y) || (t <? Z.land bin 1))).
Proof.
  intros Hx Hy t r. unfold flat_sbc_u64. fold t.
  assert (u64 (Z.land bin 1) = Z.land bin 1) as ->
    by (destruct (land_1_cases bin) as [-> | ->]; reflexivity).
  fold r.
  rewrite !flat_mask_lt_u64_spec
    by (try assumption; try (apply wrap_word; lia);
        destruct (land_1_cases bin) as [-> | ->]; unfold word; lia).
  rewrite !to_bit_of_mask64. f_equal. apply carry_bits_or.
Qed.

Lemma adc_W_sum_carry (D : div_width) (x y cin : Z) :
  word (div_bits D) x -> word (div_bits D) y ->
  word (div_bits D) (fst (flat_adc_W D x y cin))
  /\ (snd (flat_adc_W D x y cin) = 0 \/ snd (flat_adc_W D x y cin) = 1)
  /\ x + y + Z.land cin 1
     = fst (flat_adc_W D x y cin)
       + snd (flat_adc_W D x y cin) * 2 ^ div_bits D.
Proof.
  intros Hx Hy.
  destruct D; unfold flat_adc_W, div_bits in *;
    [rewrite flat_adc_u32_spec by assumption
    | rewrite flat_adc_u64_spec by assumption]; cbv zeta; simpl fst; simpl snd.
  - split; [apply wrap_word; lia |]. split; [destruct (_ || _); auto |].
    apply (adc_arith 32 ltac:(lia) x y (Z.land cin 1) Hx Hy (land_1_cases cin)).
  - split; [apply wrap_word; lia |]. split; [destruct (_ || _); auto |].
    apply (adc_arith 64 ltac:(lia) x y (Z.land cin 1) Hx Hy (land_1_cases cin)).
Qed.

(** X2.  [flat_adc_u32/u64(x, y, cin, &cout)] returns the low word of
    [x + y + (cin & 1)] and sets [cout] to the carry: the sum is
    [result + cout * 2^W] with [cout] 0 or 1.  The wrappers
    [flat_add_carry_u32/u64] return the same word and the same carry. *)
Theorem flat_adc_sum_and_carry (D : div_width) (x y cin : Z) :
  word (div_bits D) x -> word (div_bits D) y ->
  word (div_bits D) (fst (flat_adc_W D x y cin))
  /\ (snd (flat_adc_W D x y cin) = 0 \/ snd (flat_adc_W D x y cin) = 1)
  /\ x + y + Z.land cin 1
     = fst (flat_adc_W D x y cin)
       + snd (flat_adc_W D x y cin) * 2 ^ div_bits D
  /\ flat_add_carry_W D x y cin = flat_adc_W D x y cin
  /\ x + y + Z.land cin 1
     = fst (flat_add_carry_W D x y cin)
       + snd (flat_add_carry_W D x y cin) * 2 ^ div_bits D.
Proof.
  intros Hx Hy.
  destruct (adc_W_sum_carry D x y cin Hx Hy) as (Hw & Hc & Hsum).
  assert (flat_add_carry_W D x y cin = flat_adc_W D x y cin) as Hwrap
    by (destruct D; reflexivity).
  repeat (split; [assumption |]). rewrite Hwrap. exact Hsum.
Qed.

Lemma flat_adc_sum_and_carry_witness :
  4294967295 + 1 + Z.land 0 1
  = fst (flat_adc_W D32 4294967295 1 0)
    + snd (flat_adc_W D32 4294967295 1 0) * 2 ^ div_bits D32
  /\ 4294967295 + 1 + Z.land 0 1
     = fst (flat_add_carry_W D32 4294967295 1 0)
       + snd (flat_add_carry_W D32 4294967295 1 0) * 2 ^ div_bits D32.
Proof.
  assert (word (div_bits D32) 4294967295) as Hx by (unfold word, div_bits; lia).
  assert (word (div_bits D32) 1) as Hy by (unfold word, div_bits; lia).
  pose proof (flat_adc_sum_and_carry D32 4294967295 1 0 Hx Hy)
    as (_ & _ & Hsum & _ & Hwrap).
  exact (conj Hsum Hwrap).
Defined.

Lemma sbc_W_difference_borrow (D : div_width) (x y bin : Z) :
  word (div_bits D) x -> word (div_bits D) y ->
  word (div_bits D) (fst (flat_sbc_W D x y bin))
  /\ (snd (flat_sbc_W D x y bin) = 0 \/ snd (flat_sbc_W D x y bin) = 1)
  /\ x - y - Z.land bin 1
     = fst (flat_sbc_W D x y bin)
       - snd (flat_sbc_W D x y bin) * 2 ^ div_bits D.
Proof.
  intros Hx Hy.
  destruct D; unfold flat_sbc_W, div_bits in *;
    [rewrite flat_sbc_u32_spec by assumption
    | rewrite flat_sbc_u64_spec by assumption]; cbv zeta; simpl fst; simpl snd.
  - split; [apply wrap_word; lia |]. split; [destruct (_ || _); auto |].
    apply (sbc_arith 32 ltac:(lia) x y (Z.land bin 1) Hx Hy (land_1_cases bin)).
  - split; [apply wrap_word; lia |]. split; [destruct (_ || _); auto |].
    apply (sbc_arith 64 ltac:(lia) x y (Z.land bin 1) Hx Hy (land_1_cases bin)).
Qed.

(** X3.  [flat_sbc_u32/u64(x, y, bin, &bout)] returns the low word of
    [x - y - (bin & 1)] and sets [bout] to the borrow: the difference is
    [result - bout * 2^W] with [bout] 0 or 1.  The wrappers
    [flat_sub_borrow_u32/u64] return the same word and the same borrow. *)
Theorem flat_sbc_difference_and_borrow (D : div_width) (x y bin : Z) :
  word (div_bits D) x -> word (div_bits D) y ->
  word (div_bits D) (fst (flat_sbc_W D x y bin))
  /\ (snd (flat_sbc_W D x y bin) = 0 \/ snd (flat_sbc_W D x y bin) = 1)
  /\ x - y - Z.land bin 1
     = fst (flat_sbc_W D x y bin)
       - snd (flat_sbc_W D x y bin) * 2 ^ div_bits D
  /\ flat_sub_borrow_W D x y bin = flat_sbc_W D x y bin
  /\ x - y - Z.land bin 1
     = fst (flat_sub_borrow_W D x y bin)
       - snd (flat_sub_borrow_W D x y bin) * 2 ^ div_bits D.
Proof.
  intros Hx Hy.
  destruct (sbc_W_difference_borrow D x y bin Hx Hy) as (Hw & Hb & Hdiff).
  assert (flat_sub_borrow_W D x y bin = flat_sbc_W D x y bin) as Hwrap
    by (destruct D; reflexivity).
  repeat (split; [assumption |]). rewrite Hwrap. exact Hdiff.
Qed.

Lemma flat_sbc_difference_and_borrow_witness :
  0 - 1 - Z.land 0 1
  = fst (flat_sbc_W D32 0 1 0) - snd (flat_sbc_W D32 0 1 0) * 2 ^ div_bits D32
  /\ 0 - 1 - Z.land 0 1
     = fst (flat_sub_borrow_W D32 0 1 0)
       - snd (flat_sub_borrow_W D32 0 1 0) * 2 ^ div_bits D32.
Proof.
  assert (word (div_bits D32) 0) as Hx by (unfold word, div_bits; lia).
  assert (word (div_bits D32) 1) as Hy by (unfold word, div_bits; lia).
  pose proof (flat_sbc_difference_and_borrow D32 0 1 0 Hx Hy)
    as (_ & _ & Hdiff & _ & Hwrap).
  exact (conj Hdiff Hwrap).
Defined.

Lemma land_1_idem c : Z.land (Z.land c 1) 1 = Z.land c 1.
Proof. rewrite <- Z.land_assoc. reflexivity. Qed.

Lemma flat_adc_u32_low_bit x y cin :
  flat_adc_u32 x y (Z.land cin 1) = flat_adc_u32 x y cin.
Proof. unfold flat_adc_u32. rewrite land_1_idem. reflexivity. Qed.

Lemma flat_adc_u64_low_bit x y cin :
  flat_adc_u64 x y (Z.land cin 1) = flat_adc_u64 x y cin.
Proof. unfold flat_adc_u64. rewrite land_1_idem. reflexivity. Qed.

Lemma flat_sbc_u32_low_bit x y bin :
  flat_sbc_u32 x y (Z.land bin 1) = flat_sbc_u32 x y bin.
Proof. unfold flat_sbc_u32. rewrite land_1_idem. reflexivity. Qed.

Lemma flat_sbc_u64_low_bit x y bin :
  flat_sbc_u64 x y (Z.land bin 1) = flat_sbc_u64 x y bin.
Proof. unfold flat_sbc_u64. rewrite land_1_idem. reflexivity. Qed.

Lemma flat_adc_u32_zero x : word 32 x -> flat_adc_u32 x 0 0 = (x, 0).
Proof.
  intros Hx. rewrite flat_adc_u32_spec by (assumption || (unfold word; lia)).
  cbv zeta. change (Z.land 0 1) with 0. rewrite !Z.add_0_r.
  unfold u32. rewrite !(wrap_small 32 x Hx), Z.ltb_irrefl. reflexivity.
Qed.

Lemma flat_adc_u64_zero x : word 64 x -> flat_adc_u64 x 0 0 = (x, 0).
Proof.
  intros Hx. rewrite flat_adc_u64_spec by (assumption || (unfold word; lia)).
  cbv zeta. change (Z.land 0 1) with 0. rewrite !Z.add_0_r.
  unfold u64. rewrite !(wrap_small 64 x Hx), Z.ltb_irrefl. reflexivity.
Qed.

Lemma flat_sbc_u32_zero x : word 32 x -> flat_sbc_u32 x 0 0 = (x, 0).
Proof.
  intros Hx. rewrite flat_sbc_u32_spec by (assumption || (unfold word; lia)).
  cbv zeta. change (Z.land 0 1) with 0. rewrite !Z.sub_0_r.
  unfold u32. rewrite !(wrap_small 32 x Hx). unfold word in Hx.
  destruct (Z.ltb_spec x 0); [lia | reflexivity].
Qed.

Lemma flat_sbc_u64_zero x : word 64 x -> flat_sbc_u64 x 0 0 = (x, 0).
Proof.
  intros Hx. rewrite flat_sbc_u64_spec by (assumption || (unfold word; lia)).
  cbv zeta. change (Z.land 0 1) with 0. rewrite !Z.sub_0_r.
  unfold u64. rewrite !(wrap_small 64 x Hx). unfold word in Hx.
  destruct (Z.ltb_spec x 0); [lia | reflexivity].
Qed.

(** X4.  The masked forms are gated by the low bit of [cond]: when it is
    set, [flat_adc_when], [flat_sbc_when] and [flat_add_when] act as
    [flat_adc], [flat_sbc] and wrapping addition; when it is clear they
    return [x] unchanged, with carry or borrow 0 whatever the incoming
    carry. *)
Theorem flat_arith_when_gated (D : div_width) (cond x y c : Z) :
  word (div_bits D) x -> word (div_bits D) y ->
  flat_adc_when_W D cond x y c
  = (if Z.odd cond then flat_adc_W D x y c else (x, 0))
  /\ flat_sbc_when_W D cond x y c
     = (if Z.odd cond then flat_sbc_W D x y c else (x, 0))
  /\ flat_add_when_W D cond x y
     = (if Z.odd cond then wrap (div_bits D) (x + y) else x).
Proof.
  intros Hx Hy. destruct D; unfold div_bits in *; simpl flat_adc_when_W;
    simpl flat_sbc_when_W; simpl flat_add_when_W; simpl flat_adc_W;
    simpl flat_sbc_W.
  - unfold flat_adc_when_u32, flat_sbc_when_u32, flat_add_when_u32.
    rewrite flat_mask_from_bit_u32_spec. destruct (Z.odd cond).
    + rewrite (land_all_ones 32) by (lia || assumption).
      change (uint (Z.land (ALL_ONES 32) 1)) with 1.
      rewrite flat_adc_u32_low_bit, flat_sbc_u32_low_bit. auto.
    + change (uint (Z.land 0 1)) with 0.
      rewrite !Z.land_0_r, Z.add_0_r.
      rewrite flat_adc_u32_zero, flat_sbc_u32_zero by assumption.
      repeat split. apply wrap_small. assumption.
  - unfold flat_adc_when_u64, flat_sbc_when_u64, flat_add_when_u64.
    rewrite flat_mask_from_bit_u64_spec. destruct (Z.odd cond).
    + rewrite (land_all_ones 64) by (lia || assumption).
      change (uint (Z.land (ALL_ONES 64) 1)) with 1.
      rewrite flat_adc_u64_low_bit, flat_sbc_u64_low_bit. auto.
    + change (uint (Z.land 0 1)) with 0.
      rewrite !Z.land_0_r, Z.add_0_r.
      rewrite flat_adc_u64_zero, flat_sbc_u64_zero by assumption.
      repeat split. apply wrap_small. assumption.
Qed.

Lemma flat_arith_when_gated_witness :
  flat_adc_when_W D32 2 4294967295 1 1 = (4294967295, 0).
Proof.
  refine (proj1 (flat_arith_when_gated D32 2 4294967295 1 1 _ _));
    unfold word, div_bits; lia.
Defined.

(** X5.  Carries and borrows chain across limbs: feeding the carry of the
    low limbs into the high limbs adds two-limb numbers exactly, and the
    same chain of [flat_sbc] subtracts them. *)
Theorem flat_adc_sbc_two_limbs (D : div_width) (x0 x1 y0 y1 : Z) :
  word (div_bits D) x0 -> word (div_bits D) x1 ->
  word (div_bits D) y0 -> word (div_bits D) y1 ->
  let B := 2 ^ div_bits D in
  let lo := flat_adc_W D x0 y0 0 in
  let hi := flat_adc_W D x1 y1 (snd lo) in
  let dlo := flat_sbc_W D x0 y0 0 in
  let dhi := flat_sbc_W D x1 y1 (snd dlo) in
  (x0 + x1 * B) + (y0 + y1 * B) = fst lo + fst hi * B + snd hi * (B * B)
  /\ (x0 + x1 * B) - (y0 + y1 * B)
     = fst dlo + fst dhi * B - snd dhi * (B * B).
Proof.
  intros Hx0 Hx1 Hy0 Hy1 B lo hi dlo dhi.
  destruct (adc_W_sum_carry D x0 y0 0 Hx0 Hy0) as (_ & Hc0 & E0).
  destruct (adc_W_sum_carry D x1 y1 (snd lo) Hx1 Hy1) as (_ & _ & E1).
  destruct (sbc_W_difference_borrow D x0 y0 0 Hx0 Hy0)
    as (_ & Hb0 & F0).
  destruct (sbc_W_difference_borrow D x1 y1 (snd dlo) Hx1 Hy1)
    as (_ & _ & F1).
  fold lo in Hc0, E0. fold hi in E1. fold dlo in Hb0, F0. fold dhi in F1.
  fold B in E0, E1, F0, F1. change (Z.land 0 1) with 0 in *.
  assert (Z.land (snd lo) 1 = snd lo) as Hl
    by (destruct Hc0 as [-> | ->]; reflexivity).
  assert (Z.land (snd dlo) 1 = snd dlo) as Hd
    by (destruct Hb0 as [-> | ->]; reflexivity).
  rewrite Hl in E1. rewrite Hd in F1. split; nia.
Qed.

Lemma flat_adc_sbc_two_limbs_witness :
  (4294967295 + 1 * 2 ^ div_bits D32) + (1 + 0 * 2 ^ div_bits D32)
  = fst (flat_adc_W D32 4294967295 1 0)
    + fst (flat_adc_W D32 1 0 (snd (flat_adc_W D32 4294967295 1 0)))
      * 2 ^ div_bits D32
    + snd (flat_adc_W D32 1 0 (snd (flat_adc_W D32 4294967295 1 0)))
      * (2 ^ div_bits D32 * 2 ^ div_bits D32).
Proof.
  refine (proj1 (flat_adc_sbc_two_limbs D32 4294967295 1 1 0 _ _ _ _));
    unfold word, div_bits; lia.
Defined.

(** ** Min, max, clamp *)

Lemma lxor_cancel_l a b : Z.lxor a (Z.lxor a b) = b.
Proof. rewrite <- Z.lxor_assoc, Z.lxor_nilpotent. apply Z.lxor_0_l. Qed.

Lemma lxor_cancel_r a b : Z.lxor b (Z.lxor a b) = a.
Proof. rewrite (Z.lxor_comm a b). apply lxor_cancel_l. Qed.

Section MinMaxShape.
Variable w : Z.
Hypothesis w_pos : 0 < w.
Variables a b : Z.
Hypothesis a_word : word w a.
Hypothesis b_word : word w b.

Lemma min_shape :
  Z.lxor b (Z.land (Z.lxor a b) (if a <? b then ALL_ONES w else 0)) = Z.min a b.
Proof.
  destruct (Z.ltb_spec a b).
  - rewrite (land_all_ones w w_pos) by (apply word_lxor; assumption).
    rewrite lxor_cancel_r. lia.
  - rewrite Z.land_0_r, Z.lxor_0_r. lia.
Qed.

Lemma max_shape :
  Z.lxor a (Z.land (Z.lxor a b) (if a <? b then ALL_ONES w else 0)) = Z.max a b.
Proof.
  destruct (Z.ltb_spec a b).
  - rewrite (land_all_ones w w_pos) by (apply word_lxor; assumption).
    rewrite lxor_cancel_l. lia.
  - rewrite Z.land_0_r, Z.lxor_0_r. lia.
Qed.
End MinMaxShape.

Lemma flat_min_W_spec O a b :
  word (ord_bits O) a -> word (ord_bits O) b -> flat_min_W O a b = Z.min a b.
Proof.
  intros Ha Hb. destruct O; unfold flat_min_W, ord_bits in *.
  - unfold flat_min_u32. rewrite flat_mask_lt_u32_spec by assumption.
    apply (min_shape 32); (lia || assumption).
  - unfold flat_min_u64. rewrite flat_mask_lt_u64_spec by assumption.
    apply (min_shape 64); (lia || assumption).
  - apply flat_min_sz_spec; assumption.
Qed.

Lemma flat_max_W_spec O a b :
  word (ord_bits O) a -> word (ord_bits O) b -> flat_max_W O a b = Z.max a b.
Proof.
  intros Ha Hb. destruct O; unfold flat_max_W, ord_bits in *.
  - unfold flat_max_u32. rewrite flat_mask_lt_u32_spec by assumption.
    apply (max_shape 32); (lia || assumption).
  - unfold flat_max_u64. rewrite flat_mask_lt_u64_spec by assumption.
    apply (max_shape 64); (lia || assumption).
  - unfold flat_max_sz. rewrite flat_mask_lt_sz_spec by assumption.
    apply (max_shape SIZE_BITS); (assumption || (unfold SIZE_BITS; lia)).
Qed.

Lemma flat_clamp_W_unfold O x lo hi :
  flat_clamp_W O x lo hi = flat_min_W O (flat_max_W O x lo) hi.
Proof. destruct O; reflexivity. Qed.

(** X6.  [flat_min_W] and [flat_max_W] are the unsigned minimum and
    maximum.  [flat_clamp_W(x, lo, hi)] is [min(max(x, lo), hi)]: for
    [lo <= hi] it lies in [lo, hi] and leaves an [x] already in that range
    unchanged; for [lo > hi] it is [hi]. *)
Theorem flat_min_max_clamp (O : ord_width) (x lo hi : Z) :
  word (ord_bits O) x -> word (ord_bits O) lo -> word (ord_bits O) hi ->
  flat_min_W O x lo = Z.min x lo
  /\ flat_max_W O x lo = Z.max x lo
  /\ flat_clamp_W O x lo hi = Z.min (Z.max x lo) hi
  /\ (lo <= hi -> lo <= flat_clamp_W O x lo hi <= hi)
  /\ (lo <= x <= hi -> flat_clamp_W O x lo hi = x)
  /\ (hi < lo -> flat_clamp_W O x lo hi = hi).
Proof.
  intros Hx Hlo Hhi.
  assert (flat_clamp_W O x lo hi = Z.min (Z.max x lo) hi) as Hc.
  { rewrite flat_clamp_W_unfold, flat_max_W_spec by assumption.
    apply flat_min_W_spec; [| assumption]. unfold word in *. lia. }
  rewrite Hc, flat_min_W_spec, flat_max_W_spec by assumption.
  repeat split; intros; lia.
Qed.

Lemma flat_min_max_clamp_witness :
  flat_clamp_W O32 5 10 20 = Z.min (Z.max 5 10) 20.
Proof.
  refine (proj1 (proj2 (proj2 (flat_min_max_clamp O32 5 10 20 _ _ _))));
    unfold word, ord_bits; lia.
Defined.

(** ** Conditional swap, zero and move *)

(** X7.  [flat_cswap32/64] exchanges the two words exactly when the low
    bit of [cond] is set and otherwise leaves both as they were. *)
Theorem flat_cswap_swaps_iff_low_bit (D : div_width) (cond a b : Z) :
  word (div_bits D) a -> word (div_bits D) b ->
  flat_cswap_W D cond a b = if Z.odd cond then (b, a) else (a, b).
Proof.
  intros Ha Hb. destruct D; unfold flat_cswap_W, div_bits in *.
  - unfold flat_cswap32. rewrite flat_mask_from_bit_u32_spec.
    destruct (Z.odd cond).
    + rewrite (land_all_ones 32) by (lia || (apply word_lxor; (lia || assumption))).
      now rewrite lxor_cancel_l, lxor_cancel_r.
    + now rewrite Z.land_0_r, !Z.lxor_0_r.
  - unfold flat_cswap64. rewrite flat_mask_from_bit_u64_spec.
    destruct (Z.odd cond).
    + rewrite (land_all_ones 64) by (lia || (apply word_lxor; (lia || assumption))).
      now rewrite lxor_cancel_l, lxor_cancel_r.
    + now rewrite Z.land_0_r, !Z.lxor_0_r.
Qed.

Lemma flat_cswap_swaps_iff_low_bit_witness :
  flat_cswap_W D64 3 9 18446744073709551615 = (18446744073709551615, 9).
Proof.
  refine (flat_cswap_swaps_iff_low_bit D64 3 9 18446744073709551615 _ _);
    unfold word, div_bits; lia.
Defined.

Section WhenShape.
Variable w : Z.
Hypothesis w_pos : 0 < w.

Lemma zero_when_shape (c : bool) x :
  word w x ->
  Z.land x (wrap w (Z.lnot (if c then ALL_ONES w else 0)))
  = if c then 0 else x.
Proof.
  intros Hx. destruct c.
  - rewrite wrap_lnot by (apply all_ones_word; assumption).
    rewrite Z.sub_diag. apply Z.land_0_r.
  - change (Z.lnot 0) with (-1). rewrite (wrap_minus_one w w_pos).
    apply land_all_ones; assumption.
Qed.

Lemma mov_when_shape (c : bool) dst src :
  word w dst -> word w src ->
  let m := if c then ALL_ONES w else 0 in
  Z.lor (Z.land dst (wrap w (Z.lnot m))) (Z.land src m)
  = if c then src else dst.
Proof.
  intros Hd Hs m. unfold m. rewrite zero_when_shape by assumption.
  destruct c.
  - rewrite Z.lor_0_l. apply land_all_ones; assumption.
  - rewrite Z.land_0_r. apply Z.lor_0_r.
Qed.
End WhenShape.

(** X8.  [flat_zero_when_W] clears the word and [flat_mov_when_W] assigns
    [src] exactly when the low bit of [cond] is set; otherwise the word
    keeps its value. *)
Theorem flat_zero_mov_when_gated (O : ord_width) (cond x src : Z) :
  word (ord_bits O) x -> word (ord_bits O) src ->
  flat_zero_when_W O cond x = (if Z.odd cond then 0 else x)
  /\ flat_mov_when_W O cond x src = (if Z.odd cond then src else x).
Proof.
  intros Hx Hs. destruct O; unfold flat_zero_when_W, flat_mov_when_W, ord_bits in *.
  - unfold flat_zero_when_u32, flat_mov_when_u32.
    rewrite flat_mask_from_bit_u32_spec. split.
    + apply (zero_when_shape 32); (lia || assumption).
    + apply (mov_when_shape 32); (lia || assumption).
  - unfold flat_zero_when_u64, flat_mov_when_u64.
    rewrite flat_mask_from_bit_u64_spec. split.
    + apply (zero_when_shape 64); (lia || assumption).
    + apply (mov_when_shape 64); (lia || assumption).
  - unfold flat_zero_when_sz, flat_mov_when_sz.
    rewrite flat_mask_from_bit_sz_spec. split.
    + apply (zero_when_shape SIZE_BITS); (assumption || (unfold SIZE_BITS; lia)).
    + apply (mov_when_shape SIZE_BITS); (assumption || (unfold SIZE_BITS; lia)).
Qed.

Lemma flat_zero_mov_when_gated_witness :
  flat_zero_when_W O32 1 77 = 0 /\ flat_mov_when_W O32 0 77 5 = 77.
Proof.
  assert (word (ord_bits O32) 77 /\ word (ord_bits O32) 5) as [H1 H2]
    by (unfold word, ord_bits; lia).
  exact (conj (proj1 (flat_zero_mov_when_gated O32 1 77 5 H1 H2))
              (proj2 (flat_zero_mov_when_gated O32 0 77 5 H1 H2))).
Defined.

(** ** Sorting network *)

Lemma flat_sort2_u32_spec a b :
  word 32 a -> word 32 b -> flat_sort2_u32 a b = (Z.min a b, Z.max a b).
Proof.
  intros Ha Hb. unfold flat_sort2_u32.
  rewrite flat_mask_lt_u32_spec by assumption.
  destruct (Z.ltb_spec b a).
  - rewrite (land_all_ones 32) by (lia || (apply word_lxor; (lia || assumption))).
    rewrite lxor_cancel_l, lxor_cancel_r. f_equal; lia.
  - rewrite Z.land_0_r, !Z.lxor_0_r. f_equal; lia.
Qed.

Lemma perm_min_max x y : [Z.min x y; Z.max x y] ≡ₚ [x; y].
Proof.
  destruct (Z.le_gt_cases x y).
  - rewrite Z.min_l, Z.max_r by lia. reflexivity.
  - rewrite Z.min_r, Z.max_l by lia. apply perm_swap.
Qed.

Lemma perm4_01 a b c d : [Z.min a b; Z.max a b; c; d] ≡ₚ [a; b; c; d].
Proof. apply (Permutation_app_tail [c; d] (perm_min_max a b)). Qed.

Lemma perm4_23 a b c d : [a; b; Z.min c d; Z.max c d] ≡ₚ [a; b; c; d].
Proof. apply (Permutation_app_head [a; b] (perm_min_max c d)). Qed.

Lemma perm4_12 a b c d : [a; Z.min b c; Z.max b c; d] ≡ₚ [a; b; c; d].
Proof.
  apply perm_skip. apply (Permutation_app_tail [d] (perm_min_max b c)).
Qed.

Lemma perm4_02 a b c d : [Z.min a c; b; Z.max a c; d] ≡ₚ [a; b; c; d].
Proof.
  transitivity [b; Z.min a c; Z.max a c; d]; [apply perm_swap |].
  transitivity [b; a; c; d]; [apply perm4_12 | apply perm_swap].
Qed.

Lemma perm4_13 a b c d : [a; Z.min b d; c; Z.max b d] ≡ₚ [a; b; c; d].
Proof.
  apply perm_skip.
  transitivity [c; Z.min b d; Z.max b d]; [apply perm_swap |].
  transitivity [c; b; d];
    [apply perm_skip, perm_min_max | apply perm_swap].
Qed.

Lemma sort2_at_spec v i j x y :
  ld v i = x -> ld v j = y -> word 32 x -> word 32 y ->
  sort2_at v i j = st (st v i (Z.min x y)) j (Z.max x y).
Proof.
  intros <- <- Hx Hy. unfold sort2_at.
  rewrite (flat_sort2_u32_spec _ _ Hx Hy). reflexivity.
Qed.

Lemma flat_sort4_u32_explicit a b c d :
  words 32 [a; b; c; d] ->
  let a1 := Z.min a b in let b1 := Z.max a b in
  let c1 := Z.min c d in let d1 := Z.max c d in
  let a2 := Z.min a1 c1 in let c2 := Z.max a1 c1 in
  let b2 := Z.min b1 d1 in let d2 := Z.max b1 d1 in
  flat_sort4_u32 [a; b; c; d] = [a2; Z.min b2 c2; Z.max b2 c2; d2].
Proof.
  intros Hw. unfold words in Hw.
  apply Forall_cons in Hw as [Ha Hw]. apply Forall_cons in Hw as [Hb Hw].
  apply Forall_cons in Hw as [Hc Hw]. apply Forall_cons in Hw as [Hd _].
  intros a1 b1 c1 d1 a2 c2 b2 d2.
  assert (word 32 a1 /\ word 32 b1 /\ word 32 c1 /\ word 32 d1)
    as (Ha1 & Hb1 & Hc1 & Hd1)
    by (unfold word, a1, b1, c1, d1 in *; lia).
  assert (word 32 a2 /\ word 32 b2 /\ word 32 c2 /\ word 32 d2)
    as (Ha2 & Hb2 & Hc2 & Hd2)
    by (unfold word, a2, b2, c2, d2 in *; lia).
  unfold flat_sort4_u32.
  rewrite (sort2_at_spec [a; b; c; d] 0 1 a b eq_refl eq_refl Ha Hb).
  change (st (st [a; b; c; d] 0 (Z.min a b)) 1 (Z.max a b))
    with [a1; b1; c; d].
  rewrite (sort2_at_spec [a1; b1; c; d] 2 3 c d eq_refl eq_refl Hc Hd).
  change (st (st [a1; b1; c; d] 2 (Z.min c d)) 3 (Z.max c d))
    with [a1; b1; c1; d1].
  rewrite (sort2_at_spec [a1; b1; c1; d1] 0 2 a1 c1 eq_refl eq_refl Ha1 Hc1).
  change (st (st [a1; b1; c1; d1] 0 (Z.min a1 c1)) 2 (Z.max a1 c1))
    with [a2; b1; c2; d1].
  rewrite (sort2_at_spec [a2; b1; c2; d1] 1 3 b1 d1 eq_refl eq_refl Hb1 Hd1).
  change (st (st [a2; b1; c2; d1] 1 (Z.min b1 d1)) 3 (Z.max b1 d1))
    with [a2; b2; c2; d2].
  rewrite (sort2_at_spec [a2; b2; c2; d2] 1 2 b2 c2 eq_refl eq_refl Hb2 Hc2).
  reflexivity.
Qed.

(** X9.  [flat_sort2_u32] puts the smaller word first; [flat_sort4_u32]
    leaves its four-element array in non-decreasing order, and the
    result is a rearrangement of the input. *)
Theorem flat_sort4_u32_sorts (a b c d : Z) :
  words 32 [a; b; c; d] ->
  flat_sort2_u32 a b = (Z.min a b, Z.max a b)
  /\ exists r0 r1 r2 r3,
       flat_sort4_u32 [a; b; c; d] = [r0; r1; r2; r3]
       /\ r0 <= r1 /\ r1 <= r2 /\ r2 <= r3
       /\ [r0; r1; r2; r3] ≡ₚ [a; b; c; d].
Proof.
  intros Hw. split.
  { unfold words in Hw. apply Forall_cons in Hw as [Ha Hw].
    apply Forall_cons in Hw as [Hb _]. apply flat_sort2_u32_spec; assumption. }
  rewrite (flat_sort4_u32_explicit a b c d Hw). cbv zeta.
  eexists _, _, _, _. split; [reflexivity |].
  split; [lia |]. split; [lia |]. split; [lia |].
  etransitivity; [apply perm4_12 |].
  etransitivity; [apply perm4_13 |].
  etransitivity; [apply perm4_02 |].
  etransitivity; [apply perm4_23 |]. apply perm4_01.
Qed.

Lemma flat_sort4_u32_sorts_witness :
  exists r0 r1 r2 r3,
    flat_sort4_u32 [7; 4; 9; 1] = [r0; r1; r2; r3]
    /\ r0 <= r1 /\ r1 <= r2 /\ r2 <= r3
    /\ [r0; r1; r2; r3] ≡ₚ [7; 4; 9; 1].
Proof.
  refine (proj2 (flat_sort4_u32_sorts 7 4 9 1 _)).
  repeat constructor; unfold word; lia.
Defined.

(** ** In-place loops over buffers *)

(** A loop that rewrites [d[i]] from its own value, for [i < len]. *)
Lemma for_up_update (F : Z -> Z -> Z) (dst : list Z) (len : Z) :
  0 <= len <= Z.of_nat (length dst) ->
  forall j : nat,
    for_up len (fun i d => st d i (F i (ld d i))) dst !! j
    = if decide (Z.of_nat j < len)
      then F (Z.of_nat j) <$> dst !! j else dst !! j.
Proof.
  intros Hlen.
  refine (for_up_ind
            (fun i d => forall j : nat,
                 d !! j = if decide (Z.of_nat j < i)
                          then F (Z.of_nat j) <$> dst !! j else dst !! j)
            len (fun i d => st d i (F i (ld d i))) dst _ _ _); [lia | |].
  - intros j. rewrite decide_False by lia. reflexivity.
  - intros i d Hi Hinv j.
    destruct (lookup_lt_is_Some_2 dst (Z.to_nat i)) as [y Hy]; [lia |].
    pose proof (Hinv (Z.to_nat i)) as Hcur.
    rewrite decide_False, Hy in Hcur by lia.
    unfold st. rewrite list_lookup_insert.
    destruct (decide (Z.to_nat i = j /\ (Z.to_nat i < length d)%nat))
      as [[<- _] | Hno].
    + rewrite decide_True by lia. rewrite Hy. simpl.
      unfold ld. rewrite Hcur. simpl. rewrite Z2Nat.id by lia. reflexivity.
    + assert (Z.to_nat i <> j) as Hne.
      { intros <-. apply Hno. split; trivial.
        apply (lookup_lt_Some _ _ _ Hcur). }
      rewrite Hinv.
      destruct (decide (Z.of_nat j < i)), (decide (Z.of_nat j < i + 1));
        trivial; lia.
Qed.

Lemma for_up_update_length (F : Z -> Z -> Z) (dst : list Z) (len : Z) :
  0 <= len ->
  length (for_up len (fun i d => st d i (F i (ld d i))) dst) = length dst.
Proof.
  intros Hlen.
  apply (for_up_ind (fun _ d => length d = length dst)); [lia | reflexivity |].
  intros i d _ Hd. unfold st. rewrite length_insert. exact Hd.
Qed.

(** The result of such a loop, given pointwise. *)
Lemma for_up_update_eq (F : Z -> Z -> Z) (dst res : list Z) (len : Z) :
  0 <= len <= Z.of_nat (length dst) ->
  length res = length dst ->
  (forall (j : nat) x, dst !! j = Some x ->
     res !! j = Some (if decide (Z.of_nat j < len) then F (Z.of_nat j) x else x)) ->
  for_up len (fun i d => st d i (F i (ld d i))) dst = res.
Proof.
  intros Hlen Hl Hpt. apply list_eq. intros j.
  rewrite for_up_update by assumption.
  destruct (dst !! j) as [x |] eqn:Hx.
  - rewrite (Hpt j x Hx). destruct (decide (Z.of_nat j < len)); reflexivity.
  - assert (res !! j = None) as ->.
    { apply lookup_ge_None. rewrite Hl. apply lookup_ge_None. exact Hx. }
    destruct (decide (Z.of_nat j < len)); reflexivity.
Qed.

(** A loop combining [d[i]] with [src[i]]: the first [len] elements are
    combined, the others are kept. *)
Lemma for_up_zip (w : Z) (g' g : Z -> Z -> Z) (dst src : list Z) (len : Z) :
  words w dst -> words w src ->
  (forall x s, word w x -> word w s -> g' x s = g x s) ->
  0 <= len <= Z.of_nat (length dst) -> len <= Z.of_nat (length src) ->
  for_up len (fun i d => st d i (g' (ld d i) (ld src i))) dst
  = zip_with g (take (Z.to_nat len) dst) (take (Z.to_nat len) src)
    ++ drop (Z.to_nat len) dst.
Proof.
  intros Hd Hs Hg Hld Hls.
  apply (for_up_update_eq (fun i x => g' x (ld src i))); [lia | |].
  - rewrite length_app, length_zip_with, !length_take, length_drop. lia.
  - intros j x Hx.
    pose proof (lookup_lt_Some _ _ _ Hx) as Hj.
    assert (word w x) as Hwx
      by (unfold words in Hd; rewrite Forall_lookup in Hd; exact (Hd _ _ Hx)).
    destruct (decide (Z.of_nat j < len)) as [Hlt | Hge].
    + destruct (lookup_lt_is_Some_2 src j) as [y Hy]; [lia |].
      assert (word w y) as Hwy
        by (unfold words in Hs; rewrite Forall_lookup in Hs; exact (Hs _ _ Hy)).
      rewrite lookup_app_l
        by (rewrite length_zip_with, !length_take; lia).
      rewrite lookup_zip_with, !lookup_take, !decide_True, Hx, Hy by lia.
      simpl. rewrite (ld_lookup src (Z.of_nat j) y)
        by (lia || (rewrite Nat2Z.id; exact Hy)).
      rewrite Hg by assumption. reflexivity.
    + rewrite lookup_app_r
        by (rewrite length_zip_with, !length_take; lia).
      rewrite length_zip_with, !length_take, lookup_drop.
      rewrite <- Hx. f_equal. lia.
Qed.

Lemma zip_with_words w (g : Z -> Z -> Z) (l k : list Z) :
  (forall x y, word w x -> word w y -> word w (g x y)) ->
  words w l -> words w k -> words w (zip_with g l k).
Proof.
  intros Hg Hl. revert k. induction Hl as [| x l Hx Hl IH]; intros k Hk.
  - constructor.
  - destruct Hk as [| y k Hy Hk]; simpl; constructor; auto. apply IH, Hk.
Qed.

Lemma words_take w n l : words w l -> words w (take n l).
Proof. apply Forall_take. Qed.

Lemma words_drop w n l : words w l -> words w (drop n l).
Proof. apply Forall_drop. Qed.

Lemma zip_with_lxor_involutive (l k : list Z) :
  length l = length k -> zip_with Z.lxor (zip_with Z.lxor l k) k = l.
Proof.
  revert k. induction l as [| x l IH]; intros [| y k] Hlen;
    simpl in *; try discriminate; trivial.
  rewrite Z.lxor_assoc, Z.lxor_nilpotent, Z.lxor_0_r. f_equal.
  apply IH. congruence.
Qed.

Lemma zip_with_left (l k : list Z) :
  length l = length k -> zip_with (fun x _ => x) l k = l.
Proof.
  revert k. induction l as [| x l IH]; intros [| y k] Hlen;
    simpl in *; try discriminate; trivial. f_equal. apply IH. congruence.
Qed.

Lemma zip_with_right (l k : list Z) :
  length l = length k -> zip_with (fun _ y => y) l k = k.
Proof.
  revert k. induction l as [| x l IH]; intros [| y k] Hlen;
    simpl in *; try discriminate; trivial. f_equal. apply IH. congruence.
Qed.

(** A loop that rewrites [a[i]] and [b[i]] from both old values. *)
Lemma for_up_zip2 (w : Z) (ga' gb' ga gb : Z -> Z -> Z) (a b : list Z) (len : Z) :
  words w a -> words w b ->
  (forall x y, word w x -> word w y -> ga' x y = ga x y /\ gb' x y = gb x y) ->
  0 <= len <= Z.of_nat (length a) -> len <= Z.of_nat (length b) ->
  for_up len
    (fun i '(a, b) =>
       (st a i (ga' (ld a i) (ld b i)), st b i (gb' (ld a i) (ld b i))))
    (a, b)
  = (zip_with ga (take (Z.to_nat len) a) (take (Z.to_nat len) b)
       ++ drop (Z.to_nat len) a,
     zip_with gb (take (Z.to_nat len) a) (take (Z.to_nat len) b)
       ++ drop (Z.to_nat len) b).
Proof.
  intros Ha Hb Hg Hla Hlb.
  refine (for_up_ind
            (fun i (s : list Z * list Z) =>
               s = (zip_with ga (take (Z.to_nat i) a) (take (Z.to_nat i) b)
                      ++ drop (Z.to_nat i) a,
                    zip_with gb (take (Z.to_nat i) a) (take (Z.to_nat i) b)
                      ++ drop (Z.to_nat i) b))
            len _ (a, b) _ _ _); [lia | reflexivity |].
  intros i s Hi ->.
  destruct (lookup_lt_is_Some_2 a (Z.to_nat i)) as [x Hx]; [lia |].
  destruct (lookup_lt_is_Some_2 b (Z.to_nat i)) as [y Hy]; [lia |].
  assert (word w x) as Hwx
    by (unfold words in Ha; rewrite Forall_lookup in Ha; exact (Ha _ _ Hx)).
  assert (word w y) as Hwy
    by (unfold words in Hb; rewrite Forall_lookup in Hb; exact (Hb _ _ Hy)).
  set (k := Z.to_nat i) in *.
  replace (Z.to_nat (i + 1)) with (Datatypes.S k) by lia.
  assert (forall g : Z -> Z -> Z,
            length (zip_with g (take k a) (take k b)) = k) as Hlz
    by (intros g; rewrite length_zip_with, !length_take; lia).
  assert (forall (g : Z -> Z -> Z) l z,
            l !! k = Some z ->
            ld (zip_with g (take k a) (take k b) ++ drop k l) i = z) as Hld.
  { intros g l z Hz. unfold ld. fold k.
    rewrite lookup_app_r by (rewrite Hlz; lia).
    rewrite Hlz, Nat.sub_diag, lookup_drop, Nat.add_0_r, Hz. reflexivity. }
  assert (forall (g : Z -> Z -> Z) l z v,
            l !! k = Some z ->
            st (zip_with g (take k a) (take k b) ++ drop k l) i v
            = (zip_with g (take k a) (take k b) ++ [v]) ++ drop (Datatypes.S k) l)
    as Hst.
  { intros g l z v Hz. unfold st. fold k.
    rewrite insert_app_r_alt by (rewrite Hlz; lia).
    rewrite Hlz, Nat.sub_diag, (drop_S l z k Hz). simpl.
    rewrite <- app_assoc. reflexivity. }
  rewrite (Hld ga a x Hx), (Hld gb b y Hy).
  rewrite (Hst ga a x _ Hx), (Hst gb b y _ Hy).
  destruct (Hg x y Hwx Hwy) as [-> ->].
  rewrite (take_S_r a k x Hx), (take_S_r b k y Hy).
  rewrite !zip_with_app by (rewrite !length_take; lia). reflexivity.
Qed.

Section ElemShapes.
Variable w : Z.
Hypothesis w_pos : 0 < w.
Variable outer : Z -> Z.
Hypothesis outer_id : forall x, word w x -> outer x = x.

Lemma xor_elem x s : word w x -> word w s -> outer (Z.lxor x s) = Z.lxor x s.
Proof. intros Hx Hs. apply outer_id, word_lxor; assumption. Qed.

Lemma xor_when_elem (c : bool) x s :
  word w x -> word w s ->
  outer (Z.lxor x (outer (Z.land s (if c then ALL_ONES w else 0))))
  = if c then Z.lxor x s else x.
Proof.
  intros Hx Hs. destruct c.
  - rewrite (land_all_ones w w_pos s Hs), (outer_id s Hs). apply xor_elem; assumption.
  - rewrite Z.land_0_r, (outer_id 0)
      by (unfold word; pose proof (pow2_pos w w_pos); lia).
    rewrite Z.lxor_0_r. apply outer_id, Hx.
Qed.

Lemma copy_when_elem (c : bool) d s :
  word w d -> word w s ->
  let m := if c then ALL_ONES w else 0 in
  outer (Z.lor (Z.land s m) (Z.land d (wrap w (Z.lnot m))))
  = if c then s else d.
Proof.
  intros Hd Hs. cbv zeta. rewrite (select_shape w w_pos c s d Hs Hd).
  apply outer_id. destruct c; assumption.
Qed.

Lemma swap_elems (c : bool) x y :
  word w x -> word w y ->
  let t := outer (Z.land (Z.lxor x y) (if c then ALL_ONES w else 0)) in
  outer (Z.lxor x t) = (if c then y else x)
  /\ outer (Z.lxor y t) = (if c then x else y).
Proof.
  intros Hx Hy. cbv zeta. destruct c.
  - rewrite (land_all_ones w w_pos) by (apply word_lxor; assumption).
    rewrite (xor_elem x y Hx Hy), lxor_cancel_l, lxor_cancel_r.
    split; apply outer_id; assumption.
  - rewrite Z.land_0_r, (outer_id 0)
      by (unfold word; pose proof (pow2_pos w w_pos); lia).
    rewrite !Z.lxor_0_r. split; apply outer_id; assumption.
Qed.
End ElemShapes.

Lemma take_drop_zip_left (l k : list Z) n :
  (n <= length l)%nat -> (n <= length k)%nat ->
  zip_with (fun x _ => x) (take n l) (take n k) ++ drop n l = l.
Proof.
  intros Hl Hk. rewrite zip_with_left by (rewrite !length_take; lia).
  apply take_drop.
Qed.

Lemma take_drop_zip_right (l k : list Z) n :
  (n <= length l)%nat -> (n <= length k)%nat ->
  zip_with (fun _ y => y) (take n l) (take n k) ++ drop n l
  = take n k ++ drop n l.
Proof.
  intros Hl Hk. rewrite zip_with_right by (rewrite !length_take; lia).
  reflexivity.
Qed.

Lemma mask_from_bit_elem E cond :
  match E with
  | E8 => flat_mask_from_bit_u8 cond
  | E16 => flat_mask_from_bit_u16 cond
  | E32 => flat_mask_from_bit_u32 cond
  | E64 => flat_mask_from_bit_u64 cond
  end = if Z.odd cond then ALL_ONES (elem_bits E) else 0.
Proof.
  destruct E; simpl.
  - apply flat_mask_from_bit_u8_spec.
  - apply flat_mask_from_bit_u16_spec.
  - apply flat_mask_from_bit_u32_spec.
  - apply flat_mask_from_bit_u64_spec.
Qed.

Lemma elem_bits_pos E : 0 < elem_bits E.
Proof. destruct E; simpl; lia. Qed.

Lemma flat_memxor_W_spec E dst src n :
  words (elem_bits E) dst -> words (elem_bits E) src ->
  0 <= n <= Z.of_nat (length dst) -> n <= Z.of_nat (length src) ->
  flat_memxor_W E dst src n
  = zip_with Z.lxor (take (Z.to_nat n) dst) (take (Z.to_nat n) src)
    ++ drop (Z.to_nat n) dst.
Proof.
  intros Hd Hs Hld Hls.
  destruct E; simpl in Hd, Hs;
    [ apply (for_up_zip 8 (fun x s => wrap 8 (Z.lxor x s)))
    | apply (for_up_zip 16 (fun x s => wrap 16 (Z.lxor x s)))
    | apply (for_up_zip 32 (fun x s => Z.lxor x s))
    | apply (for_up_zip 64 (fun x s => Z.lxor x s)) ];
    try assumption; intros x s Hx Hs'; try reflexivity;
    apply wrap_small, word_lxor; (lia || assumption).
Qed.

(** X10.  [flat_memxor] and its typed variants XOR the first [n] elements
    of [src] into [dst] and leave the rest of [dst] untouched; applying
    the same XOR twice restores [dst]. *)
Theorem flat_memxor_elementwise_involutive (E : elem_width) (dst src : list Z) (n : Z) :
  words (elem_bits E) dst -> words (elem_bits E) src ->
  0 <= n <= Z.of_nat (length dst) -> n <= Z.of_nat (length src) ->
  flat_memxor_W E dst src n
  = zip_with Z.lxor (take (Z.to_nat n) dst) (take (Z.to_nat n) src)
    ++ drop (Z.to_nat n) dst
  /\ flat_memxor_W E (flat_memxor_W E dst src n) src n = dst.
Proof.
  intros Hd Hs Hld Hls.
  pose proof (flat_memxor_W_spec E dst src n Hd Hs Hld Hls) as H1.
  split; [exact H1 |].
  set (k := Z.to_nat n) in *.
  assert (length (zip_with Z.lxor (take k dst) (take k src)) = k) as Hlz
    by (rewrite length_zip_with, !length_take; lia).
  rewrite flat_memxor_W_spec; rewrite ?H1; fold k; trivial.
  - rewrite take_app_length', drop_app_length' by (symmetry; exact Hlz).
    rewrite zip_with_lxor_involutive by (rewrite !length_take; lia).
    apply take_drop.
  - apply Forall_app. split; [| apply words_drop, Hd].
    apply zip_with_words; try (apply words_take; assumption).
    intros x y Hx Hy. apply word_lxor; trivial. apply elem_bits_pos.
  - rewrite length_app, Hlz, length_drop. lia.
Qed.

Lemma flat_memxor_elementwise_involutive_witness :
  flat_memxor_W E8 (flat_memxor_W E8 [1; 2; 3] [255; 7] 2) [255; 7] 2 = [1; 2; 3].
Proof.
  refine (proj2 (flat_memxor_elementwise_involutive E8 [1; 2; 3] [255; 7] 2
                   _ _ _ _)); try (simpl; lia);
    repeat constructor; unfold word; simpl; lia.
Defined.

Lemma wrap_id_on_words w : forall x, word w x -> wrap w x = x.
Proof. intros x Hx. apply wrap_small, Hx. Qed.

Lemma same_id_on_words (w : Z) : forall x : Z, word w x -> (fun y : Z => y) x = x.
Proof. reflexivity. Qed.

Lemma flat_memxor_when_W_spec E cond dst src n :
  words (elem_bits E) dst -> words (elem_bits E) src ->
  0 <= n <= Z.of_nat (length dst) -> n <= Z.of_nat (length src) ->
  flat_memxor_when_W E cond dst src n
  = if Z.odd cond then flat_memxor_W E dst src n else dst.
Proof.
  intros Hd Hs Hld Hls.
  rewrite flat_memxor_W_spec by assumption.
  pose proof (mask_from_bit_elem E cond) as Hm.
  assert (flat_memxor_when_W E cond dst src n
          = zip_with (fun x s => if Z.odd cond then Z.lxor x s else x)
              (take (Z.to_nat n) dst) (take (Z.to_nat n) src)
            ++ drop (Z.to_nat n) dst) as ->.
  { destruct E; simpl in Hd, Hs, Hm;
      unfold flat_memxor_when_W, flat_memxor_when, flat_memxor_when_u16,
        flat_memxor_when_u32, flat_memxor_when_u64; cbv zeta; rewrite Hm.
    - apply (for_up_zip 8
               (fun x s => wrap 8 (Z.lxor x (wrap 8 (Z.land s
                  (if Z.odd cond then ALL_ONES 8 else 0))))));
        try assumption. intros x s Hx Hs'.
      apply (xor_when_elem 8 ltac:(lia) (wrap 8) (wrap_id_on_words 8));
        assumption.
    - apply (for_up_zip 16
               (fun x s => wrap 16 (Z.lxor x (wrap 16 (Z.land s
                  (if Z.odd cond then ALL_ONES 16 else 0))))));
        try assumption. intros x s Hx Hs'.
      apply (xor_when_elem 16 ltac:(lia) (wrap 16) (wrap_id_on_words 16));
        assumption.
    - apply (for_up_zip 32
               (fun x s => Z.lxor x (Z.land s
                  (if Z.odd cond then ALL_ONES 32 else 0))));
        try assumption. intros x s Hx Hs'.
      apply (xor_when_elem 32 ltac:(lia) (fun y => y) (same_id_on_words 32));
        assumption.
    - apply (for_up_zip 64
               (fun x s => Z.lxor x (Z.land s
                  (if Z.odd cond then ALL_ONES 64 else 0))));
        try assumption. intros x s Hx Hs'.
      apply (xor_when_elem 64 ltac:(lia) (fun y => y) (same_id_on_words 64));
        assumption. }
  destruct (Z.odd cond); [reflexivity | apply take_drop_zip_left; lia].
Qed.

(** X11.  [flat_memxor_when] and its typed variants: with the low bit of
    [cond] set they act as [flat_memxor]; with it clear every element of
    [dst] keeps its value. *)
Theorem flat_memxor_when_gated (E : elem_width) (cond : Z) (dst src : list Z) (n : Z) :
  words (elem_bits E) dst -> words (elem_bits E) src ->
  0 <= n <= Z.of_nat (length dst) -> n <= Z.of_nat (length src) ->
  (Z.odd cond = true ->
     flat_memxor_when_W E cond dst src n = flat_memxor_W E dst src n)
  /\ (Z.odd cond = false -> flat_memxor_when_W E cond dst src n = dst).
Proof.
  intros Hd Hs Hld Hls. rewrite flat_memxor_when_W_spec by assumption.
  split; intros ->; reflexivity.
Qed.

Lemma flat_memxor_when_gated_witness :
  flat_memxor_when_W E16 2 [1; 2; 3] [65535; 7; 9] 3 = [1; 2; 3].
Proof.
  refine (proj2 (flat_memxor_when_gated E16 2 [1; 2; 3] [65535; 7; 9] 3
                   _ _ _ _) eq_refl); try (simpl; lia);
    repeat constructor; unfold word; simpl; lia.
Defined.

Lemma flat_memcpy_when_W_spec E cond dst src n :
  words (elem_bits E) dst -> words (elem_bits E) src ->
  0 <= n <= Z.of_nat (length dst) -> n <= Z.of_nat (length src) ->
  flat_memcpy_when_W E cond dst src n
  = if Z.odd cond
    then take (Z.to_nat n) src ++ drop (Z.to_nat n) dst
    else dst.
Proof.
  intros Hd Hs Hld Hls.
  destruct E; [apply flat_memcpy_when_spec; assumption | | |].
  all: match goal with
       | |- flat_memcpy_when_W ?E _ _ _ _ = _ =>
           pose proof (mask_from_bit_elem E cond) as Hm
       end.
  - simpl in Hd, Hs, Hm. unfold flat_memcpy_when_W, flat_memcpy_when_u16.
    cbv zeta. rewrite Hm.
    rewrite (for_up_zip 16
               (fun d s => wrap 16 (Z.lor
                  (Z.land s (if Z.odd cond then ALL_ONES 16 else 0))
                  (Z.land d (wrap 16 (Z.lnot
                     (if Z.odd cond then ALL_ONES 16 else 0))))))
               (fun d s => if Z.odd cond then s else d)); try assumption.
    + destruct (Z.odd cond);
        [apply take_drop_zip_right | apply take_drop_zip_left]; lia.
    + intros d s Hx Hs'.
      apply (copy_when_elem 16 ltac:(lia) (wrap 16) (wrap_id_on_words 16));
        assumption.
  - simpl in Hd, Hs, Hm. unfold flat_memcpy_when_W, flat_memcpy_when_u32.
    cbv zeta. rewrite Hm.
    rewrite (for_up_zip 32
               (fun d s => Z.lor
                  (Z.land s (if Z.odd cond then ALL_ONES 32 else 0))
                  (Z.land d (wrap 32 (Z.lnot
                     (if Z.odd cond then ALL_ONES 32 else 0)))))
               (fun d s => if Z.odd cond then s else d)); try assumption.
    + destruct (Z.odd cond);
        [apply take_drop_zip_right | apply take_drop_zip_left]; lia.
    + intros d s Hx Hs'.
      apply (copy_when_elem 32 ltac:(lia) (fun y => y) (same_id_on_words 32));
        assumption.
  - simpl in Hd, Hs, Hm. unfold flat_memcpy_when_W, flat_memcpy_when_u64.
    cbv zeta. rewrite Hm.
    rewrite (for_up_zip 64
               (fun d s => Z.lor
                  (Z.land s (if Z.odd cond then ALL_ONES 64 else 0))
                  (Z.land d (wrap 64 (Z.lnot
                     (if Z.odd cond then ALL_ONES 64 else 0)))))
               (fun d s => if Z.odd cond then s else d)); try assumption.
    + destruct (Z.odd cond);
        [apply take_drop_zip_right | apply take_drop_zip_left]; lia.
    + intros d s Hx Hs'.
      apply (copy_when_elem 64 ltac:(lia) (fun y => y) (same_id_on_words 64));
        assumption.
Qed.

(** X12.  [flat_memcpy_when] and its typed variants write only the first
    [n] elements: with the low bit of [cond] set they become the first [n]
    elements of [src], the rest of [dst] is kept, and the length never
    changes; any [cond] with a clear low bit leaves [dst] as it was. *)
Theorem flat_memcpy_when_prefix_only (E : elem_width) (cond : Z) (dst src : list Z) (n : Z) :
  words (elem_bits E) dst -> words (elem_bits E) src ->
  0 <= n <= Z.of_nat (length dst) -> n <= Z.of_nat (length src) ->
  flat_memcpy_when_W E cond dst src n
  = (if Z.odd cond
     then take (Z.to_nat n) src ++ drop (Z.to_nat n) dst
     else dst)
  /\ length (flat_memcpy_when_W E cond dst src n) = length dst.
Proof.
  intros Hd Hs Hld Hls. rewrite flat_memcpy_when_W_spec by assumption.
  split; [reflexivity |]. destruct (Z.odd cond); trivial.
  rewrite length_app, length_take, length_drop. lia.
Qed.

Lemma flat_memcpy_when_prefix_only_witness :
  flat_memcpy_when_W E32 1 [1; 2; 3] [4294967295; 7] 2 = [4294967295; 7; 3].
Proof.
  refine (proj1 (flat_memcpy_when_prefix_only E32 1 [1; 2; 3] [4294967295; 7] 2
                   _ _ _ _)); try (simpl; lia);
    repeat constructor; unfold word; simpl; lia.
Defined.

Lemma flat_memswap_when_W_spec E cond a b n :
  words (elem_bits E) a -> words (elem_bits E) b ->
  0 <= n <= Z.of_nat (length a) -> n <= Z.of_nat (length b) ->
  flat_memswap_when_W E cond a b n
  = if Z.odd cond
    then (take (Z.to_nat n) b ++ drop (Z.to_nat n) a,
          take (Z.to_nat n) a ++ drop (Z.to_nat n) b)
    else (a, b).
Proof.
  intros Ha Hb Hla Hlb.
  pose proof (mask_from_bit_elem E cond) as Hm.
  assert (flat_memswap_when_W E cond a b n
          = (zip_with (fun x y => if Z.odd cond then y else x)
               (take (Z.to_nat n) a) (take (Z.to_nat n) b)
               ++ drop (Z.to_nat n) a,
             zip_with (fun x y => if Z.odd cond then x else y)
               (take (Z.to_nat n) a) (take (Z.to_nat n) b)
               ++ drop (Z.to_nat n) b)) as ->.
  { destruct E; simpl in Ha, Hb, Hm;
      unfold flat_memswap_when_W, flat_memswap_when, flat_memswap_when_u16,
        flat_memswap_when_u32, flat_memswap_when_u64; cbv zeta; rewrite Hm.
    - apply (for_up_zip2 8
               (fun x y => wrap 8 (Z.lxor x (wrap 8 (Z.land (Z.lxor x y)
                  (if Z.odd cond then ALL_ONES 8 else 0)))))
               (fun x y => wrap 8 (Z.lxor y (wrap 8 (Z.land (Z.lxor x y)
                  (if Z.odd cond then ALL_ONES 8 else 0))))));
        try assumption. intros x y Hx Hy.
      apply (swap_elems 8 ltac:(lia) (wrap 8) (wrap_id_on_words 8));
        assumption.
    - apply (for_up_zip2 16
               (fun x y => wrap 16 (Z.lxor x (wrap 16 (Z.land (Z.lxor x y)
                  (if Z.odd cond then ALL_ONES 16 else 0)))))
               (fun x y => wrap 16 (Z.lxor y (wrap 16 (Z.land (Z.lxor x y)
                  (if Z.odd cond then ALL_ONES 16 else 0))))));
        try assumption. intros x y Hx Hy.
      apply (swap_elems 16 ltac:(lia) (wrap 16) (wrap_id_on_words 16));
        assumption.
    - apply (for_up_zip2 32
               (fun x y => Z.lxor x (Z.land (Z.lxor x y)
                  (if Z.odd cond then ALL_ONES 32 else 0)))
               (fun x y => Z.lxor y (Z.land (Z.lxor x y)
                  (if Z.odd cond then ALL_ONES 32 else 0))));
        try assumption. intros x y Hx Hy.
      apply (swap_elems 32 ltac:(lia) (fun z => z) (same_id_on_words 32));
        assumption.
    - apply (for_up_zip2 64
               (fun x y => Z.lxor x (Z.land (Z.lxor x y)
                  (if Z.odd cond then ALL_ONES 64 else 0)))
               (fun x y => Z.lxor y (Z.land (Z.lxor x y)
                  (if Z.odd cond then ALL_ONES 64 else 0))));
        try assumption. intros x y Hx Hy.
      apply (swap_elems 64 ltac:(lia) (fun z => z) (same_id_on_words 64));
        assumption. }
  assert (take (Z.to_nat n) b ++ drop (Z.to_nat n) b = b) as Hb' by apply take_drop.
  destruct (Z.odd cond); f_equal.
  - apply take_drop_zip_right; lia.
  - rewrite zip_with_left by (rewrite !length_take; lia). reflexivity.
  - apply take_drop_zip_left; lia.
  - rewrite zip_with_right by (rewrite !length_take; lia). exact Hb'.
Qed.

(** X13.  [flat_memswap_when] and its typed variants, on two buffers of
    [n] elements: with the low bit of [cond] set the contents are
    exchanged, with it clear both buffers keep their contents. *)
Theorem flat_memswap_when_swaps_or_keeps (E : elem_width) (cond : Z) (a b : list Z) (n : Z) :
  words (elem_bits E) a -> words (elem_bits E) b ->
  Z.of_nat (length a) = n -> Z.of_nat (length b) = n ->
  flat_memswap_when_W E cond a b n = if Z.odd cond then (b, a) else (a, b).
Proof.
  intros Ha Hb Hla Hlb. rewrite flat_memswap_when_W_spec by (assumption || lia).
  destruct (Z.odd cond); trivial.
  rewrite !take_ge, !drop_ge, !app_nil_r by lia. reflexivity.
Qed.

Lemma flat_memswap_when_swaps_or_keeps_witness :
  flat_memswap_when_W E8 1 [1; 2] [3; 255] 2 = ([3; 255], [1; 2]).
Proof.
  refine (flat_memswap_when_swaps_or_keeps E8 1 [1; 2] [3; 255] 2 _ _ _ _);
    try reflexivity; repeat constructor; unfold word; simpl; lia.
Defined.

(** ** Store by sweep *)

Lemma flat_store_at_W_spec E arr len idx value :
  words (elem_bits E) arr -> word (elem_bits E) value ->
  Z.of_nat (length arr) = len ->
  word SIZE_BITS len -> word SIZE_BITS idx ->
  flat_store_at_W E arr len idx value
  = if idx <? len then <[Z.to_nat idx := value]> arr else arr.
Proof.
  intros Ha Hv Hlen Hl Hi.
  assert (forall w (outer : Z -> Z),
            0 < w <= SIZE_BITS -> w = elem_bits E ->
            (forall x, word w x -> outer x = x) ->
            for_up len
              (fun i d =>
                 st d i (outer (Z.lor
                   (Z.land value (wrap w (flat_mask_eq_sz i idx)))
                   (Z.land (ld d i)
                      (wrap w (Z.lnot (wrap w (flat_mask_eq_sz i idx))))))))
              arr
            = if idx <? len then <[Z.to_nat idx := value]> arr else arr) as Hgen.
  { intros w outer Hw -> Houter.
    apply (for_up_update_eq
             (fun i x => outer (Z.lor
                (Z.land value (wrap (elem_bits E) (flat_mask_eq_sz i idx)))
                (Z.land x (wrap (elem_bits E)
                   (Z.lnot (wrap (elem_bits E) (flat_mask_eq_sz i idx))))))));
      [lia | destruct (idx <? len); [apply length_insert | reflexivity] |].
    intros j x Hx. pose proof (lookup_lt_Some _ _ _ Hx) as Hj.
    assert (word (elem_bits E) x) as Hwx
      by (unfold words in Ha; rewrite Forall_lookup in Ha; exact (Ha _ _ Hx)).
    rewrite decide_True by lia. unfold word in Hl, Hi.
    rewrite flat_mask_eq_sz_spec by (unfold word; lia).
    assert (wrap (elem_bits E)
              (if Z.of_nat j =? idx then ALL_ONES SIZE_BITS else 0)
            = if Z.of_nat j =? idx then ALL_ONES (elem_bits E) else 0) as ->.
    { destruct (Z.of_nat j =? idx);
        [apply wrap_all_ones_sz | apply wrap_zero]; lia. }
    rewrite (select_shape (elem_bits E) ltac:(lia) (Z.of_nat j =? idx)
               value x Hv Hwx).
    rewrite Houter by (destruct (Z.of_nat j =? idx); assumption).
    destruct (Z.eqb_spec (Z.of_nat j) idx) as [<- | Hne].
    - destruct (Z.ltb_spec (Z.of_nat j) len); [| lia].
      rewrite Nat2Z.id. apply list_lookup_insert_eq. exact Hj.
    - destruct (idx <? len); [| exact Hx].
      rewrite list_lookup_insert_ne by lia. exact Hx. }
  destruct E; simpl in *.
  - apply (Hgen 8 (wrap 8)); [unfold SIZE_BITS; lia | reflexivity |].
    apply wrap_id_on_words.
  - apply (Hgen 16 (wrap 16)); [unfold SIZE_BITS; lia | reflexivity |].
    apply wrap_id_on_words.
  - apply (Hgen 32 (fun y => y)); [unfold SIZE_BITS; lia | reflexivity |].
    reflexivity.
  - apply (Hgen 64 (fun y => y)); [unfold SIZE_BITS; lia | reflexivity |].
    reflexivity.
Qed.

(** *** The sweeps with the width of [size_t] as a parameter *)

Lemma flat_store_at_W_on_size64 E arr len idx value :
  flat_store_at_W_on SIZE_BITS E arr len idx value
  = flat_store_at_W E arr len idx value.
Proof. destruct E; reflexivity. Qed.

Section SizeParam.
Variable sb : Z.
Hypothesis sb_pos : 0 < sb.

Lemma flat_mask_eq_sz_on_spec a b :
  word sb a -> word sb b ->
  flat_mask_eq_sz_on sb a b = if a =? b then ALL_ONES sb else 0.
Proof.
  intros Ha Hb. unfold flat_mask_eq_sz_on, flat_mask_is_zero_sz_on.
  rewrite (wrap_small sb (Z.lxor a b)) by (apply word_lxor; (lia || assumption)).
  rewrite (wrap_zero sb) by lia.
  rewrite (is_zero_shape sb) by (try apply word_lxor; (lia || assumption)).
  now rewrite lxor_eqb.
Qed.

Section Narrow.
Variable w : Z.
Hypothesis w_range : 0 < w <= sb.

Lemma wrap_all_ones_le : wrap w (ALL_ONES sb) = ALL_ONES w.
Proof.
  rewrite <- (wrap_minus_one w) by lia.
  rewrite <- (wrap_minus_one sb) by lia.
  apply wrap_wrap_le. lia.
Qed.

Lemma elem_mask_on i idx :
  word sb i -> word sb idx ->
  wrap w (flat_mask_eq_sz_on sb i idx) = if i =? idx then ALL_ONES w else 0.
Proof.
  intros Hi Hidx. rewrite flat_mask_eq_sz_on_spec by assumption.
  destruct (i =? idx); [apply wrap_all_ones_le | apply wrap_zero; lia].
Qed.

Lemma lookup_on_sweep (outer : Z -> Z) arr len idx :
  (forall x, word w x -> outer x = x) ->
  words w arr -> word sb len -> word sb idx ->
  for_up len
    (fun i out =>
       outer (Z.lor
         (Z.land (ld arr i) (wrap w (flat_mask_eq_sz_on sb i idx)))
         (Z.land out (wrap w (Z.lnot (wrap w (flat_mask_eq_sz_on sb i idx)))))))
    (wrap w 0)
  = if idx <? len then ld arr idx else 0.
Proof.
  intros Houter Ha Hl Hidx. unfold word in Hl, Hidx.
  apply (for_up_ind (fun i out => out = if idx <? i then ld arr idx else 0));
    [lia | |].
  - rewrite wrap_zero by lia. destruct (Z.ltb_spec idx 0); [lia | reflexivity].
  - intros i out Hi ->.
    assert (word w (if idx <? i then ld arr idx else 0)) as Hout.
    { destruct (idx <? i); [apply ld_word; [lia | assumption] |].
      unfold word. pose proof (Z.pow_pos_nonneg 2 w). lia. }
    rewrite elem_mask_on by (unfold word; lia).
    rewrite (select_shape w ltac:(lia) (i =? idx) (ld arr i) _
               (ld_word w arr i ltac:(lia) Ha) Hout).
    destruct (Z.eqb_spec i idx) as [-> | Hne].
    + destruct (Z.ltb_spec idx (idx + 1)); [| lia].
      apply Houter, ld_word; [lia | assumption].
    + rewrite (Houter _ Hout).
      destruct (Z.ltb_spec idx i), (Z.ltb_spec idx (i + 1)); trivial; lia.
Qed.

Lemma store_on_sweep (outer : Z -> Z) arr len idx value :
  (forall x, word w x -> outer x = x) ->
  words w arr -> word w value -> Z.of_nat (length arr) = len ->
  word sb len -> word sb idx ->
  for_up len
    (fun i d =>
       st d i (outer (Z.lor
         (Z.land value (wrap w (flat_mask_eq_sz_on sb i idx)))
         (Z.land (ld d i)
            (wrap w (Z.lnot (wrap w (flat_mask_eq_sz_on sb i idx))))))))
    arr
  = if idx <? len then <[Z.to_nat idx := value]> arr else arr.
Proof.
  intros Houter Ha Hv Hlen Hl Hi.
  apply (for_up_update_eq
           (fun i x => outer (Z.lor
              (Z.land value (wrap w (flat_mask_eq_sz_on sb i idx)))
              (Z.land x (wrap w
                 (Z.lnot (wrap w (flat_mask_eq_sz_on sb i idx))))))));
    [lia | destruct (idx <? len); [apply length_insert | reflexivity] |].
  intros j x Hx. pose proof (lookup_lt_Some _ _ _ Hx) as Hj.
  assert (word w x) as Hwx
    by (unfold words in Ha; rewrite Forall_lookup in Ha; exact (Ha _ _ Hx)).
  rewrite decide_True by lia. unfold word in Hl.
  rewrite elem_mask_on by (try assumption; unfold word; lia).
  rewrite (select_shape w ltac:(lia) (Z.of_nat j =? idx) value x Hv Hwx).
  rewrite Houter by (destruct (Z.of_nat j =? idx); assumption).
  unfold word in Hi.
  destruct (Z.eqb_spec (Z.of_nat j) idx) as [<- | Hne].
  - destruct (Z.ltb_spec (Z.of_nat j) len); [| lia].
    rewrite Nat2Z.id. apply list_lookup_insert_eq. exact Hj.
  - destruct (idx <? len); [| exact Hx].
    rewrite list_lookup_insert_ne by lia. exact Hx.
Qed.
End Narrow.
End SizeParam.

Lemma flat_lookup_W_on_spec sb E arr len idx :
  0 < sb -> elem_bits E <= sb ->
  words (elem_bits E) arr -> word sb len -> word sb idx ->
  flat_lookup_W_on sb E arr len idx = if idx <? len then ld arr idx else 0.
Proof.
  intros Hsb Hle Ha Hl Hi. destruct E; simpl in *.
  - apply (lookup_on_sweep sb Hsb 8 ltac:(lia) (wrap 8)); try assumption.
    apply wrap_id_on_words.
  - apply (lookup_on_sweep sb Hsb 16 ltac:(lia) (wrap 16)); try assumption.
    apply wrap_id_on_words.
  - apply (lookup_on_sweep sb Hsb 32 ltac:(lia) (fun x => x)); try assumption.
    reflexivity.
  - apply (lookup_on_sweep sb Hsb 64 ltac:(lia) (fun x => x)); try assumption.
    reflexivity.
Qed.

Lemma flat_store_at_W_on_spec sb E arr len idx value :
  0 < sb -> elem_bits E <= sb ->
  words (elem_bits E) arr -> word (elem_bits E) value ->
  Z.of_nat (length arr) = len ->
  word sb len -> word sb idx ->
  flat_store_at_W_on sb E arr len idx value
  = if idx <? len then <[Z.to_nat idx := value]> arr else arr.
Proof.
  intros Hsb Hle Ha Hv Hlen Hl Hi. destruct E; simpl in *.
  - apply (store_on_sweep sb Hsb 8 ltac:(lia) (wrap 8)); try assumption.
    apply wrap_id_on_words.
  - apply (store_on_sweep sb Hsb 16 ltac:(lia) (wrap 16)); try assumption.
    apply wrap_id_on_words.
  - apply (store_on_sweep sb Hsb 32 ltac:(lia) (fun x => x)); try assumption.
    reflexivity.
  - apply (store_on_sweep sb Hsb 64 ltac:(lia) (fun x => x)); try assumption.
    reflexivity.
Qed.

(** Where [size_t] has 32 bits the 64-bit lookup returns the low half of
    the element in range. *)
Lemma flat_lookup_u64_on_size32 arr len idx :
  words 64 arr -> word 32 len -> word 32 idx ->
  flat_lookup_u64_on 32 arr len idx
  = if idx <? len then ld arr idx mod 2 ^ 32 else 0.
Proof.
  intros Ha Hl Hidx. unfold word in Hl, Hidx. unfold flat_lookup_u64_on.
  apply (for_up_ind
           (fun i out => out = if idx <? i then ld arr idx mod 2 ^ 32 else 0));
    [lia | |].
  - destruct (Z.ltb_spec idx 0); [lia | reflexivity].
  - intros i out Hi ->. cbv zeta.
    rewrite flat_mask_eq_sz_on_spec by (unfold word; lia).
    destruct (Z.eqb_spec i idx) as [-> | Hne].
    + destruct (Z.ltb_spec idx idx); [lia |].
      destruct (Z.ltb_spec idx (idx + 1)); [| lia].
      rewrite Z.land_0_l, Z.lor_0_r.
      change (u64 (ALL_ONES 32)) with (Z.ones 32).
      apply Z.land_ones. lia.
    + change (u64 0) with 0. change (u64 (Z.lnot 0)) with (Z.ones 64).
      rewrite Z.land_0_r, Z.lor_0_l, Z.land_ones by lia.
      destruct (Z.ltb_spec idx i), (Z.ltb_spec idx (i + 1)); try lia;
        [| reflexivity].
      apply Z.mod_small.
      pose proof (Z.mod_pos_bound (ld arr idx) (2 ^ 32) ltac:(lia)). lia.
Qed.

(** X14.  On a target whose [size_t] has [sb] bits, and for an element
    type not wider than [size_t] (u8, u16 and u32 where [size_t] has 32
    bits, u64 as well where it has 64): [flat_store_at_W(arr, len, idx,
    value)] replaces [arr[idx]] by [value] when [idx < len] and changes
    nothing when [idx >= len].  A [flat_lookup_W] at the same index then
    returns the stored value, and at any other index what it returned
    before. *)
Theorem flat_store_at_then_lookup (sb : Z) (E : elem_width) (arr : list Z) (len idx value j : Z) :
  0 < sb -> elem_bits E <= sb ->
  words (elem_bits E) arr -> word (elem_bits E) value ->
  Z.of_nat (length arr) = len ->
  word sb len -> word sb idx -> word sb j ->
  flat_store_at_W_on sb E arr len idx value
  = (if idx <? len then <[Z.to_nat idx := value]> arr else arr)
  /\ (idx < len ->
        flat_lookup_W_on sb E (flat_store_at_W_on sb E arr len idx value) len idx
        = value)
  /\ (j <> idx ->
        flat_lookup_W_on sb E (flat_store_at_W_on sb E arr len idx value) len j
        = flat_lookup_W_on sb E arr len j).
Proof.
  intros Hsb Hle Ha Hv Hlen Hl Hi Hj.
  pose proof (flat_store_at_W_on_spec sb E arr len idx value
                Hsb Hle Ha Hv Hlen Hl Hi) as Hs.
  split; [exact Hs |]. rewrite Hs.
  assert (words (elem_bits E)
            (if idx <? len then <[Z.to_nat idx := value]> arr else arr)) as Hw.
  { destruct (idx <? len); [| exact Ha]. unfold words.
    apply Forall_insert; assumption. }
  rewrite !flat_lookup_W_on_spec by assumption. unfold word in Hi, Hj.
  split.
  - intros Hlt. destruct (Z.ltb_spec idx len); [| lia].
    unfold ld. rewrite list_lookup_insert_eq by lia. reflexivity.
  - intros Hne. destruct (idx <? len); trivial.
    unfold ld. rewrite list_lookup_insert_ne by lia. reflexivity.
Qed.

Lemma flat_store_at_then_lookup_witness :
  flat_store_at_W_on 32 E32 [1; 2; 3] 3 1 4294967295 = [1; 4294967295; 3]
  /\ flat_lookup_W_on 32 E32
       (flat_store_at_W_on 32 E32 [1; 2; 3] 3 1 4294967295) 3 1
     = 4294967295.
Proof.
  assert (words (elem_bits E32) [1; 2; 3]) as Ha
    by (repeat constructor; unfold word; simpl; lia).
  assert (word (elem_bits E32) 4294967295) as Hv by (unfold word; simpl; lia).
  assert (word 32 3 /\ word 32 1 /\ word 32 0) as (W3 & W1 & W0)
    by (unfold word; lia).
  pose proof (flat_store_at_then_lookup 32 E32 [1; 2; 3] 3 1 4294967295 0
                ltac:(lia) ltac:(simpl; lia) Ha Hv eq_refl W3 W1 W0)
    as (Hst & Hlk & _).
  exact (conj Hst (Hlk ltac:(lia))).
Defined.

(** ** Table application *)

Lemma zip_with_second_only (f : Z -> Z) (l k : list Z) :
  length l = length k -> zip_with (fun _ s => f s) l k = f <$> k.
Proof.
  revert k. induction l as [| x l IH]; intros [| y k] Hlen;
    simpl in *; try discriminate; trivial. f_equal. apply IH. congruence.
Qed.

(** X15.  [flat_table_apply_u8] writes, for each of the first [n] input
    bytes, the table entry it selects: [table[in[i]]] when
    [in[i] < table_len] and 0 otherwise; the other bytes of [out] are not
    written.  With a 256-entry table every input byte is translated. *)
Theorem flat_table_apply_u8_maps (out inp table : list Z) (n table_len : Z) :
  words 8 out -> words 8 inp -> words 8 table ->
  Z.of_nat (length table) = table_len -> word SIZE_BITS table_len ->
  0 <= n <= Z.of_nat (length out) -> n <= Z.of_nat (length inp) ->
  flat_table_apply_u8 out inp n table table_len
  = ((fun s => if s <? table_len then ld table s else 0)
       <$> take (Z.to_nat n) inp)
    ++ drop (Z.to_nat n) out
  /\ (table_len = 256 ->
      flat_table_apply_u8 out inp n table table_len
      = (ld table <$> take (Z.to_nat n) inp) ++ drop (Z.to_nat n) out).
Proof.
  intros Ho Hi Ht Htl Hwl Hno Hni.
  assert (flat_table_apply_u8 out inp n table table_len
          = ((fun s => if s <? table_len then ld table s else 0)
               <$> take (Z.to_nat n) inp)
            ++ drop (Z.to_nat n) out) as Hres.
  { unfold flat_table_apply_u8. cbv zeta.
    rewrite (for_up_zip 8
               (fun _ s => flat_lookup_u8 table table_len (usz s))
               (fun _ s => if s <? table_len then ld table s else 0));
      try assumption.
    - rewrite zip_with_second_only by (rewrite !length_take; lia). reflexivity.
    - intros x s Hx Hs. unfold usz.
      rewrite (wrap_small SIZE_BITS s) by (unfold word, SIZE_BITS in *; lia).
      apply (flat_lookup_W_spec E8); trivial.
      unfold word, SIZE_BITS in *. lia. }
  split; [exact Hres |]. intros H256. rewrite Hres. f_equal.
  apply list_fmap_ext. intros j s Hs.
  apply lookup_take_Some in Hs as [Hs _].
  unfold words in Hi. rewrite Forall_lookup in Hi. specialize (Hi _ _ Hs).
  unfold word in Hi. destruct (Z.ltb_spec s table_len); [reflexivity | lia].
Qed.

Lemma flat_table_apply_u8_maps_witness :
  flat_table_apply_u8 [0; 0; 9] [2; 5] 2 [10; 11; 12] 3 = [12; 0; 9].
Proof.
  refine (proj1 (flat_table_apply_u8_maps [0; 0; 9] [2; 5] [10; 11; 12] 2 3
                   _ _ _ eq_refl _ _ _));
    try (unfold word, SIZE_BITS; simpl; lia);
    repeat constructor; unfold word; simpl; lia.
Defined.

(** ** Wipes *)

Lemma prefix_fill_lookup (p : list Z) (n : Z) (v : Z) (j : nat) x :
  0 <= n <= Z.of_nat (length p) ->
  p !! j = Some x ->
  (replicate (Z.to_nat n) v ++ drop (Z.to_nat n) p) !! j
  = Some (if decide (Z.of_nat j < n) then v else x).
Proof.
  intros Hn Hx. pose proof (lookup_lt_Some _ _ _ Hx) as Hj.
  destruct (decide (Z.of_nat j < n)).
  - rewrite lookup_app_l by (rewrite length_replicate; lia).
    apply lookup_replicate. split; [reflexivity | lia].
  - rewrite lookup_app_r by (rewrite length_replicate; lia).
    rewrite length_replicate, lookup_drop, <- Hx. f_equal. lia.
Qed.

(** X16.  [flat_explicit_bzero(p, n)] zeroes the first [n] bytes and
    leaves the others; [flat_memwipe_when(cond, p, n)] does the same when
    the low bit of [cond] is set and changes nothing when it is clear. *)
Theorem flat_wipes_zero_prefix (cond : Z) (p : list Z) (n : Z) :
  words 8 p -> 0 <= n <= Z.of_nat (length p) ->
  flat_explicit_bzero p n = replicate (Z.to_nat n) 0 ++ drop (Z.to_nat n) p
  /\ flat_memwipe_when cond p n
     = (if Z.odd cond
        then replicate (Z.to_nat n) 0 ++ drop (Z.to_nat n) p
        else p).
Proof.
  intros Hp Hn. split.
  - unfold flat_explicit_bzero.
    apply (for_up_update_eq (fun _ _ => u8 0)); [lia | |].
    + rewrite length_app, length_replicate, length_drop. lia.
    + intros j x Hx. rewrite (prefix_fill_lookup p n 0 j x Hn Hx).
      destruct (decide (Z.of_nat j < n)); reflexivity.
  - unfold flat_memwipe_when. cbv zeta. rewrite flat_mask_from_bit_u8_spec.
    apply (for_up_update_eq
             (fun _ x => u8 (Z.land x (u8 (Z.lnot
                (if Z.odd cond then ALL_ONES 8 else 0)))))); [lia | |].
    + destruct (Z.odd cond); trivial.
      rewrite length_app, length_replicate, length_drop. lia.
    + intros j x Hx.
      assert (word 8 x) as Hwx
        by (unfold words in Hp; rewrite Forall_lookup in Hp; exact (Hp _ _ Hx)).
      unfold u8 at 2.
      rewrite (zero_when_shape 8 ltac:(lia) (Z.odd cond) x Hwx).
      destruct (Z.odd cond).
      * rewrite (prefix_fill_lookup p n 0 j x Hn Hx).
        destruct (decide (Z.of_nat j < n)); reflexivity.
      * rewrite Hx. unfold u8. rewrite (wrap_small 8 x Hwx).
        destruct (decide (Z.of_nat j < n)); reflexivity.
Qed.

Lemma flat_wipes_zero_prefix_witness :
  flat_memwipe_when 1 [1; 2; 3] 2 = [0; 0; 3].
Proof.
  refine (proj2 (flat_wipes_zero_prefix 1 [1; 2; 3] 2 _ _)); try (simpl; lia).
  repeat constructor; unfold word; lia.
Defined.

(** ** Mask-returning equality *)

(** X17.  [flat_memeq_mask] on two byte buffers of [n] bytes is the
    all-ones 32-bit mask when the buffers are equal and 0 otherwise; its
    low bit is the result of [flat_mem_eq]. *)
Theorem flat_memeq_mask_all_or_nothing (a b : list Z) (n : Z) :
  words 8 a -> words 8 b ->
  Z.of_nat (length a) = n -> Z.of_nat (length b) = n ->
  flat_memeq_mask a b n = (if decide (a = b) then ALL_ONES 32 else 0)
  /\ flat_mask_to_bit_u32 (flat_memeq_mask a b n) = flat_mem_eq a b n.
Proof.
  intros Ha Hb Hla Hlb.
  assert (flat_memeq_mask a b n = if decide (a = b) then ALL_ONES 32 else 0)
    as Hm.
  { unfold flat_memeq_mask. change (u32 0) with 0.
    destruct (flat_mem_eq_diff a b n Ha Hb ltac:(lia)) as [Hw Hiff].
    cbv zeta in Hw, Hiff |- *.
    rewrite flat_mask_is_zero_u32_spec by assumption.
    destruct (Z.eqb_spec
                (for_up n (fun i diff => Z.lor diff (u32 (Z.lxor (ld a i) (ld b i)))) 0)
                0) as [Hz | Hnz].
    - rewrite decide_True; [reflexivity |].
      apply (buffers_eq_pointwise a b n Hla Hlb). apply Hiff, Hz.
    - rewrite decide_False; [reflexivity |].
      intros ->. apply Hnz, Hiff. reflexivity. }
  split; [exact Hm |].
  rewrite Hm, flat_mem_eq_spec by assumption.
  destruct (decide (a = b)); reflexivity.
Qed.

Lemma flat_memeq_mask_all_or_nothing_witness :
  flat_memeq_mask [1; 2; 3] [1; 2; 3] 3 = ALL_ONES 32.
Proof.
  refine (proj1 (flat_memeq_mask_all_or_nothing [1; 2; 3] [1; 2; 3] 3
                   _ _ eq_refl eq_refl));
    repeat constructor; unfold word; lia.
Defined.

(** ** Reductions *)

Lemma for_up_fold (w : Z) (op : Z -> Z -> Z) (f : Z -> Z) (buf : list Z)
    (n init : Z) :
  words w buf -> (forall x, word w x -> f x = x) ->
  Z.of_nat (length buf) = n ->
  for_up n (fun i acc => op acc (f (ld buf i))) init = fold_left op buf init.
Proof.
  intros Hb Hf Hlen.
  replace (fold_left op buf init)
    with (fold_left op (take (Z.to_nat n) buf) init)
    by (rewrite take_ge by lia; reflexivity).
  refine (for_up_ind
            (fun i acc => acc = fold_left op (take (Z.to_nat i) buf) init)
            n _ init _ _ _); [lia | reflexivity |].
  intros i acc Hi ->.
  destruct (lookup_lt_is_Some_2 buf (Z.to_nat i)) as [x Hx]; [lia |].
  replace (Z.to_nat (i + 1)) with (Datatypes.S (Z.to_nat i)) by lia.
  rewrite (take_S_r buf _ x Hx), fold_left_app. simpl.
  rewrite (ld_lookup buf i x) by (lia || assumption).
  rewrite Hf; [reflexivity |].
  unfold words in Hb. rewrite Forall_lookup in Hb. exact (Hb _ _ Hx).
Qed.

Lemma fold_lor_zero_iff (l : list Z) : forall a,
  fold_left Z.lor l a = 0 <-> a = 0 /\ Forall (fun x => x = 0) l.
Proof.
  induction l as [| x l IH]; intros a; simpl.
  - split; [intros ->; split; [reflexivity | constructor] | intros [-> _]; reflexivity].
  - rewrite IH, Z.lor_eq_0_iff. split.
    + intros [[-> ->] Hl]. split; [reflexivity | constructor; trivial].
    + intros [-> Hl]. inversion Hl; subst. auto.
Qed.

Lemma fold_lor_word w (l : list Z) : forall a,
  0 < w -> word w a -> words w l -> word w (fold_left Z.lor l a).
Proof.
  induction l as [| x l IH]; intros a Hw Ha Hl; simpl; [exact Ha |].
  inversion Hl; subst. apply IH; trivial. apply word_lor; assumption.
Qed.

Lemma fold_land_word w (l : list Z) : forall a,
  0 < w -> word w a -> words w l -> word w (fold_left Z.land l a).
Proof.
  induction l as [| x l IH]; intros a Hw Ha Hl; simpl; [exact Ha |].
  inversion Hl; subst. apply IH; trivial. apply word_land; assumption.
Qed.

Lemma u32_id_on_bytes : forall x, word 8 x -> u32 x = x.
Proof. intros x Hx. apply wrap_small. unfold word in *. lia. Qed.

Lemma comb_zero_iff acc :
  word 64 acc ->
  word 32 (Z.lor (u32 (Z.shiftr acc 32)) (u32 acc))
  /\ (Z.lor (u32 (Z.shiftr acc 32)) (u32 acc) = 0 <-> acc = 0).
Proof.
  intros Ha. split.
  - apply word_lor; [lia | apply wrap_word; lia | apply wrap_word; lia].
  - rewrite Z.lor_eq_0_iff, Z.shiftr_div_pow2 by lia.
    unfold u32, wrap, word in *. split.
    + intros [H1 H2]. Z.div_mod_to_equations. lia.
    + intros ->. split; reflexivity.
Qed.

(** The accumulator shared by [flat_any_nonzero_W] and [flat_all_zero_W],
    already folded: the value tested for zero. *)
Lemma reduce_test_values R buf n :
  words (red_bits R) buf -> Z.of_nat (length buf) = n ->
  exists t, word 32 t
    /\ (t = 0 <-> Forall (fun x => x = 0) buf)
    /\ flat_all_zero_W R buf n = uint (Z.land (flat_mask_is_zero_u32 t) 1)
    /\ flat_any_nonzero_W R buf n
       = uint (Z.land (u32 (Z.lnot (flat_mask_is_zero_u32 t))) 1).
Proof.
  intros Hb Hlen. destruct R; simpl in Hb.
  - exists (fold_left Z.lor buf 0).
    split; [apply fold_lor_word; [lia | unfold word; lia |];
            eapply Forall_impl; [exact Hb |]; unfold word; simpl; lia |].
    split; [rewrite fold_lor_zero_iff; tauto |].
    unfold flat_all_zero_W, flat_any_nonzero_W, flat_all_zero_u8,
      flat_any_nonzero_u8. cbv zeta. change (u32 0) with 0.
    rewrite (for_up_fold 8 Z.lor u32 buf n 0 Hb u32_id_on_bytes Hlen). auto.
  - exists (fold_left Z.lor buf 0).
    split; [apply fold_lor_word; [lia | unfold word; lia | exact Hb] |].
    split; [rewrite fold_lor_zero_iff; tauto |].
    unfold flat_all_zero_W, flat_any_nonzero_W, flat_all_zero_u32w,
      flat_any_nonzero_u32w. cbv zeta. change (u32 0) with 0.
    rewrite (for_up_fold 32 Z.lor (fun x => x) buf n 0 Hb
               (same_id_on_words 32) Hlen). auto.
  - assert (word 64 (fold_left Z.lor buf 0)) as Hacc
      by (apply fold_lor_word; [lia | unfold word; lia | exact Hb]).
    destruct (comb_zero_iff _ Hacc) as [Hw Hz].
    exists (Z.lor (u32 (Z.shiftr (fold_left Z.lor buf 0) 32))
                  (u32 (fold_left Z.lor buf 0))).
    split; [exact Hw |].
    split; [rewrite Hz, fold_lor_zero_iff; tauto |].
    unfold flat_all_zero_W, flat_any_nonzero_W, flat_all_zero_u64w,
      flat_any_nonzero_u64w. cbv zeta. change (u64 0) with 0.
    rewrite (for_up_fold 64 Z.lor (fun x => x) buf n 0 Hb
               (same_id_on_words 64) Hlen). auto.
Qed.

(** X18.  [flat_all_zero_W] returns 1 exactly when every element of the
    buffer is zero (so also for an empty buffer) and 0 otherwise;
    [flat_any_nonzero_W] returns the opposite bit. *)
Theorem flat_all_zero_any_nonzero (R : red_width) (buf : list Z) (n : Z) :
  words (red_bits R) buf -> Z.of_nat (length buf) = n ->
  (flat_all_zero_W R buf n = 1 <-> Forall (fun x => x = 0) buf)
  /\ (flat_all_zero_W R buf n = 0 \/ flat_all_zero_W R buf n = 1)
  /\ flat_any_nonzero_W R buf n = 1 - flat_all_zero_W R buf n.
Proof.
  intros Hb Hlen.
  destruct (reduce_test_values R buf n Hb Hlen) as (t & Hw & Hz & -> & ->).
  rewrite flat_mask_is_zero_u32_spec by assumption.
  destruct (Z.eqb_spec t 0) as [Ht | Ht].
  - split; [split; [intros _; apply Hz, Ht | reflexivity] |].
    split; [right |]; reflexivity.
  - split; [split; [discriminate | intros HF; elim Ht; apply Hz, HF] |].
    split; [left |]; reflexivity.
Qed.

Lemma flat_all_zero_any_nonzero_witness :
  flat_any_nonzero_W R64 [0; 4294967296] 2
  = 1 - flat_all_zero_W R64 [0; 4294967296] 2.
Proof.
  refine (proj2 (proj2 (flat_all_zero_any_nonzero R64 [0; 4294967296] 2
                          _ eq_refl))).
  repeat constructor; unfold word; simpl; lia.
Defined.

(** X19.  [flat_reduce_or_W] is the bitwise OR of all elements, starting
    from 0, and [flat_reduce_and_W] the bitwise AND of all elements,
    starting from the all-ones word (its value on an empty buffer); the
    OR is 0 exactly when every element is 0. *)
Theorem flat_reduce_or_and_fold (R : red_width) (buf : list Z) (n : Z) :
  words (red_bits R) buf -> Z.of_nat (length buf) = n ->
  flat_reduce_or_W R buf n = fold_left Z.lor buf 0
  /\ flat_reduce_and_W R buf n = fold_left Z.land buf (ALL_ONES (red_bits R))
  /\ (flat_reduce_or_W R buf n = 0 <-> Forall (fun x => x = 0) buf).
Proof.
  intros Hb Hlen.
  assert (flat_reduce_or_W R buf n = fold_left Z.lor buf 0) as Hor.
  { destruct R; simpl in Hb; unfold flat_reduce_or_W, flat_reduce_or_u8,
      flat_reduce_or_u32w, flat_reduce_or_u64w; cbv zeta.
    - change (u32 0) with 0.
      rewrite (for_up_fold 8 Z.lor u32 buf n 0 Hb u32_id_on_bytes Hlen).
      apply wrap_small, fold_lor_word; [lia | unfold word; lia | exact Hb].
    - apply (for_up_fold 32 Z.lor (fun x => x) buf n 0 Hb
               (same_id_on_words 32) Hlen).
    - apply (for_up_fold 64 Z.lor (fun x => x) buf n 0 Hb
               (same_id_on_words 64) Hlen). }
  split; [exact Hor |]. split.
  - destruct R; simpl in Hb; unfold flat_reduce_and_W, flat_reduce_and_u8,
      flat_reduce_and_u32w, flat_reduce_and_u64w, red_bits; cbv zeta.
    + change (u32 255) with (ALL_ONES 8).
      rewrite (for_up_fold 8 Z.land u32 buf n _ Hb u32_id_on_bytes Hlen).
      apply wrap_small, fold_land_word;
        [lia | apply all_ones_word; lia | exact Hb].
    + apply (for_up_fold 32 Z.land (fun x => x) buf n _ Hb
               (same_id_on_words 32) Hlen).
    + apply (for_up_fold 64 Z.land (fun x => x) buf n _ Hb
               (same_id_on_words 64) Hlen).
  - rewrite Hor, fold_lor_zero_iff. tauto.
Qed.

Lemma flat_reduce_or_and_fold_witness :
  flat_reduce_or_W R32 [3; 12; 4294967040] 3
  = fold_left Z.lor [3; 12; 4294967040] 0
  /\ flat_reduce_and_W R32 [3; 12; 4294967040] 3
     = fold_left Z.land [3; 12; 4294967040] (ALL_ONES (red_bits R32)).
Proof.
  assert (words (red_bits R32) [3; 12; 4294967040]) as Hw
    by (repeat constructor; unfold word; simpl; lia).
  pose proof (flat_reduce_or_and_fold R32 [3; 12; 4294967040] 3 Hw eq_refl)
    as (Hor & Hand & _).
  exact (conj Hor Hand).
Defined.

(** ** Block selection *)

Lemma select_block_inner (o blocks : list Z) (i idx stride : Z) :
  words 8 o -> words 8 blocks ->
  0 <= stride <= Z.of_nat (length o) ->
  0 <= i -> (i + 1) * stride <= Z.of_nat (length blocks) ->
  word SIZE_BITS i -> word SIZE_BITS idx -> word SIZE_BITS (i * stride) ->
  for_up stride
    (fun k o =>
       let m := u8 (flat_mask_eq_sz i idx) in
       st o k (u8 (Z.lor (Z.land (ld blocks (usz (i * stride) + k)) m)
                         (Z.land (ld o k) (u8 (Z.lnot m))))))
    o
  = if i =? idx
    then take (Z.to_nat stride) (drop (Z.to_nat (i * stride)) blocks)
         ++ drop (Z.to_nat stride) o
    else o.
Proof.
  intros Ho Hb Hs Hi Hlen Hwi Hwidx Hwis. cbv zeta.
  rewrite flat_mask_eq_sz_spec by assumption.
  assert (u8 (if i =? idx then ALL_ONES SIZE_BITS else 0)
          = if i =? idx then ALL_ONES 8 else 0) as ->
    by (destruct (i =? idx); reflexivity).
  unfold usz. rewrite (wrap_small SIZE_BITS (i * stride) Hwis).
  apply (for_up_update_eq
           (fun k x =>
              u8 (Z.lor (Z.land (ld blocks (i * stride + k))
                           (if i =? idx then ALL_ONES 8 else 0))
                        (Z.land x (u8 (Z.lnot
                           (if i =? idx then ALL_ONES 8 else 0)))))));
    [lia | |].
  - destruct (i =? idx); trivial.
    rewrite length_app, length_take, !length_drop. nia.
  - intros j x Hx. pose proof (lookup_lt_Some _ _ _ Hx) as Hj.
    assert (word 8 x) as Hwx
      by (unfold words in Ho; rewrite Forall_lookup in Ho; exact (Ho _ _ Hx)).
    unfold u8.
    rewrite (copy_when_elem 8 ltac:(lia) (wrap 8) (wrap_id_on_words 8)
               (i =? idx) x (ld blocks (i * stride + Z.of_nat j)) Hwx)
      by (apply ld_word; [lia | assumption]).
    destruct (i =? idx).
    + destruct (decide (Z.of_nat j < stride)) as [Hlt | Hge].
      * rewrite lookup_app_l by (rewrite length_take, length_drop; nia).
        rewrite lookup_take, decide_True, lookup_drop by lia.
        destruct (lookup_lt_is_Some_2 blocks (Z.to_nat (i * stride) + j))
          as [y Hy]; [nia |].
        rewrite Hy. unfold ld.
        replace (Z.to_nat (i * stride + Z.of_nat j))
          with (Z.to_nat (i * stride) + j)%nat by nia.
        rewrite Hy. reflexivity.
      * rewrite lookup_app_r by (rewrite length_take, length_drop; nia).
        rewrite length_take, length_drop, lookup_drop, <- Hx. f_equal. nia.
    + rewrite Hx. destruct (decide (Z.of_nat j < stride)); reflexivity.
Qed.

(** X20.  [flat_select_block(out, blocks, count, stride, idx)] leaves in
    the first [stride] bytes of [out] a copy of block number [idx] when
    [idx < count], and [stride] zero bytes when [idx >= count]; bytes of
    [out] beyond [stride] are not written. *)
Theorem flat_select_block_picks (out blocks : list Z) (count stride idx : Z) :
  words 8 out -> words 8 blocks ->
  0 <= stride <= Z.of_nat (length out) ->
  0 <= count ->
  Z.of_nat (length blocks) = count * stride ->
  word SIZE_BITS count -> word SIZE_BITS idx ->
  word SIZE_BITS (count * stride) ->
  flat_select_block out blocks count stride idx
  = (if idx <? count
     then take (Z.to_nat stride) (drop (Z.to_nat (idx * stride)) blocks)
     else replicate (Z.to_nat stride) 0)
    ++ drop (Z.to_nat stride) out.
Proof.
  intros Ho Hb Hs Hc Hlen Hwc Hwi Hwcs. unfold flat_select_block. cbv zeta.
  assert (for_up stride (fun k o => st o k (u8 0)) out
          = replicate (Z.to_nat stride) 0 ++ drop (Z.to_nat stride) out) as ->.
  { apply (for_up_update_eq (fun _ _ => u8 0)); [lia | |].
    - rewrite length_app, length_replicate, length_drop. lia.
    - intros j x Hx. rewrite (prefix_fill_lookup out stride 0 j x Hs Hx).
      destruct (decide (Z.of_nat j < stride)); reflexivity. }
  unfold word in Hwc, Hwi, Hwcs.
  refine (for_up_ind
            (fun i o =>
               o = (if idx <? i
                    then take (Z.to_nat stride)
                           (drop (Z.to_nat (idx * stride)) blocks)
                    else replicate (Z.to_nat stride) 0)
                   ++ drop (Z.to_nat stride) out)
            count _ _ _ _ _); [lia | |].
  - destruct (Z.ltb_spec idx 0); [lia | reflexivity].
  - intros i o Hi ->.
    set (cur := (if idx <? i
                 then take (Z.to_nat stride)
                        (drop (Z.to_nat (idx * stride)) blocks)
                 else replicate (Z.to_nat stride) 0)).
    assert (length cur = Z.to_nat stride) as Hlc.
    { unfold cur. destruct (Z.ltb_spec idx i).
      - rewrite length_take, length_drop. nia.
      - apply length_replicate. }
    assert (words 8 cur) as Hwcur.
    { unfold cur. destruct (idx <? i).
      - apply words_take, words_drop, Hb.
      - apply Forall_replicate. unfold word. lia. }
    rewrite select_block_inner;
      try assumption; try (unfold word; nia);
      [| apply Forall_app; split; [exact Hwcur | apply words_drop, Ho]
       | rewrite length_app, Hlc, length_drop; lia ].
    rewrite drop_app_length' by (symmetry; exact Hlc).
    unfold cur.
    destruct (Z.eqb_spec i idx) as [-> | Hne].
    + destruct (Z.ltb_spec idx (idx + 1)); [reflexivity | lia].
    + destruct (Z.ltb_spec idx i), (Z.ltb_spec idx (i + 1));
        try reflexivity; lia.
Qed.

Lemma flat_select_block_picks_witness :
  flat_select_block [7; 7; 7] [1; 2; 3; 4; 5; 6] 3 2 1 = [3; 4; 7].
Proof.
  refine (flat_select_block_picks [7; 7; 7] [1; 2; 3; 4; 5; 6] 3 2 1
            _ _ _ _ eq_refl _ _ _);
    try (unfold word, SIZE_BITS; simpl; lia);
    repeat constructor; unfold word; lia.
Defined.

(** ** PKCS#7: what holds at every size *)

(** X21.  [flat_pkcs7_unpad_ct] never accepts an invalid padding, at any
    buffer and block size: its return value is 0 or 1; when it is 1 the
    buffer ends with [k] copies of the byte [k], where [k] is the last
    byte, [1 <= k <= block], [k <= n], and [out_len = n - k]; when it is 0
    [out_len = 0]; and for [n = 0] or [block = 0] it returns 0. *)
Theorem flat_pkcs7_unpad_ct_never_accepts_invalid (buf : list Z) (n block : Z) :
  words 8 buf -> word SIZE_BITS n -> word SIZE_BITS block ->
  (fst (flat_pkcs7_unpad_ct buf n block) = 0
   \/ fst (flat_pkcs7_unpad_ct buf n block) = 1)
  /\ (fst (flat_pkcs7_unpad_ct buf n block) = 1 ->
        pkcs7_padded buf n block (ld buf (n - 1))
        /\ snd (flat_pkcs7_unpad_ct buf n block) = n - ld buf (n - 1))
  /\ (fst (flat_pkcs7_unpad_ct buf n block) = 0 ->
        snd (flat_pkcs7_unpad_ct buf n block) = 0)
  /\ (n = 0 \/ block = 0 -> flat_pkcs7_unpad_ct buf n block = (0, 0)).
Proof.
  intros Hb Hn Hk.
  destruct (flat_pkcs7_unpad_ct_cases buf n block Hb Hn Hk)
    as [(k & Hpad & _ & _ & Hres) | [Hno Hres]]; rewrite Hres; simpl.
  - pose proof (pkcs7_padded_last _ _ _ _ Hpad) as Hlast. rewrite Hlast.
    split; [auto |]. split; [auto |]. split; [discriminate |].
    destruct Hpad as (H1 & H2 & _). intros [-> | ->]; lia.
  - split; [auto |]. split; [discriminate |]. auto.
Qed.

Lemma flat_pkcs7_unpad_ct_never_accepts_invalid_witness :
  pkcs7_padded [65; 2; 2] 3 16 (ld [65; 2; 2] (3 - 1))
  /\ snd (flat_pkcs7_unpad_ct [65; 2; 2] 3 16) = 3 - ld [65; 2; 2] (3 - 1).
Proof.
  refine (proj1 (proj2 (flat_pkcs7_unpad_ct_never_accepts_invalid
                          [65; 2; 2] 3 16 _ _ _)) eq_refl);
    try (unfold word, SIZE_BITS; lia);
    repeat constructor; unfold word; lia.
Defined.

(** X22.  For buffers and blocks shorter than 256 bytes
    [flat_pkcs7_unpad_ct] accepts exactly the valid paddings: it returns
    [(1, n - k)] when the buffer ends with [k] copies of the byte [k],
    [1 <= k <= block], [k <= n], and [(0, 0)] when there is no such
    [k]. *)
Theorem flat_pkcs7_unpad_ct_exact_below_256 (buf : list Z) (n block : Z) :
  words 8 buf -> 0 <= n < 256 -> 0 <= block < 256 ->
  (forall k, pkcs7_padded buf n block k ->
             flat_pkcs7_unpad_ct buf n block = (1, n - k))
  /\ ((forall k, ~ pkcs7_padded buf n block k) ->
      flat_pkcs7_unpad_ct buf n block = (0, 0)).
Proof.
  intros Hb Hn Hk.
  assert (u8 n = n /\ u8 block = block) as [Hun Hub]
    by (split; apply wrap_small; unfold word; lia).
  destruct (flat_pkcs7_unpad_ct_cases buf n block Hb)
    as [(k & Hpad & _ & _ & Hres) | [Hno Hres]];
    try (unfold word, SIZE_BITS; lia); rewrite Hres.
  - split.
    + intros k' Hpad'.
      pose proof (pkcs7_padded_last _ _ _ _ Hpad) as E1.
      pose proof (pkcs7_padded_last _ _ _ _ Hpad') as E2. congruence.
    + intros Hnone. elim (Hnone k Hpad).
  - split; [| reflexivity]. intros k Hpad. exfalso.
    apply (Hno k Hpad); destruct Hpad as (? & ? & _); lia.
Qed.

Lemma flat_pkcs7_unpad_ct_exact_below_256_witness :
  flat_pkcs7_unpad_ct [65; 2; 2] 3 16 = (1, 3 - 2).
Proof.
  refine (proj1 (flat_pkcs7_unpad_ct_exact_below_256 [65; 2; 2] 3 16 _ _ _)
            2 _); try lia.
  - repeat constructor; unfold word; lia.
  - unfold pkcs7_padded. repeat split; try lia.
    intros j Hj. assert (j = 0 \/ j = 1) as [-> | ->] by lia; reflexivity.
Defined.

(** ** Accumulate, then commit *)

(** X23.  The accumulate-and-commit idiom: after [flat_erracc_init] and
    any sequence of [flat_erracc_or], [flat_commit_if_ok] called with
    [flat_erracc_ok] copies [tmp] over [dst] when no condition had its low
    bit set, and leaves [dst] unchanged as soon as one had. *)
Theorem flat_erracc_commit_idiom (e : flat_erracc_t) (conds dst tmp : list Z) (n : Z) :
  words 8 dst -> words 8 tmp ->
  Z.of_nat (length dst) = n -> Z.of_nat (length tmp) = n ->
  flat_commit_if_ok (flat_erracc_ok (erracc_feed e conds)) dst tmp n
  = if forallb (fun c => Z.land c 1 =? 0) conds then tmp else dst.
Proof.
  intros Hd Ht Hld Hlt. unfold flat_commit_if_ok.
  rewrite erracc_feed_ok, flat_memcpy_when_spec by (assumption || lia).
  destruct (forallb _ conds); simpl; trivial.
  rewrite take_ge, drop_ge by lia. apply app_nil_r.
Qed.

Lemma flat_erracc_commit_idiom_witness :
  flat_commit_if_ok (flat_erracc_ok (erracc_feed (ErrAcc 5) [0; 2; 1]))
    [1; 1] [9; 9] 2 = [1; 1].
Proof.
  refine (flat_erracc_commit_idiom (ErrAcc 5) [0; 2; 1] [1; 1] [9; 9] 2
            _ _ eq_refl eq_refl);
    repeat constructor; unfold word; lia.
Defined.

(** ** Endianness helpers *)

Lemma testbit_high_word w v i :
  0 <= w -> word w v -> w <= i -> Z.testbit v i = false.
Proof.
  intros Hw Hv Hi. unfold word in Hv.
  rewrite <- (Z.mod_small v (2 ^ w)) by lia. apply Z.mod_pow2_bits_high. lia.
Qed.

(** OR is addition when the operands occupy disjoint bit ranges. *)
Lemma lor_add_disjoint k X lo :
  0 <= k -> 0 <= lo < 2 ^ k -> X mod 2 ^ k = 0 -> Z.lor X lo = X + lo.
Proof.
  intros Hk Hlo HX. pose proof (Z.add_lor_land X lo) as H.
  assert (Z.land X lo = 0) as H0.
  { apply Z.bits_inj'. intros m Hm. rewrite Z.land_spec, Z.bits_0.
    destruct (Z_lt_le_dec m k).
    - assert (0 < 2 ^ k) by (apply Z.pow_pos_nonneg; lia).
      rewrite (Z.div_mod X (2 ^ k)), HX, Z.add_0_r, Z.mul_comm by lia.
      rewrite Z.mul_pow2_bits_low by lia. reflexivity.
    - rewrite (testbit_high_word k lo m) by (unfold word; lia).
      apply andb_false_r. }
  lia.
Qed.

Ltac buf_compute :=
  cbv [st ld insert list_insert lookup list_lookup default from_option id
       Z.to_nat Pos.to_nat Pos.iter_op Nat.add Init.Nat.add].

Ltac arith_side := try lia; Z.div_mod_to_equations; lia.

Ltac strip_wraps w :=
  repeat match goal with
  | |- context [wrap w ?t] => rewrite (wrap_small w t) by (unfold word; lia)
  end.

Ltac lor_to_add :=
  repeat match goal with
  | |- context [Z.lor ?X ?lo] =>
      lazymatch X with
      | context [Z.lor _ _] => fail
      | _ =>
          lazymatch lo with
          | _ * 2 ^ ?j =>
              let k := eval cbv in (j + 8) in
              rewrite (lor_add_disjoint k X lo) by arith_side
          | _ => rewrite (lor_add_disjoint 8 X lo) by arith_side
          end
      end
  end.

Ltac split_bytes Hw :=
  unfold words in Hw; repeat (apply Forall_cons in Hw as [? Hw]);
  unfold word in *.

Section Endian16.
Variables a0 a1 : Z.
Variable rest : list Z.
Hypothesis bytes : words 8 [a0; a1].

Lemma load_be16_value : flat_load_be16 (a0 :: a1 :: rest) = be_value [a0; a1].
Proof.
  pose proof bytes as Hw. split_bytes Hw.
  unfold flat_load_be16, be_value. buf_compute. simpl fold_left.
  unfold u16. rewrite !Z.shiftl_mul_pow2 by lia.
  rewrite (wrap_small 16 a0), (wrap_small 16 a1) by (unfold word; lia).
  lor_to_add. apply wrap_small. unfold word. lia.
Qed.

Lemma load_le16_value : flat_load_le16 (a0 :: a1 :: rest) = be_value [a1; a0].
Proof.
  pose proof bytes as Hw. split_bytes Hw.
  unfold flat_load_le16, be_value. buf_compute. simpl fold_left.
  unfold u16. rewrite !Z.shiftl_mul_pow2 by lia.
  rewrite (wrap_small 16 a0), (wrap_small 16 a1) by (unfold word; lia).
  lor_to_add. apply wrap_small. unfold word. lia.
Qed.

Lemma store_load_be16 :
  flat_store_be16 (a0 :: a1 :: rest) (be_value [a0; a1]) = a0 :: a1 :: rest.
Proof.
  pose proof bytes as Hw. split_bytes Hw.
  unfold flat_store_be16, be_value. buf_compute. simpl fold_left.
  unfold u8, wrap. rewrite !Z.shiftr_div_pow2 by lia.
  repeat (f_equal; [arith_side |]); f_equal; arith_side.
Qed.

Lemma store_load_le16 :
  flat_store_le16 (a0 :: a1 :: rest) (be_value [a1; a0]) = a0 :: a1 :: rest.
Proof.
  pose proof bytes as Hw. split_bytes Hw.
  unfold flat_store_le16, be_value. buf_compute. simpl fold_left.
  unfold u8, wrap. rewrite !Z.shiftr_div_pow2 by lia.
  repeat (f_equal; [arith_side |]); f_equal; arith_side.
Qed.
End Endian16.

Section Endian32.
Variables a0 a1 a2 a3 : Z.
Variable rest : list Z.
Hypothesis bytes : words 8 [a0; a1; a2; a3].

Lemma load_be32_value :
  flat_load_be32 (a0 :: a1 :: a2 :: a3 :: rest) = be_value [a0; a1; a2; a3].
Proof.
  pose proof bytes as Hw. split_bytes Hw.
  unfold flat_load_be32, be_value. buf_compute. simpl fold_left.
  unfold u32. rewrite !Z.shiftl_mul_pow2 by lia.
  strip_wraps 32. lor_to_add. lia.
Qed.

Lemma load_le32_value :
  flat_load_le32 (a0 :: a1 :: a2 :: a3 :: rest) = be_value [a3; a2; a1; a0].
Proof.
  pose proof bytes as Hw. split_bytes Hw.
  unfold flat_load_le32, be_value. buf_compute. simpl fold_left.
  unfold u32. rewrite !Z.shiftl_mul_pow2 by lia.
  strip_wraps 32. lor_to_add. lia.
Qed.

Lemma store_load_be32 :
  flat_store_be32 (a0 :: a1 :: a2 :: a3 :: rest) (be_value [a0; a1; a2; a3])
  = a0 :: a1 :: a2 :: a3 :: rest.
Proof.
  pose proof bytes as Hw. split_bytes Hw.
  unfold flat_store_be32, be_value. buf_compute. simpl fold_left.
  unfold u8, wrap. rewrite !Z.shiftr_div_pow2 by lia.
  repeat (f_equal; [arith_side |]); f_equal; arith_side.
Qed.

Lemma store_load_le32 :
  flat_store_le32 (a0 :: a1 :: a2 :: a3 :: rest) (be_value [a3; a2; a1; a0])
  = a0 :: a1 :: a2 :: a3 :: rest.
Proof.
  pose proof bytes as Hw. split_bytes Hw.
  unfold flat_store_le32, be_value. buf_compute. simpl fold_left.
  unfold u8, wrap. rewrite !Z.shiftr_div_pow2 by lia.
  repeat (f_equal; [arith_side |]); f_equal; arith_side.
Qed.
End Endian32.

Section Endian64.
Variables a0 a1 a2 a3 a4 a5 a6 a7 : Z.
Variable rest : list Z.
Hypothesis bytes : words 8 [a0; a1; a2; a3; a4; a5; a6; a7].

Lemma load_be64_value :
  flat_load_be64 (a0 :: a1 :: a2 :: a3 :: a4 :: a5 :: a6 :: a7 :: rest)
  = be_value [a0; a1; a2; a3; a4; a5; a6; a7].
Proof.
  pose proof bytes as Hw. split_bytes Hw.
  unfold flat_load_be64, be_value. buf_compute. simpl fold_left.
  unfold u64. rewrite !Z.shiftl_mul_pow2 by lia.
  strip_wraps 64. lor_to_add. lia.
Qed.

Lemma load_le64_value :
  flat_load_le64 (a0 :: a1 :: a2 :: a3 :: a4 :: a5 :: a6 :: a7 :: rest)
  = be_value [a7; a6; a5; a4; a3; a2; a1; a0].
Proof.
  pose proof bytes as Hw. split_bytes Hw.
  unfold flat_load_le64, be_value. buf_compute. simpl fold_left.
  unfold u64. rewrite !Z.shiftl_mul_pow2 by lia.
  strip_wraps 64. lor_to_add. lia.
Qed.

Lemma store_load_be64 :
  flat_store_be64 (a0 :: a1 :: a2 :: a3 :: a4 :: a5 :: a6 :: a7 :: rest)
    (be_value [a0; a1; a2; a3; a4; a5; a6; a7])
  = a0 :: a1 :: a2 :: a3 :: a4 :: a5 :: a6 :: a7 :: rest.
Proof.
  pose proof bytes as Hw. split_bytes Hw.
  unfold flat_store_be64, be_value. buf_compute. simpl fold_left.
  unfold u8, wrap. rewrite !Z.shiftr_div_pow2 by lia.
  repeat (f_equal; [arith_side |]); f_equal; arith_side.
Qed.

Lemma store_load_le64 :
  flat_store_le64 (a0 :: a1 :: a2 :: a3 :: a4 :: a5 :: a6 :: a7 :: rest)
    (be_value [a7; a6; a5; a4; a3; a2; a1; a0])
  = a0 :: a1 :: a2 :: a3 :: a4 :: a5 :: a6 :: a7 :: rest.
Proof.
  pose proof bytes as Hw. split_bytes Hw.
  unfold flat_store_le64, be_value. buf_compute. simpl fold_left.
  unfold u8, wrap. rewrite !Z.shiftr_div_pow2 by lia.
  repeat (f_equal; [arith_side |]); f_equal; arith_side.
Qed.
End Endian64.

Lemma bytes_of_word16 v :
  word 16 v -> be_value [u8 (Z.shiftr v 8); u8 v] = v.
Proof.
  intros Hv. unfold word in Hv. unfold be_value. simpl fold_left.
  unfold u8, wrap. rewrite !Z.shiftr_div_pow2 by lia. arith_side.
Qed.

Lemma bytes_of_word32 v :
  word 32 v ->
  be_value [u8 (Z.shiftr v 24); u8 (Z.shiftr v 16); u8 (Z.shiftr v 8); u8 v] = v.
Proof.
  intros Hv. unfold word in Hv. unfold be_value. simpl fold_left.
  unfold u8, wrap. rewrite !Z.shiftr_div_pow2 by lia. arith_side.
Qed.

Lemma bytes_of_word64 v :
  word 64 v ->
  be_value [u8 (Z.shiftr v 56); u8 (Z.shiftr v 48); u8 (Z.shiftr v 40);
            u8 (Z.shiftr v 32); u8 (Z.shiftr v 24); u8 (Z.shiftr v 16);
            u8 (Z.shiftr v 8); u8 v] = v.
Proof.
  intros Hv. unfold word in Hv. unfold be_value. simpl fold_left.
  unfold u8, wrap. rewrite !Z.shiftr_div_pow2 by lia. arith_side.
Qed.

Ltac bytes_are_words :=
  repeat (apply Forall_cons; split; [apply wrap_word; lia |]);
  apply Forall_nil_2.

(** X24.  On [N = 2, 4, 8] bytes, [flat_load_beN] returns the number whose
    base-256 digits are the bytes in order, most significant first, and
    [flat_load_leN] the number whose digits are the bytes in reverse
    order. *)
Theorem flat_load_endian_value (B : end_width) (p : list Z) :
  words 8 p -> (end_bytes B <= length p)%nat ->
  flat_load_be_W B p = be_value (take (end_bytes B) p)
  /\ flat_load_le_W B p = be_value (reverse (take (end_bytes B) p)).
Proof.
  intros Hw Hlen.
  destruct B; simpl in Hlen.
  - do 2 (destruct p as [| ? p]; [simpl in Hlen; lia |]).
    unfold words in Hw. rewrite <- (take_drop 2 (_ :: _ :: p)) in Hw.
    apply Forall_app in Hw as [Hw _]. simpl in Hw.
    split; [apply load_be16_value | apply load_le16_value]; exact Hw.
  - do 4 (destruct p as [| ? p]; [simpl in Hlen; lia |]).
    unfold words in Hw. rewrite <- (take_drop 4 (_ :: _ :: _ :: _ :: p)) in Hw.
    apply Forall_app in Hw as [Hw _]. simpl in Hw.
    split; [apply load_be32_value | apply load_le32_value]; exact Hw.
  - do 8 (destruct p as [| ? p]; [simpl in Hlen; lia |]).
    unfold words in Hw.
    rewrite <- (take_drop 8 (_ :: _ :: _ :: _ :: _ :: _ :: _ :: _ :: p)) in Hw.
    apply Forall_app in Hw as [Hw _]. simpl in Hw.
    split; [apply load_be64_value | apply load_le64_value]; exact Hw.
Qed.

Lemma flat_load_endian_value_witness :
  flat_load_be_W B32 [1; 2; 3; 4; 9] = be_value (take (end_bytes B32) [1; 2; 3; 4; 9]).
Proof.
  refine (proj1 (flat_load_endian_value B32 [1; 2; 3; 4; 9] _ _));
    [repeat constructor; unfold word; lia | simpl; lia].
Defined.

(** X25.  Storing a word and loading it back with the same byte order
    returns the word; the little-endian store writes the bytes of the
    big-endian store in reverse order; bytes after the first [N] are not
    touched. *)
Theorem flat_store_then_load (B : end_width) (p : list Z) (v : Z) :
  word (end_bits B) v -> (end_bytes B <= length p)%nat ->
  flat_load_be_W B (flat_store_be_W B p v) = v
  /\ flat_load_le_W B (flat_store_le_W B p v) = v
  /\ take (end_bytes B) (flat_store_le_W B p v)
     = reverse (take (end_bytes B) (flat_store_be_W B p v))
  /\ drop (end_bytes B) (flat_store_be_W B p v) = drop (end_bytes B) p
  /\ drop (end_bytes B) (flat_store_le_W B p v) = drop (end_bytes B) p.
Proof.
  intros Hv Hlen.
  destruct B; simpl in Hlen, Hv.
  - do 2 (destruct p as [| ? p]; [simpl in Hlen; lia |]).
    split; [| split; [| repeat split]].
    + change (flat_store_be_W B16 (z :: z0 :: p) v)
        with (u8 (Z.shiftr v 8) :: u8 v :: p).
      unfold flat_load_be_W. rewrite load_be16_value by bytes_are_words.
      apply bytes_of_word16, Hv.
    + change (flat_store_le_W B16 (z :: z0 :: p) v)
        with (u8 v :: u8 (Z.shiftr v 8) :: p).
      unfold flat_load_le_W. rewrite load_le16_value by bytes_are_words.
      apply bytes_of_word16, Hv.
  - do 4 (destruct p as [| ? p]; [simpl in Hlen; lia |]).
    split; [| split; [| repeat split]].
    + change (flat_store_be_W B32 (z :: z0 :: z1 :: z2 :: p) v)
        with (u8 (Z.shiftr v 24) :: u8 (Z.shiftr v 16) :: u8 (Z.shiftr v 8)
                :: u8 v :: p).
      unfold flat_load_be_W. rewrite load_be32_value by bytes_are_words.
      apply bytes_of_word32, Hv.
    + change (flat_store_le_W B32 (z :: z0 :: z1 :: z2 :: p) v)
        with (u8 v :: u8 (Z.shiftr v 8) :: u8 (Z.shiftr v 16)
                :: u8 (Z.shiftr v 24) :: p).
      unfold flat_load_le_W. rewrite load_le32_value by bytes_are_words.
      apply bytes_of_word32, Hv.
  - do 8 (destruct p as [| ? p]; [simpl in Hlen; lia |]).
    split; [| split; [| repeat split]].
    + change (flat_store_be_W B64
                (z :: z0 :: z1 :: z2 :: z3 :: z4 :: z5 :: z6 :: p) v)
        with (u8 (Z.shiftr v 56) :: u8 (Z.shiftr v 48) :: u8 (Z.shiftr v 40)
                :: u8 (Z.shiftr v 32) :: u8 (Z.shiftr v 24)
                :: u8 (Z.shiftr v 16) :: u8 (Z.shiftr v 8) :: u8 v :: p).
      unfold flat_load_be_W. rewrite load_be64_value by bytes_are_words.
      apply bytes_of_word64, Hv.
    + change (flat_store_le_W B64
                (z :: z0 :: z1 :: z2 :: z3 :: z4 :: z5 :: z6 :: p) v)
        with (u8 v :: u8 (Z.shiftr v 8) :: u8 (Z.shiftr v 16)
                :: u8 (Z.shiftr v 24) :: u8 (Z.shiftr v 32)
                :: u8 (Z.shiftr v 40) :: u8 (Z.shiftr v 48)
                :: u8 (Z.shiftr v 56) :: p).
      unfold flat_load_le_W. rewrite load_le64_value by bytes_are_words.
      apply bytes_of_word64, Hv.
Qed.

Lemma flat_store_then_load_witness :
  flat_load_le_W B32 (flat_store_le_W B32 [0; 0; 0; 0; 7] 4294967295) = 4294967295.
Proof.
  refine (proj1 (proj2 (flat_store_then_load B32 [0; 0; 0; 0; 7] 4294967295 _ _)));
    [unfold word, end_bits; lia | simpl; lia].
Defined.

(** X26.  Loading the first [N] bytes of a buffer and storing the result
    back with the same byte order leaves the buffer as it was. *)
Theorem flat_load_then_store (B : end_width) (p : list Z) :
  words 8 p -> (end_bytes B <= length p)%nat ->
  flat_store_be_W B p (flat_load_be_W B p) = p
  /\ flat_store_le_W B p (flat_load_le_W B p) = p.
Proof.
  intros Hw Hlen.
  destruct B; simpl in Hlen.
  - do 2 (destruct p as [| ? p]; [simpl in Hlen; lia |]).
    unfold words in Hw. rewrite <- (take_drop 2 (_ :: _ :: p)) in Hw.
    apply Forall_app in Hw as [Hw _]. simpl in Hw.
    unfold flat_store_be_W, flat_store_le_W, flat_load_be_W, flat_load_le_W.
    rewrite load_be16_value, load_le16_value by exact Hw.
    split; [apply store_load_be16 | apply store_load_le16]; exact Hw.
  - do 4 (destruct p as [| ? p]; [simpl in Hlen; lia |]).
    unfold words in Hw. rewrite <- (take_drop 4 (_ :: _ :: _ :: _ :: p)) in Hw.
    apply Forall_app in Hw as [Hw _]. simpl in Hw.
    unfold flat_store_be_W, flat_store_le_W, flat_load_be_W, flat_load_le_W.
    rewrite load_be32_value, load_le32_value by exact Hw.
    split; [apply store_load_be32 | apply store_load_le32]; exact Hw.
  - do 8 (destruct p as [| ? p]; [simpl in Hlen; lia |]).
    unfold words in Hw.
    rewrite <- (take_drop 8 (_ :: _ :: _ :: _ :: _ :: _ :: _ :: _ :: p)) in Hw.
    apply Forall_app in Hw as [Hw _]. simpl in Hw.
    unfold flat_store_be_W, flat_store_le_W, flat_load_be_W, flat_load_le_W.
    rewrite load_be64_value, load_le64_value by exact Hw.
    split; [apply store_load_be64 | apply store_load_le64]; exact Hw.
Qed.

Lemma flat_load_then_store_witness :
  flat_store_be_W B16 [1; 2; 3] (flat_load_be_W B16 [1; 2; 3]) = [1; 2; 3].
Proof.
  refine (proj1 (flat_load_then_store B16 [1; 2; 3] _ _));
    [repeat constructor; unfold word; lia | simpl; lia].
Defined.

(** ** Rotations *)

Section Rotations.
Variables w k : Z.
Hypothesis k_range : 0 <= k <= 6.
Hypothesis w_def : w = 2 ^ k.

Local Abbreviation rol x c :=
  (Z.lor (wrap w (Z.shiftl x (Z.land c (w - 1))))
         (Z.shiftr x (Z.land (uint (w - Z.land c (w - 1))) (w - 1)))).
Local Abbreviation ror x c :=
  (Z.lor (Z.shiftr x (Z.land c (w - 1)))
         (wrap w (Z.shiftl x (Z.land (uint (w - Z.land c (w - 1))) (w - 1))))).

Lemma rot_width_range : 1 <= w <= 64.
Proof.
  rewrite w_def. split.
  - pose proof (Z.pow_pos_nonneg 2 k). lia.
  - change 64 with (2 ^ 6). apply Z.pow_le_mono_r; lia.
Qed.

(** The count is reduced modulo the width. *)
Lemma rot_count c : Z.land c (w - 1) = c mod w.
Proof.
  rewrite w_def.
  replace (2 ^ k - 1) with (Z.ones k) by (rewrite Z.ones_equiv; lia).
  apply Z.land_ones. lia.
Qed.

Lemma rot_back_count n :
  0 <= n < w -> Z.land (uint (w - n)) (w - 1) = (w - n) mod w.
Proof.
  intros Hn. pose proof rot_width_range.
  unfold uint. rewrite (wrap_small 32) by (unfold word; lia).
  apply rot_count.
Qed.

Lemma rol_bit x c i :
  word w x -> 0 <= i < w ->
  Z.testbit (rol x c) i = Z.testbit x ((i - c) mod w).
Proof.
  intros Hx Hi. pose proof rot_width_range as Hw.
  rewrite rot_count.
  assert (0 <= c mod w < w) as Hn by (apply Z.mod_pos_bound; lia).
  rewrite rot_back_count by exact Hn.
  replace ((i - c) mod w) with ((i - c mod w) mod w)
    by (rewrite Zminus_mod_idemp_r; reflexivity).
  set (n := c mod w) in *.
  rewrite Z.lor_spec. unfold wrap.
  rewrite Z.testbit_mod_pow2, Z.shiftl_spec, Z.shiftr_spec by lia.
  replace (i <? w) with true by (symmetry; apply Z.ltb_lt; lia).
  rewrite andb_true_l.
  destruct (Z.eq_dec n 0) as [Hz | Hz].
  - rewrite Hz, !Z.sub_0_r, Z_mod_same_full, !Z.add_0_r, Z.mod_small by lia.
    apply orb_diag.
  - rewrite (Z.mod_small (w - n)) by lia.
    destruct (Z_lt_le_dec i n) as [Hlt | Hge].
    + rewrite (Z.testbit_neg_r x (i - n)) by lia. rewrite orb_false_l.
      f_equal. apply Z.mod_unique with (q := -1); lia.
    + rewrite (testbit_high_word w x (i + (w - n))) by (try exact Hx; lia).
      rewrite orb_false_r. rewrite Z.mod_small by lia. reflexivity.
Qed.

Lemma ror_bit x c i :
  word w x -> 0 <= i < w ->
  Z.testbit (ror x c) i = Z.testbit x ((i + c) mod w).
Proof.
  intros Hx Hi. pose proof rot_width_range as Hw.
  rewrite rot_count.
  assert (0 <= c mod w < w) as Hn by (apply Z.mod_pos_bound; lia).
  rewrite rot_back_count by exact Hn.
  replace ((i + c) mod w) with ((i + c mod w) mod w)
    by (rewrite Zplus_mod_idemp_r; reflexivity).
  set (n := c mod w) in *.
  rewrite Z.lor_spec. unfold wrap.
  rewrite Z.testbit_mod_pow2, Z.shiftl_spec, Z.shiftr_spec by lia.
  replace (i <? w) with true by (symmetry; apply Z.ltb_lt; lia).
  rewrite andb_true_l.
  destruct (Z.eq_dec n 0) as [Hz | Hz].
  - rewrite Hz, !Z.sub_0_r, Z_mod_same_full, !Z.add_0_r, !Z.sub_0_r,
      Z.mod_small by lia.
    apply orb_diag.
  - rewrite (Z.mod_small (w - n)) by lia.
    destruct (Z_lt_le_dec (i + n) w) as [Hlt | Hge].
    + rewrite (Z.testbit_neg_r x (i - (w - n))) by lia. rewrite orb_false_r.
      rewrite Z.mod_small by lia. reflexivity.
    + rewrite (testbit_high_word w x (i + n)) by (try exact Hx; lia).
      rewrite orb_false_l.
      f_equal. apply Z.mod_unique with (q := 1); lia.
Qed.

Lemma shiftr_word x n : word w x -> 0 <= n -> word w (Z.shiftr x n).
Proof.
  intros Hx Hn. unfold word in *. rewrite Z.shiftr_div_pow2 by exact Hn.
  assert (0 < 2 ^ n) by (apply Z.pow_pos_nonneg; lia).
  split; [apply Z.div_pos; lia |].
  apply Z.le_lt_trans with x; [| lia]. apply Z.div_le_upper_bound; nia.
Qed.

Lemma rol_word x c : word w x -> word w (rol x c).
Proof.
  intros Hx. pose proof rot_width_range as Hw.
  apply word_lor; [lia | apply wrap_word; lia |].
  apply shiftr_word; [exact Hx | apply Z.land_nonneg; lia].
Qed.

Lemma ror_word x c : word w x -> word w (ror x c).
Proof.
  intros Hx. pose proof rot_width_range as Hw.
  apply word_lor; [lia | | apply wrap_word; lia].
  apply shiftr_word; [exact Hx | apply Z.land_nonneg; lia].
Qed.

Lemma word_eq_bits x y :
  word w x -> word w y ->
  (forall i, 0 <= i < w -> Z.testbit x i = Z.testbit y i) -> x = y.
Proof.
  intros Hx Hy Hb. pose proof rot_width_range as Hw.
  apply Z.bits_inj'. intros i Hi.
  destruct (Z_lt_le_dec i w) as [Hlt | Hge].
  - apply Hb. lia.
  - rewrite (testbit_high_word w x i), (testbit_high_word w y i)
      by (try assumption; lia).
    reflexivity.
Qed.

Lemma ror_rol x c : word w x -> ror (rol x c) c = x.
Proof.
  intros Hx. pose proof rot_width_range as Hw.
  apply word_eq_bits; [apply ror_word, rol_word, Hx | exact Hx |].
  intros i Hi.
  rewrite ror_bit by (try apply rol_word; assumption).
  rewrite rol_bit by (try apply Z.mod_pos_bound; try assumption; lia).
  rewrite Zminus_mod_idemp_l. replace (i + c - c) with i by lia.
  rewrite Z.mod_small by lia. reflexivity.
Qed.

Lemma rol_ror x c : word w x -> rol (ror x c) c = x.
Proof.
  intros Hx. pose proof rot_width_range as Hw.
  apply word_eq_bits; [apply rol_word, ror_word, Hx | exact Hx |].
  intros i Hi.
  rewrite rol_bit by (try apply ror_word; assumption).
  rewrite ror_bit by (try apply Z.mod_pos_bound; try assumption; lia).
  rewrite Zplus_mod_idemp_l. replace (i - c + c) with i by lia.
  rewrite Z.mod_small by lia. reflexivity.
Qed.
End Rotations.

(** X27.  A rotation moves bits and loses none: bit [i] of
    [flat_rolN(x, c)] is bit [(i - c) mod N] of [x], and bit [i] of
    [flat_rorN(x, c)] is bit [(i + c) mod N] of [x].  In particular only
    [c mod N] matters, and a count of 0 (or [N]) returns [x]. *)
Theorem flat_rotations_permute_bits (D : div_width) (x c i : Z) :
  word (div_bits D) x -> 0 <= i < div_bits D ->
  Z.testbit (flat_rol_W D x c) i = Z.testbit x ((i - c) mod div_bits D)
  /\ Z.testbit (flat_ror_W D x c) i = Z.testbit x ((i + c) mod div_bits D).
Proof.
  intros Hx Hi. destruct D; simpl in *.
  - split.
    + exact (rol_bit 32 5 ltac:(lia) eq_refl x c i Hx Hi).
    + exact (ror_bit 32 5 ltac:(lia) eq_refl x c i Hx Hi).
  - split.
    + exact (rol_bit 64 6 ltac:(lia) eq_refl x c i Hx Hi).
    + exact (ror_bit 64 6 ltac:(lia) eq_refl x c i Hx Hi).
Qed.

Lemma flat_rotations_permute_bits_witness :
  Z.testbit (flat_rol_W D32 2147483649 33) 1 = Z.testbit 2147483649 ((1 - 33) mod 32).
Proof.
  refine (proj1 (flat_rotations_permute_bits D32 2147483649 33 1 _ _));
    simpl; unfold word; lia.
Defined.

(** X28.  [flat_rorN] undoes [flat_rolN] with the same count and the other
    way round, and both return an [N]-bit word. *)
Theorem flat_rol_ror_inverse (D : div_width) (x c : Z) :
  word (div_bits D) x ->
  word (div_bits D) (flat_rol_W D x c)
  /\ word (div_bits D) (flat_ror_W D x c)
  /\ flat_ror_W D (flat_rol_W D x c) c = x
  /\ flat_rol_W D (flat_ror_W D x c) c = x.
Proof.
  intros Hx. destruct D; simpl in *.
  - split; [| split; [| split]].
    + exact (rol_word 32 5 ltac:(lia) eq_refl x c Hx).
    + exact (ror_word 32 5 ltac:(lia) eq_refl x c Hx).
    + exact (ror_rol 32 5 ltac:(lia) eq_refl x c Hx).
    + exact (rol_ror 32 5 ltac:(lia) eq_refl x c Hx).
  - split; [| split; [| split]].
    + exact (rol_word 64 6 ltac:(lia) eq_refl x c Hx).
    + exact (ror_word 64 6 ltac:(lia) eq_refl x c Hx).
    + exact (ror_rol 64 6 ltac:(lia) eq_refl x c Hx).
    + exact (rol_ror 64 6 ltac:(lia) eq_refl x c Hx).
Qed.

Lemma flat_rol_ror_inverse_witness :
  flat_ror_W D64 (flat_rol_W D64 81985529216486895 13) 13 = 81985529216486895.
Proof.
  refine (proj1 (proj2 (proj2
            (flat_rol_ror_inverse D64 81985529216486895 13 _))));
    simpl; unfold word; lia.
Defined.

(** ** Byte swap *)

Lemma land_byte_mask x j m :
  0 <= j -> m = 255 * 2 ^ j ->
  Z.land x m = ((x / 2 ^ j) mod 256) * 2 ^ j.
Proof.
  intros Hj ->.
  change 255 with (Z.ones 8). change 256 with (2 ^ 8).
  rewrite <- Z.land_ones, <- Z.shiftr_div_pow2, <- !Z.shiftl_mul_pow2 by lia.
  apply Z.bits_inj'. intros i Hi. rewrite Z.land_spec.
  destruct (Z_lt_le_dec i j) as [Hlt | Hge].
  - rewrite !Z.shiftl_spec_low by lia. apply andb_false_r.
  - rewrite !Z.shiftl_spec, Z.land_spec, Z.shiftr_spec by lia.
    replace (i - j + j) with i by lia. reflexivity.
Qed.

Ltac byte_term x j :=
  match goal with
  | |- context [Z.land x ?m] =>
      rewrite (land_byte_mask x j m) by (try reflexivity; lia)
  end;
  unfold u32, u64, wrap;
  rewrite ?Z.shiftl_mul_pow2, ?Z.shiftr_div_pow2 by lia;
  subst x; unfold be_value; simpl fold_left; arith_side.

Section Bswap32.
Variables a0 a1 a2 a3 : Z.
Hypothesis bytes : words 8 [a0; a1; a2; a3].

Lemma bswap32_value :
  flat_bswap32 (be_value [a0; a1; a2; a3]) = be_value [a3; a2; a1; a0].
Proof.
  pose proof bytes as Hw. split_bytes Hw.
  unfold flat_bswap32. set (x := be_value [a0; a1; a2; a3]).
  assert (u32 (Z.shiftl (Z.land x 0xFF) 24) = a3 * 2 ^ 24) as ->
    by byte_term x 0.
  assert (u32 (Z.shiftl (Z.land x 0xFF00) 8) = a2 * 2 ^ 16) as ->
    by byte_term x 8.
  assert (Z.shiftr (Z.land x 0xFF0000) 8 = a1 * 2 ^ 8) as ->
    by byte_term x 16.
  assert (Z.shiftr (Z.land x 0xFF000000) 24 = a0) as ->
    by byte_term x 24.
  lor_to_add. unfold be_value. simpl fold_left. lia.
Qed.
End Bswap32.

Section Bswap64.
Variables a0 a1 a2 a3 a4 a5 a6 a7 : Z.
Hypothesis bytes : words 8 [a0; a1; a2; a3; a4; a5; a6; a7].

Lemma bswap64_value :
  flat_bswap64 (be_value [a0; a1; a2; a3; a4; a5; a6; a7])
  = be_value [a7; a6; a5; a4; a3; a2; a1; a0].
Proof.
  pose proof bytes as Hw. split_bytes Hw.
  unfold flat_bswap64. set (x := be_value [a0; a1; a2; a3; a4; a5; a6; a7]).
  assert (u64 (Z.shiftl (Z.land x 0xFF) 56) = a7 * 2 ^ 56) as ->
    by byte_term x 0.
  assert (u64 (Z.shiftl (Z.land x 0xFF00) 40) = a6 * 2 ^ 48) as ->
    by byte_term x 8.
  assert (u64 (Z.shiftl (Z.land x 0xFF0000) 24) = a5 * 2 ^ 40) as ->
    by byte_term x 16.
  assert (u64 (Z.shiftl (Z.land x 0xFF000000) 8) = a4 * 2 ^ 32) as ->
    by byte_term x 24.
  assert (Z.shiftr (Z.land x 0xFF00000000) 8 = a3 * 2 ^ 24) as ->
    by byte_term x 32.
  assert (Z.shiftr (Z.land x 0xFF0000000000) 24 = a2 * 2 ^ 16) as ->
    by byte_term x 40.
  assert (Z.shiftr (Z.land x 0xFF000000000000) 40 = a1 * 2 ^ 8) as ->
    by byte_term x 48.
  assert (Z.shiftr (Z.land x 0xFF00000000000000) 56 = a0) as ->
    by byte_term x 56.
  lor_to_add. unfold be_value. simpl fold_left. lia.
Qed.
End Bswap64.

Lemma flat_bswap_W_bytes (D : div_width) (p : list Z) :
  words 8 p -> length p = div_bytes D ->
  flat_bswap_W D (be_value p) = be_value (reverse p).
Proof.
  intros Hw Hlen. destruct D; simpl in Hlen.
  - do 4 (destruct p as [| ? p]; [discriminate Hlen |]).
    destruct p; [| discriminate Hlen].
    apply bswap32_value, Hw.
  - do 8 (destruct p as [| ? p]; [discriminate Hlen |]).
    destruct p; [| discriminate Hlen].
    apply bswap64_value, Hw.
Qed.

(** X29.  [flat_bswapN] reverses the byte order: applied to the word whose
    bytes, most significant first, are [p], it returns the word whose
    bytes are [p] reversed; applied twice it returns the word it was given. *)
Theorem flat_bswap_reverses_bytes (D : div_width) (p : list Z) :
  words 8 p -> length p = div_bytes D ->
  flat_bswap_W D (be_value p) = be_value (reverse p)
  /\ flat_bswap_W D (flat_bswap_W D (be_value p)) = be_value p.
Proof.
  intros Hw Hlen. split.
  - apply flat_bswap_W_bytes; assumption.
  - rewrite (flat_bswap_W_bytes D p Hw Hlen).
    rewrite (flat_bswap_W_bytes D (reverse p)).
    + rewrite reverse_involutive. reflexivity.
    + unfold words. apply Forall_reverse. exact Hw.
    + rewrite length_reverse. exact Hlen.
Qed.

Lemma flat_bswap_reverses_bytes_witness :
  flat_bswap_W D32 (be_value [18; 52; 86; 120]) = be_value (reverse [18; 52; 86; 120]).
Proof.
  refine (proj1 (flat_bswap_reverses_bytes D32 [18; 52; 86; 120] _ eq_refl)).
  repeat constructor; unfold word; lia.
Defined.

(** ** Pointer select *)

(** X30.  On the integer values of the pointers, [flat_ptr_select] returns
    [yes] when the low bit of [cond] is set and [no] otherwise, never a
    mix of the two. *)
Theorem flat_ptr_select_picks (cond yes no : Z) :
  word 64 yes -> word 64 no ->
  flat_ptr_select cond yes no = if Z.odd cond then yes else no.
Proof.
  intros Hy Hn. unfold flat_ptr_select.
  rewrite flat_mask_from_bit_sz_spec. unfold SIZE_BITS, u64.
  rewrite (wrap_small 64 yes), (wrap_small 64 no) by assumption.
  rewrite (wrap_small 64 (if Z.odd cond then ALL_ONES 64 else 0))
    by (destruct (Z.odd cond); unfold word, ALL_ONES; lia).
  apply (select_shape 64 ltac:(lia) (Z.odd cond) yes no Hy Hn).
Qed.

Lemma flat_ptr_select_picks_witness :
  flat_ptr_select 3 4096 8192 = 4096.
Proof.
  refine (flat_ptr_select_picks 3 4096 8192 _ _); unfold word; lia.
Defined.
